(** * OrderBook.cpp: a price-time-priority order book on an order-statistics treap

    A shallow embedding of the treap ([TreapNode], [treapInsert], [treapMerge],
    [treapSplit], [treapRemoveKey], [getByRank], [removeByRank]) and of the
    [OrderBook] wrapper ([add], [removeByPosition], [buy]) of
    [src/OrderBook.cpp], with the properties the design document states about
    them.

    Conventions of the embedding:
    - [int] and [long long] values are integers of [Z]; every arithmetic
      operation of the source that can leave the range is written with its
      two's-complement wrap-around ([add32], [sub32], [add64], [sub64],
      [mul64]);
    - a [TreapNode*] is a value of the inductive type [TreapNode]: [null] or a
      [node] carrying the seven fields of the struct, in declaration order.
      Nodes are exclusively owned by their parent edge, so a pointer is
      faithfully a tree value;
    - [rand()] is the C library's hidden global generator: its state is
      threaded explicitly, and the generator itself is a parameter of the
      development. *)

From Stdlib Require Import ZArith Lia.
From stdpp Require Import base tactics option list sorting.

Local Open Scope Z_scope.

(** ** Machine integers *)

(** The value an integer denotes in a two's-complement word of [bits] bits. *)
Definition wrap (bits x : Z) : Z :=
  (x + 2 ^ (bits - 1)) mod 2 ^ bits - 2 ^ (bits - 1).

Definition INT_MIN : Z := - 2 ^ 31.
Definition INT_MAX : Z := 2 ^ 31 - 1.
Definition LLONG_MIN : Z := - 2 ^ 63.
Definition LLONG_MAX : Z := 2 ^ 63 - 1.

Definition is_int (x : Z) : Prop := INT_MIN <= x <= INT_MAX.
Definition is_long_long (x : Z) : Prop := LLONG_MIN <= x <= LLONG_MAX.

(** [int] arithmetic. *)
Definition add32 (a b : Z) : Z := wrap 32 (a + b).
Definition sub32 (a b : Z) : Z := wrap 32 (a - b).
Definition shl32 (a n : Z) : Z := wrap 32 (Z.shiftl a n).

(** [long long] arithmetic. *)
Definition add64 (a b : Z) : Z := wrap 64 (a + b).
Definition sub64 (a b : Z) : Z := wrap 64 (a - b).
Definition mul64 (a b : Z) : Z := wrap 64 (a * b).

(** ** The treap *)

(** [struct TreapNode]: the fields in the order of the declaration. *)
Inductive TreapNode : Type :=
| null : TreapNode
| node (price : Z) (sizeShares : Z) (insertion_id : Z)
       (priority : Z) (subtree_size : Z) (left right : TreapNode) : TreapNode.

#[global] Instance TreapNode_eq_dec : EqDecision TreapNode.
Proof. solve_decision. Defined.

(** The payload of a node, as the book's clients see a resting order. *)
Record Order : Type := mkOrder {
  o_price : Z;
  o_quantity : Z;
  o_sequence : Z
}.

#[global] Instance Order_eq_dec : EqDecision Order.
Proof. solve_decision. Defined.

(** [n->priority]; only read through pointers that are not null. *)
Definition priority_of (n : TreapNode) : Z :=
  match n with
  | null => 0
  | node _ _ _ pr _ _ _ => pr
  end.

Definition is_null (n : TreapNode) : bool :=
  match n with
  | null => true
  | node _ _ _ _ _ _ _ => false
  end.

(** [getSize]: the stored [subtree_size], 0 for the null pointer. *)
Definition getSize (n : TreapNode) : Z :=
  match n with
  | null => 0
  | node _ _ _ _ sz _ _ => sz
  end.

(** [updateSize]: [n->subtree_size = 1 + getSize(n->left) + getSize(n->right)]. *)
Definition updateSize (n : TreapNode) : TreapNode :=
  match n with
  | null => null
  | node p s i pr _ l r =>
      node p s i pr (add32 (add32 1 (getSize l)) (getSize r)) l r
  end.

(** [rotateRight(y)]: [x = y->left] becomes the root. The source dereferences
    [y->left]; at its only call site that pointer was just returned by
    [treapInsert], which never returns null (lemma [treapInsert_not_null]). *)
Definition rotateRight (y : TreapNode) : TreapNode :=
  match y with
  | node yp ys yi ypr ysz (node xp xs xi xpr xsz xl T2) yr =>
      let y' := updateSize (node yp ys yi ypr ysz T2 yr) in
      updateSize (node xp xs xi xpr xsz xl y')
  | _ => y
  end.

(** [rotateLeft(x)]: [y = x->right] becomes the root. *)
Definition rotateLeft (x : TreapNode) : TreapNode :=
  match x with
  | node xp xs xi xpr xsz xl (node yp ys yi ypr ysz T2 yr) =>
      let x' := updateSize (node xp xs xi xpr xsz xl T2) in
      updateSize (node yp ys yi ypr ysz x' yr)
  | _ => x
  end.

(** [lessThan]: [(price ASC, insertion_id ASC)]. *)
Definition lessThan (p1 i1 p2 i2 : Z) : bool :=
  if negb (p1 =? p2) then p1 <? p2 else i1 <? i2.

(** [treapMerge(L, R)]. The recursion descends into [L->right] or into
    [R->left]: an outer recursion on [L] and an inner one on [R]. *)
Fixpoint treapMerge (L : TreapNode) : TreapNode -> TreapNode :=
  match L with
  | null => fun R => R
  | node lp ls li lpr lsz ll lr =>
      fix merge_L (R : TreapNode) : TreapNode :=
        match R with
        | null => node lp ls li lpr lsz ll lr
        | node rp rs ri rpr rsz rl rr =>
            if lpr >? rpr
            then updateSize (node lp ls li lpr lsz ll (treapMerge lr R))
            else updateSize (node rp rs ri rpr rsz (merge_L rl) rr)
        end
  end.

(** [treapSplit(root, price, ins)]: [(<= key, > key)]. *)
Fixpoint treapSplit (root : TreapNode) (price ins : Z) : TreapNode * TreapNode :=
  match root with
  | null => (null, null)
  | node rp rs ri rpr rsz l r =>
      if lessThan rp ri price ins || ((rp =? price) && (ri =? ins))
      then
        let splitted := treapSplit r price ins in
        (updateSize (node rp rs ri rpr rsz l (fst splitted)), snd splitted)
      else
        let splitted := treapSplit l price ins in
        (fst splitted, updateSize (node rp rs ri rpr rsz (snd splitted) r))
  end.

(** [treapRemoveKey(root, price, ins)]. *)
Fixpoint treapRemoveKey (root : TreapNode) (price ins : Z) : TreapNode :=
  match root with
  | null => null
  | node rp rs ri rpr rsz l r =>
      if (rp =? price) && (ri =? ins) then treapMerge l r
      else if lessThan price ins rp ri
      then updateSize (node rp rs ri rpr rsz (treapRemoveKey l price ins) r)
      else updateSize (node rp rs ri rpr rsz l (treapRemoveKey r price ins))
  end.

(** [getByRank(root, rank)]: the pointer to the node of that rank, null when
    there is none. *)
Fixpoint getByRank (root : TreapNode) (rank : Z) : TreapNode :=
  match root with
  | null => null
  | node _ _ _ _ _ l r =>
      let leftSize := getSize l in
      if rank <? leftSize then getByRank l rank
      else if rank =? leftSize then root
      else getByRank r (sub32 (sub32 rank leftSize) 1)
  end.

(** [removeByRank(root, rank)]. *)
Fixpoint removeByRank (root : TreapNode) (rank : Z) : TreapNode :=
  match root with
  | null => null
  | node rp rs ri rpr rsz l r =>
      let leftSize := getSize l in
      if rank <? leftSize
      then updateSize (node rp rs ri rpr rsz (removeByRank l rank) r)
      else if rank =? leftSize then treapMerge l r
      else updateSize
             (node rp rs ri rpr rsz l
                   (removeByRank r (sub32 (sub32 rank leftSize) 1)))
  end.

(** The write [top->sizeShares = v] through the pointer
    [top = getByRank(root, rank)]: the node is shared with the tree, so the
    tree changes at the place [getByRank] reached and nowhere else. *)
Fixpoint storeSizeShares (root : TreapNode) (rank v : Z) : TreapNode :=
  match root with
  | null => null
  | node rp rs ri rpr rsz l r =>
      let leftSize := getSize l in
      if rank <? leftSize
      then node rp rs ri rpr rsz (storeSizeShares l rank v) r
      else if rank =? leftSize then node rp v ri rpr rsz l r
      else node rp rs ri rpr rsz l
                (storeSizeShares r (sub32 (sub32 rank leftSize) 1) v)
  end.

(** ** The random source, insertion and the book *)

Section WithRand.

(** The state of the C library's generator and one call of [rand()]. *)
Variable RandState : Type.
Variable rand : RandState -> Z * RandState.
(** [srand(seed)]. *)
Variable srand : Z -> RandState.

(** The constructor's [priority((rand() << 15) ^ rand())], the left operand
    drawn first. *)
Definition draw_priority (g : RandState) : Z * RandState :=
  let (r1, g1) := rand g in
  let (r2, g2) := rand g1 in
  (Z.lxor (shl32 r1 15) r2, g2).

(** [new TreapNode(p, s, ins_id)]. *)
Definition new_TreapNode (p s ins_id : Z) (g : RandState)
  : TreapNode * RandState :=
  let (pr, g') := draw_priority g in
  (node p s ins_id pr 1 null null, g').

(** [treapInsert(root, price, sz, ins_id)]. *)
Fixpoint treapInsert (root : TreapNode) (price sz ins_id : Z) (g : RandState)
  : TreapNode * RandState :=
  match root with
  | null => new_TreapNode price sz ins_id g
  | node rp rs ri rpr rsz l r =>
      if lessThan price ins_id rp ri then
        let (l', g') := treapInsert l price sz ins_id g in
        let root1 := node rp rs ri rpr rsz l' r in
        let root2 :=
          if priority_of l' >? rpr then rotateRight root1 else root1 in
        (updateSize root2, g')
      else
        let (r', g') := treapInsert r price sz ins_id g in
        let root1 := node rp rs ri rpr rsz l r' in
        let root2 :=
          if priority_of r' >? rpr then rotateLeft root1 else root1 in
        (updateSize root2, g')
  end.

(** [class OrderBook], together with the generator state its constructor
    seeds and its [add] advances. *)
Record OrderBook : Type := mkOrderBook {
  root : TreapNode;
  globalInsertionCounter : Z;
  rand_state : RandState
}.

(** [OrderBook()]: an empty tree, counter 0, [srand(0xDEADBEEF)]. *)
Definition new_OrderBook : OrderBook :=
  mkOrderBook null 0 (srand 3735928559).

(** [add(price, size)]: [root = treapInsert(root, price, size,
    globalInsertionCounter++)]. *)
Definition add (ob : OrderBook) (price size : Z) : OrderBook :=
  let (t, g) :=
    treapInsert (root ob) price size (globalInsertionCounter ob)
                (rand_state ob) in
  mkOrderBook t (add64 (globalInsertionCounter ob) 1) g.

(** [removeByPosition(pos)]. *)
Definition removeByPosition (ob : OrderBook) (pos : Z) : OrderBook :=
  mkOrderBook (removeByRank (root ob) pos) (globalInsertionCounter ob)
              (rand_state ob).

(** The [while] loop of [buy]. Each unit of [fuel] pays for one iteration;
    [None] means the fuel ran out before the loop condition failed. *)
Fixpoint buy_loop (fuel : nat) (t : TreapNode) (shares cost : Z)
  : option (TreapNode * Z) :=
  if (0 <? shares) && negb (is_null t) then
    match fuel with
    | O => None
    | S fuel' =>
        match getByRank t 0 with
        | null => Some (t, cost)
        | node tp ts _ _ _ _ _ =>
            let canFill := Z.min shares ts in
            let cost' := add64 cost (mul64 canFill tp) in
            let ts' := sub64 ts canFill in
            let t1 := storeSizeShares t 0 ts' in
            let shares' := sub64 shares canFill in
            let t2 := if ts' =? 0 then removeByRank t1 0 else t1 in
            buy_loop fuel' t2 shares' cost'
        end
    end
  else Some (t, cost).

(** [buy(shares)]: the book after the call and the returned cost. *)
Definition buy (fuel : nat) (ob : OrderBook) (shares : Z)
  : option (OrderBook * Z) :=
  match buy_loop fuel (root ob) shares 0 with
  | Some (t, cost) =>
      Some (mkOrderBook t (globalInsertionCounter ob) (rand_state ob), cost)
  | None => None
  end.

End WithRand.

Arguments root {RandState} _.
Arguments globalInsertionCounter {RandState} _.
Arguments rand_state {RandState} _.
Arguments mkOrderBook {RandState} _ _ _.
Arguments draw_priority {RandState} rand g.
Arguments new_TreapNode {RandState} rand p s ins_id g.
Arguments treapInsert {RandState} rand root price sz ins_id g.
Arguments new_OrderBook {RandState} srand.
Arguments add {RandState} rand ob price size.
Arguments removeByPosition {RandState} ob pos.
Arguments buy {RandState} fuel ob shares.

(** A run of [add] calls, in the order of the list [(price, size)]. *)
Definition add_all {RandState : Type} (rand : RandState -> Z * RandState)
  (ob : OrderBook RandState) (adds : list (Z * Z)) : OrderBook RandState :=
  foldl (fun b a => add rand b (fst a) (snd a)) ob adds.

(** [size()] and the orders of a book. *)
Definition book_size {RandState : Type} (ob : OrderBook RandState) : Z :=
  getSize (root ob).

(** ** The abstract view: orders in rank order *)

Definition order_of (n : TreapNode) : option Order :=
  match n with
  | null => None
  | node p s i _ _ _ _ => Some (mkOrder p s i)
  end.

(** In-order traversal: the resting orders from rank 0 upwards. *)
Fixpoint inorder (t : TreapNode) : list Order :=
  match t with
  | null => []
  | node p s i _ _ l r => inorder l ++ mkOrder p s i :: inorder r
  end.

(** The lexicographic order on keys [(price, sequence)]. *)
Definition key_lt (p1 i1 p2 i2 : Z) : Prop :=
  p1 < p2 \/ (p1 = p2 /\ i1 < i2).

Definition key_le (p1 i1 p2 i2 : Z) : Prop :=
  p1 < p2 \/ (p1 = p2 /\ i1 <= i2).

#[global] Instance key_lt_dec p1 i1 p2 i2 : Decision (key_lt p1 i1 p2 i2).
Proof. unfold key_lt. apply _. Defined.

#[global] Instance key_le_dec p1 i1 p2 i2 : Decision (key_le p1 i1 p2 i2).
Proof. unfold key_le. apply _. Defined.

Definition order_lt (a b : Order) : Prop :=
  key_lt (o_price a) (o_sequence a) (o_price b) (o_sequence b).

Definition has_key (p i : Z) (o : Order) : Prop :=
  o_price o = p /\ o_sequence o = i.

(** ** The structural invariants *)

(** 1. In-order traversal yields strictly increasing keys. *)
Definition ordered (t : TreapNode) : Prop :=
  StronglySorted order_lt (inorder t).

(** 2. No child has a priority above its parent's. *)
Definition prio_le (bound : Z) (t : TreapNode) : Prop :=
  match t with
  | null => True
  | node _ _ _ pr _ _ _ => pr <= bound
  end.

Fixpoint heap (t : TreapNode) : Prop :=
  match t with
  | null => True
  | node _ _ _ pr _ l r => prio_le pr l /\ prio_le pr r /\ heap l /\ heap r
  end.

(** 3. Every [subtree_size] is [1 + size(left) + size(right)], and is a value
    of its type [int]. *)
Fixpoint size_ok (t : TreapNode) : Prop :=
  match t with
  | null => True
  | node _ _ _ _ sz l r =>
      sz = 1 + getSize l + getSize r /\ sz <= INT_MAX /\ size_ok l /\ size_ok r
  end.

Definition treap_inv (t : TreapNode) : Prop :=
  ordered t /\ heap t /\ size_ok t.

#[global] Instance order_lt_dec : RelDecision order_lt.
Proof. intros a b. unfold order_lt. apply _. Defined.

#[global] Instance has_key_dec p i o : Decision (has_key p i o).
Proof. unfold has_key. apply _. Defined.

#[global] Instance is_int_dec x : Decision (is_int x).
Proof. unfold is_int. apply _. Defined.

#[global] Instance is_long_long_dec x : Decision (is_long_long x).
Proof. unfold is_long_long. apply _. Defined.

#[global] Instance ordered_dec t : Decision (ordered t).
Proof. unfold ordered. apply _. Defined.

#[global] Instance prio_le_dec b t : Decision (prio_le b t).
Proof. destruct t; simpl; apply _. Defined.

#[global] Instance heap_dec t : Decision (heap t).
Proof. induction t; simpl; apply _. Defined.

#[global] Instance size_ok_dec t : Decision (size_ok t).
Proof. induction t; simpl; apply _. Defined.

#[global] Instance treap_inv_dec t : Decision (treap_inv t).
Proof. unfold treap_inv. apply _. Defined.

(** ** Reference definitions on lists of orders *)

(** The place [treapInsert] gives a new order among sorted ones: before the
    first order whose key is greater. *)
Fixpoint insert_order (o : Order) (l : list Order) : list Order :=
  match l with
  | [] => [o]
  | e :: l' =>
      if lessThan (o_price o) (o_sequence o) (o_price e) (o_sequence e)
      then o :: e :: l'
      else e :: insert_order o l'
  end.

(** Sorting by ascending [(price, sequence)]: insertion sort. *)
Definition rank_order (l : list Order) : list Order :=
  foldl (fun acc o => insert_order o acc) [] l.

(** The orders a sequence of [add(price, size)] calls creates on a book whose
    counter is [seq]. *)
Fixpoint orders_from (seq : Z) (adds : list (Z * Z)) : list Order :=
  match adds with
  | [] => []
  | (p, q) :: rest => mkOrder p q seq :: orders_from (seq + 1) rest
  end.

(** The resting orders of a book, best first. *)
Definition resting {RandState : Type} (ob : OrderBook RandState)
  : list Order :=
  inorder (root ob).

(** A quantity within the contract of [add]: a positive [long long]. *)
Definition valid_quantity (o : Order) : Prop := 0 < o_quantity o <= LLONG_MAX.

(** What every reachable book satisfies: the tree invariants, sequence numbers
    below the counter, and no more orders than the counter has handed out. *)
Definition book_inv {RandState : Type} (ob : OrderBook RandState) : Prop :=
  treap_inv (root ob) /\
  Forall (fun o => 0 <= o_sequence o < globalInsertionCounter ob)
         (resting ob) /\
  book_size ob <= globalInsertionCounter ob.

#[global] Instance valid_quantity_dec o : Decision (valid_quantity o).
Proof. unfold valid_quantity. apply _. Defined.

#[global] Instance book_inv_dec {RandState : Type} (ob : OrderBook RandState)
  : Decision (book_inv ob).
Proof. unfold book_inv. apply _. Defined.

(** The books a client can bring about: from the empty book by [add] (with
    arguments of the parameter types, while the counter is below [INT_MAX]),
    [removeByPosition] and [buy]. *)
Inductive reachable {RandState : Type} (rand : RandState -> Z * RandState)
          (srand : Z -> RandState) : OrderBook RandState -> Prop :=
| reach_new : reachable rand srand (new_OrderBook srand)
| reach_add ob p q :
    reachable rand srand ob -> is_int p -> is_long_long q ->
    globalInsertionCounter ob < INT_MAX ->
    reachable rand srand (add rand ob p q)
| reach_remove ob pos :
    reachable rand srand ob -> is_int pos ->
    reachable rand srand (removeByPosition ob pos)
| reach_buy ob fuel shares ob' cost :
    reachable rand srand ob -> buy fuel ob shares = Some (ob', cost) ->
    reachable rand srand ob'.

(** An order with its remaining quantity replaced. *)
Definition set_quantity (v : Z) (o : Order) : Order :=
  mkOrder (o_price o) v (o_sequence o).

Definition total_quantity (l : list Order) : Z :=
  foldr (fun o acc => o_quantity o + acc) 0 l.

Definition total_value (l : list Order) : Z :=
  foldr (fun o acc => o_price o * o_quantity o + acc) 0 l.

(** The naive walk of the round-trip check: go through the orders in the given
    order, take [min(q, quantity)] units of each while units are still wanted,
    and sum [price * units], in exact integers. *)
Fixpoint reference_cost (l : list Order) (q : Z) : Z :=
  match l with
  | [] => 0
  | o :: rest =>
      if 0 <? q then
        let units := Z.min q (o_quantity o) in
        o_price o * units + reference_cost rest (q - units)
      else 0
  end.

(** The loop of [buy] seen on the list of resting orders. *)
Fixpoint walk (l : list Order) (shares cost : Z) : list Order * Z :=
  match l with
  | [] => ([], cost)
  | o :: rest =>
      if 0 <? shares then
        let canFill := Z.min shares (o_quantity o) in
        let cost' := add64 cost (mul64 canFill (o_price o)) in
        let ts' := sub64 (o_quantity o) canFill in
        let shares' := sub64 shares canFill in
        if ts' =? 0 then walk rest shares' cost'
        else (set_quantity ts' o :: rest, cost')
      else (l, cost)
  end.

(** Removal as the design document words it, through [split]: cut the tree
    after the key, cut the left part just before the key, and [merge] what is
    left of the key with what is right of it. *)
Definition removeKey_by_split (t : TreapNode) (price ins : Z) : TreapNode :=
  let (le_key, gt_key) := treapSplit t price ins in
  let (lt_key, _) := treapSplit le_key price (ins - 1) in
  treapMerge lt_key gt_key.

(** ** A concrete generator, for closed examples *)

(** The linear congruential generator of the C standard's sample [rand]. *)
Definition lcg_rand (s : Z) : Z * Z :=
  let s' := (s * 1103515245 + 12345) mod 2 ^ 31 in
  (s' / 65536 mod 32768, s').

Definition lcg_srand (seed : Z) : Z := seed mod 2 ^ 31.

Definition lcg_book : OrderBook Z := new_OrderBook lcg_srand.

Definition lcg_add (ob : OrderBook Z) (price size : Z) : OrderBook Z :=
  add lcg_rand ob price size.

(** Three resting orders: [(7, 4)] added last and ranked first, then the two
    orders at price 10 in the order they came. *)
Definition example_book : OrderBook Z :=
  lcg_add (lcg_add (lcg_add lcg_book 10 5) 10 3) 7 4.

(** A treap whose three priorities tie: a right spine with keys
    [(1, 0)], [(2, 1)], [(3, 2)], as three [add] calls with rising prices
    leave it when the generator repeats itself. *)
Definition tied_treap : TreapNode :=
  node 1 1 0 5 3 null (node 2 1 1 5 2 null (node 3 1 2 5 1 null null)).

(** ** Auxiliary definitions for the proofs *)

(** [treapInsert] with the priority of the new node already drawn. *)
Fixpoint insert_with (prio : Z) (root : TreapNode) (price sz ins_id : Z)
  : TreapNode :=
  match root with
  | null => node price sz ins_id prio 1 null null
  | node rp rs ri rpr rsz l r =>
      if lessThan price ins_id rp ri then
        let l' := insert_with prio l price sz ins_id in
        let root1 := node rp rs ri rpr rsz l' r in
        updateSize (if priority_of l' >? rpr then rotateRight root1 else root1)
      else
        let r' := insert_with prio r price sz ins_id in
        let root1 := node rp rs ri rpr rsz l r' in
        updateSize (if priority_of r' >? rpr then rotateLeft root1 else root1)
  end.

(** Both children of the root have priority at most [b]. *)
Definition children_le (b : Z) (t : TreapNode) : Prop :=
  match t with
  | null => True
  | node _ _ _ _ _ l r => prio_le b l /\ prio_le b r
  end.

(** The book [buy] leaves when every order was consumed. *)
Definition emptied {RandState : Type} (ob : OrderBook RandState)
  : OrderBook RandState :=
  mkOrderBook null (globalInsertionCounter ob) (rand_state ob).

(** * The rest of [OrderBook.cpp]: [buyFinal], [main] and [FastIO] *)

(** The children of a node. *)
Definition left_of (n : TreapNode) : TreapNode :=
  match n with
  | null => null
  | node _ _ _ _ _ l _ => l
  end.

Definition right_of (n : TreapNode) : TreapNode :=
  match n with
  | null => null
  | node _ _ _ _ _ _ r => r
  end.

(** [buyFinal()]: [buy(1000)]. *)
Definition buyFinal {RandState : Type} (fuel : nat)
  (ob : OrderBook RandState) : option (OrderBook RandState * Z) :=
  buy fuel ob 1000.


(** ** The command loop of [main] *)

(** What one iteration of the [for] loop of [main] reads: the command
    character [cin >> c] extracted and the numbers extracted after it.
    Extraction itself is the standard library's and is not modelled: a
    command carries the values the variables hold when the branch runs,
    whatever the extraction made of the text. The end of the list is the
    iteration at which [cin.good()] fails. *)
Inductive Command : Type :=
| CmdAdd (price sz : Z)
| CmdRemove (pos : Z)
| CmdBuy (sz : Z)
| CmdOther.

Definition NUM_ENTRIES : Z := 1000000.

(** The numbers of a command have the types they were read into:
    [long long price, sz], [int pos], [long long sz]. *)
Definition cmd_typed (c : Command) : Prop :=
  match c with
  | CmdAdd price sz => is_long_long price /\ is_long_long sz
  | CmdRemove pos => is_int pos
  | CmdBuy sz => is_long_long sz
  | CmdOther => True
  end.

(** The sizes of the orders a command adds are positive. *)
Definition cmd_adds_valid (c : Command) : Prop :=
  match c with
  | CmdAdd _ sz => 0 < sz
  | _ => True
  end.

#[global] Instance cmd_typed_dec c : Decision (cmd_typed c).
Proof. destruct c; simpl; apply _. Defined.

#[global] Instance cmd_adds_valid_dec c : Decision (cmd_adds_valid c).
Proof. destruct c; simpl; apply _. Defined.

Section MainWithRand.

Context {RandState : Type}.
Variable rand : RandState -> Z * RandState.
Variable srand : Z -> RandState.

(** The body of the loop: ['+'] adds with the price cast to [int], ['-']
    removes by position, ['='] buys and drops the cost, any other character
    is ignored. *)
Definition execute (fuel : nat) (ob : OrderBook RandState) (c : Command)
  : option (OrderBook RandState) :=
  match c with
  | CmdAdd price sz => Some (add rand ob (wrap 32 price) sz)
  | CmdRemove pos => Some (removeByPosition ob pos)
  | CmdBuy sz =>
      match buy fuel ob sz with
      | Some (ob', _) => Some ob'
      | None => None
      end
  | CmdOther => Some ob
  end.

(** [for (int i = 0; i < NUM_ENTRIES; i++)], left early when the input
    ends. *)
Fixpoint main_loop (fuel : nat) (i : Z) (cmds : list Command)
  (ob : OrderBook RandState) : option (OrderBook RandState) :=
  match cmds with
  | [] => Some ob
  | c :: rest =>
      if i <? NUM_ENTRIES then
        match execute fuel ob c with
        | Some ob' => main_loop fuel (i + 1) rest ob'
        | None => None
        end
      else Some ob
  end.

(** [main]: the number it prints. *)
Definition main (fuel : nat) (cmds : list Command) : option Z :=
  match main_loop fuel 0 cmds (new_OrderBook srand) with
  | Some ob =>
      match buyFinal fuel ob with
      | Some (_, cost) => Some cost
      | None => None
      end
  | None => None
  end.

End MainWithRand.

(** Orders as a well-formed command stream leaves them. *)
Definition priced_valid {RandState : Type} (ob : OrderBook RandState)
  : Prop :=
  Forall valid_quantity (resting ob) /\
  Forall (fun o => is_int (o_price o)) (resting ob).

(** ** [class FastIO] *)

(** [BUF_SIZE = 1 << 20]. *)
Definition BUF_SIZE : Z := 2 ^ 20.

(** [EOF], and what [return EOF] gives in a function returning [char]
    (a signed [char], as on x86-64). *)
Definition EOF : Z := -1.

(** The reader: the array [inBuf] (as much of it as has ever been written),
    [inPos], [inSize], and for the [FILE*] the characters of the file not yet
    read, as [char] values. *)
Record FastIO : Type := mkFastIO {
  inBuf : list Z;
  inPos : Z;
  inSize : Z;
  f : list Z
}.

(** [FastIO(FILE* _f)]: [inPos(0), inSize(0), f(_f)]. *)
Definition new_FastIO (file : list Z) : FastIO := mkFastIO [] 0 0 file.

(** [nextChar]: refill the buffer with [fread] when it is used up; [fread]
    stores the characters it read at the start of [inBuf] and returns their
    number, fewer than [BUF_SIZE] only at the end of the file. *)
Definition nextChar (io : FastIO) : Z * FastIO :=
  if inPos io =? inSize io then
    let chunk := take (Z.to_nat BUF_SIZE) (f io) in
    let buf := chunk ++ drop (length chunk) (inBuf io) in
    let rest := drop (Z.to_nat BUF_SIZE) (f io) in
    let n := Z.of_nat (length chunk) in
    if n =? 0 then (EOF, mkFastIO buf 0 n rest)
    else (nth 0 buf 0, mkFastIO buf (add32 0 1) n rest)
  else
    (nth (Z.to_nat (inPos io)) (inBuf io) 0,
     mkFastIO (inBuf io) (add32 (inPos io) 1) (inSize io) (f io)).

(** [isspace((unsigned char)c)] in the "C" locale, the only one the program
    runs in: space, and [\t \n \v \f \r]. *)
Definition isspace (c : Z) : bool :=
  let u := c mod 256 in (u =? 32) || ((9 <=? u) && (u <=? 13)).

(** [readChar]: the loop [do c = nextChar() while isspace(c)]; the result is
    the returned flag, the character left in [c], and the reader. *)
Fixpoint readChar (fuel : nat) (io : FastIO) : option (bool * Z * FastIO) :=
  match fuel with
  | O => None
  | S fuel' =>
      let (c, io') := nextChar io in
      if c =? EOF then Some (false, c, io')
      else if isspace c then readChar fuel' io'
      else Some (true, c, io')
  end.

(** The [for] loop of [readInt] over the digits, for a signed type [T] of
    [bits] bits: [val = (T)(val * 10 + (c - '0'))]. *)
Fixpoint read_digits (bits : Z) (fuel : nat) (val c : Z) (io : FastIO)
  : option (Z * FastIO) :=
  if (48 <=? c) && (c <=? 57) then
    match fuel with
    | O => None
    | S fuel' =>
        let val' := wrap bits (val * 10 + (c - 48)) in
        let (c', io') := nextChar io in
        read_digits bits fuel' val' c' io'
    end
  else Some (val, io).

(** [readInt<T>]: the returned flag, [val], and the reader. *)
Definition readInt (bits : Z) (fuel : nat) (io : FastIO)
  : option (bool * Z * FastIO) :=
  match readChar fuel io with
  | None => None
  | Some (false, _, io1) => Some (false, 0, io1)
  | Some (true, c, io1) =>
      let '(neg, c1, io2) :=
        if c =? 45
        then let (c', io') := nextChar io1 in (true, c', io')
        else (false, c, io1) in
      if (c1 <? 48) || (57 <? c1) then Some (false, 0, io2)
      else
        match read_digits bits fuel 0 c1 io2 with
        | None => None
        | Some (val, io3) =>
            Some (true, if neg then wrap bits (- val) else val, io3)
        end
  end.

(** The characters still to come: the unread part of the buffer, then the
    unread part of the file. *)
Definition pending (io : FastIO) : list Z :=
  drop (Z.to_nat (inPos io)) (take (Z.to_nat (inSize io)) (inBuf io)) ++ f io.

(** The reader's invariant. *)
Definition reader_ok (io : FastIO) : Prop :=
  0 <= inPos io <= inSize io /\
  inSize io <= Z.of_nat (length (inBuf io)) /\
  inSize io <= BUF_SIZE.

(** The number a list of decimal digits denotes. *)
Definition digits_value (ds : list Z) : Z :=
  foldl (fun v d => v * 10 + d) 0 ds.

(** [n] calls of [nextChar] in a row: the characters returned, and the
    reader. *)
Fixpoint next_chars (n : nat) (io : FastIO) : list Z * FastIO :=
  match n with
  | O => ([], io)
  | S n' =>
      let (c, io') := nextChar io in
      let (cs, io'') := next_chars n' io' in
      (c :: cs, io'')
  end.

(** A character that ends a number: not a decimal digit. *)
Definition not_digit (c : Z) : Prop := c < 48 \/ 57 < c.

(** The characters after the number: nothing, or a first character that is
    not a digit. *)
Definition ends_number (tail : list Z) : Prop :=
  match tail with
  | [] => True
  | t :: _ => not_digit t
  end.

(** ** Concrete inputs, for closed examples *)

(** A short session: three adds, a cancel, a purchase, a stray character. *)
Definition example_commands : list Command :=
  [CmdAdd 10 5; CmdAdd 10 3; CmdAdd 7 4; CmdRemove 0; CmdBuy 2; CmdOther].

(** The characters of [" -42"], a newline and ["7"]. *)
Definition example_file : list Z := [32; 45; 52; 50; 10; 55].

(** The characters of [" -x2"]: a sign with no digit after it. *)
Definition example_bad_file : list Z := [32; 45; 120; 50].

(** Deciding [size_ok] on a concrete tree. *)
Ltac sizes_by_computation :=
  apply (@bool_decide_unpack _ (size_ok_dec _)); vm_compute; exact I.


(** * Properties *)

(** ** The model at work *)

Example example_book_value :
  example_book =
  mkOrderBook
    (node 7 4 2 973731685 3 null
          (node 10 3 1 895712577 2 (node 10 5 0 234921785 1 null null) null))
    3 2003110913.
Proof. reflexivity. Qed.

Example example_book_ranks :
  resting example_book = [mkOrder 7 4 2; mkOrder 10 5 0; mkOrder 10 3 1] /\
  order_of (getByRank (root example_book) 0) = Some (mkOrder 7 4 2) /\
  order_of (getByRank (root example_book) 2) = Some (mkOrder 10 3 1).
Proof. repeat split; reflexivity. Qed.

(** Four units at 7 and two at 10. *)
Example example_book_buy :
  buy 4 example_book 6 =
  Some (mkOrderBook (node 10 3 1 895712577 2 (node 10 3 0 234921785 1 null null)
                          null) 3 2003110913, 48).
Proof. reflexivity. Qed.

(** Cancelling rank 0 brings the next order to rank 0. *)
Example example_book_cancel :
  order_of (getByRank (root (removeByPosition example_book 0)) 0)
  = Some (mkOrder 10 5 0).
Proof. reflexivity. Qed.

(** ** Machine integers *)

Lemma wrap_id bits x :
  0 < bits -> - 2 ^ (bits - 1) <= x < 2 ^ (bits - 1) -> wrap bits x = x.
Proof.
  intros Hb Hx. unfold wrap.
  assert (E : 2 ^ bits = 2 * 2 ^ (bits - 1)).
  { replace bits with (Z.succ (bits - 1)) at 1 by lia.
    rewrite Z.pow_succ_r; lia. }
  rewrite Z.mod_small; lia.
Qed.

Lemma wrap_add_l bits a b :
  0 < bits -> wrap bits (wrap bits a + b) = wrap bits (a + b).
Proof.
  intros Hb. unfold wrap. f_equal.
  assert (0 < 2 ^ bits) by (apply Z.pow_pos_nonneg; lia).
  replace ((a + 2 ^ (bits - 1)) mod 2 ^ bits - 2 ^ (bits - 1) + b
           + 2 ^ (bits - 1))
    with ((a + 2 ^ (bits - 1)) mod 2 ^ bits + b) by lia.
  rewrite Z.add_mod_idemp_l by lia. f_equal. lia.
Qed.

Lemma wrap_add_r bits a b :
  0 < bits -> wrap bits (a + wrap bits b) = wrap bits (a + b).
Proof.
  intros Hb. rewrite (Z.add_comm a), wrap_add_l by done. f_equal. lia.
Qed.

Lemma add32_exact a b : is_int (a + b) -> add32 a b = a + b.
Proof.
  unfold is_int, INT_MIN, INT_MAX, add32. intros H.
  apply wrap_id; [lia|]. change (32 - 1) with 31. lia.
Qed.

Lemma sub32_exact a b : is_int (a - b) -> sub32 a b = a - b.
Proof.
  unfold is_int, INT_MIN, INT_MAX, sub32. intros H.
  apply wrap_id; [lia|]. change (32 - 1) with 31. lia.
Qed.

Lemma sub64_exact a b : is_long_long (a - b) -> sub64 a b = a - b.
Proof.
  unfold is_long_long, LLONG_MIN, LLONG_MAX, sub64. intros H.
  apply wrap_id; [lia|]. change (64 - 1) with 63. lia.
Qed.

Lemma wrap64_exact x : is_long_long x -> wrap 64 x = x.
Proof.
  unfold is_long_long, LLONG_MIN, LLONG_MAX. intros H.
  apply wrap_id; [lia|]. change (64 - 1) with 63. lia.
Qed.

(** [updateSize] stores the exact size when it fits an [int]. *)
Lemma size_sum_exact a b :
  0 <= a -> 0 <= b -> 1 + a + b <= INT_MAX ->
  add32 (add32 1 a) b = 1 + a + b.
Proof.
  unfold INT_MAX. intros Ha Hb H.
  rewrite (add32_exact 1 a) by (unfold is_int, INT_MIN, INT_MAX; lia).
  apply add32_exact. unfold is_int, INT_MIN, INT_MAX. lia.
Qed.

(** The rank passed to the right subtree. *)
Lemma rank_right_exact rank leftSize :
  is_int rank -> 0 <= leftSize <= rank ->
  sub32 (sub32 rank leftSize) 1 = rank - leftSize - 1.
Proof.
  unfold is_int, INT_MIN, INT_MAX. intros Hr Hl.
  rewrite (sub32_exact rank leftSize)
    by (unfold is_int, INT_MIN, INT_MAX; lia).
  apply sub32_exact. unfold is_int, INT_MIN, INT_MAX. lia.
Qed.

(** ** The order on keys *)

Lemma lessThan_spec p1 i1 p2 i2 :
  lessThan p1 i1 p2 i2 = true <-> key_lt p1 i1 p2 i2.
Proof.
  unfold lessThan, key_lt.
  destruct (Z.eqb_spec p1 p2) as [->|Hne]; simpl.
  - rewrite Z.ltb_lt. lia.
  - rewrite Z.ltb_lt. lia.
Qed.

Lemma lessThan_false p1 i1 p2 i2 :
  lessThan p1 i1 p2 i2 = false <-> key_le p2 i2 p1 i1.
Proof.
  rewrite <- not_true_iff_false, lessThan_spec.
  unfold key_lt, key_le. lia.
Qed.

Lemma key_eq_spec p1 i1 p2 i2 :
  (p1 =? p2) && (i1 =? i2) = true <-> p1 = p2 /\ i1 = i2.
Proof. rewrite andb_true_iff, !Z.eqb_eq. done. Qed.

#[global] Instance order_lt_trans : Transitive order_lt.
Proof. intros a b c. unfold order_lt, key_lt. lia. Qed.

#[global] Instance order_lt_irrefl : Irreflexive order_lt.
Proof. intros a. unfold complement, order_lt, key_lt. lia. Qed.

(** ** Sizes *)

Lemma inorder_updateSize n : inorder (updateSize n) = inorder n.
Proof. by destruct n. Qed.

Lemma order_of_updateSize n : order_of (updateSize n) = order_of n.
Proof. by destruct n. Qed.

Lemma size_ok_count t :
  size_ok t -> getSize t = Z.of_nat (length (inorder t)).
Proof.
  induction t as [|p s i pr sz l IHl r IHr]; simpl; [done|].
  intros (-> & _ & Hl & Hr).
  rewrite IHl, IHr by done.
  rewrite length_app. simpl. lia.
Qed.

Lemma size_ok_nonneg t : size_ok t -> 0 <= getSize t.
Proof. intros H. rewrite (size_ok_count t H). lia. Qed.

Lemma size_ok_int t : size_ok t -> getSize t <= INT_MAX.
Proof. destruct t; simpl; [unfold INT_MAX; lia | tauto]. Qed.

Lemma size_ok_null_iff t : size_ok t -> (getSize t = 0 <-> t = null).
Proof.
  destruct t as [|p s i pr sz l r]; simpl; [done|].
  intros (-> & _ & Hl & Hr).
  pose proof (size_ok_nonneg l Hl). pose proof (size_ok_nonneg r Hr).
  split; [lia | done].
Qed.

(** A node whose children are well sized is well sized after [updateSize],
    as long as the count fits. *)
Lemma size_ok_updateSize p s i pr sz l r :
  size_ok l -> size_ok r -> 1 + getSize l + getSize r <= INT_MAX ->
  size_ok (updateSize (node p s i pr sz l r)) /\
  getSize (updateSize (node p s i pr sz l r)) = 1 + getSize l + getSize r.
Proof.
  intros Hl Hr Hb. simpl.
  rewrite size_sum_exact by auto using size_ok_nonneg. tauto.
Qed.

Lemma updateSize_id' n : updateSize (updateSize n) = updateSize n.
Proof. by destruct n. Qed.

(** On a well sized node [updateSize] changes nothing. *)
Lemma updateSize_id t : size_ok t -> updateSize t = t.
Proof.
  destruct t as [|p s i pr sz l r]; simpl; [done|].
  intros (E & Hb & Hl & Hr).
  rewrite size_sum_exact by (auto using size_ok_nonneg; lia).
  by rewrite <- E.
Qed.

(** ** Rank lookup *)

Lemma lookup_inorder_node (l1 l2 : list Order) (x : Order) (k : Z) :
  Z.of_nat (length l1) < k ->
  (l1 ++ x :: l2) !! Z.to_nat k = l2 !! Z.to_nat (k - Z.of_nat (length l1) - 1).
Proof.
  intros Hk.
  rewrite lookup_app_r by lia.
  replace (Z.to_nat k - length l1)%nat
    with (S (Z.to_nat (k - Z.of_nat (length l1) - 1))) by lia.
  done.
Qed.

(** Below rank 0 there is nothing: the search runs down the left spine. *)
Lemma getByRank_negative t rank :
  size_ok t -> rank < 0 -> getByRank t rank = null.
Proof.
  induction t as [|p s i pr sz l IHl r IHr]; simpl; [done|].
  intros (_ & _ & Hl & _) Hneg.
  pose proof (size_ok_nonneg l Hl).
  destruct (Z.ltb_spec rank (getSize l)); [auto | lia].
Qed.

(** From rank 0 upwards [getByRank] reads the in-order sequence. *)
Lemma getByRank_lookup t : forall rank,
  size_ok t -> is_int rank -> 0 <= rank ->
  order_of (getByRank t rank) = inorder t !! Z.to_nat rank.
Proof.
  induction t as [|p s i pr sz l IHl r IHr]; intros rank Hok Hint Hpos;
    simpl; [done|].
  destruct Hok as (_ & _ & Hl & Hr).
  pose proof (size_ok_count l Hl) as El.
  destruct (Z.ltb_spec rank (getSize l)) as [Hlt|Hge].
  - rewrite IHl by done. rewrite lookup_app_l by lia. done.
  - destruct (Z.eqb_spec rank (getSize l)) as [Heq|Hne].
    + simpl. rewrite Heq, El, Nat2Z.id.
      by rewrite list_lookup_middle.
    + rewrite rank_right_exact by (assumption || lia).
      rewrite IHr; [|done|unfold is_int, INT_MIN in *; lia|lia].
      rewrite lookup_inorder_node by lia. by rewrite El.
Qed.

Lemma getByRank_out_of_range t rank :
  size_ok t -> is_int rank -> rank < 0 \/ getSize t <= rank ->
  getByRank t rank = null.
Proof.
  intros Hok Hint [Hneg|Hge]; [by apply getByRank_negative|].
  pose proof (size_ok_nonneg t Hok).
  pose proof (getByRank_lookup t rank Hok Hint ltac:(lia)) as E.
  rewrite lookup_ge_None_2 in E
    by (rewrite (size_ok_count t Hok) in Hge; lia).
  by destruct (getByRank t rank).
Qed.

(** ** Merge *)

Lemma treapMerge_null_r L : treapMerge L null = L.
Proof. by destruct L. Qed.

Lemma treapMerge_node lp ls li lpr lsz ll lr rp rs ri rpr rsz rl rr :
  treapMerge (node lp ls li lpr lsz ll lr) (node rp rs ri rpr rsz rl rr) =
  if lpr >? rpr
  then updateSize
         (node lp ls li lpr lsz ll
               (treapMerge lr (node rp rs ri rpr rsz rl rr)))
  else updateSize
         (node rp rs ri rpr rsz
               (treapMerge (node lp ls li lpr lsz ll lr) rl) rr).
Proof. reflexivity. Qed.

(** Induction on both arguments of [treapMerge], along its recursion. *)
Lemma treapMerge_ind (P : TreapNode -> TreapNode -> TreapNode -> Prop) :
  (forall R, P null R R) ->
  (forall L, P L null L) ->
  (forall lp ls li lpr lsz ll lr rp rs ri rpr rsz rl rr,
      let L := node lp ls li lpr lsz ll lr in
      let R := node rp rs ri rpr rsz rl rr in
      P lr R (treapMerge lr R) ->
      P L rl (treapMerge L rl) ->
      P L R (if lpr >? rpr
             then updateSize (node lp ls li lpr lsz ll (treapMerge lr R))
             else updateSize (node rp rs ri rpr rsz (treapMerge L rl) rr))) ->
  forall L R, P L R (treapMerge L R).
Proof.
  intros Hnl Hnr Hstep.
  induction L as [|lp ls li lpr lsz ll IHll lr IHlr]; intros R.
  - apply Hnl.
  - induction R as [|rp rs ri rpr rsz rl IHrl rr IHrr].
    + rewrite treapMerge_null_r. apply Hnr.
    + rewrite treapMerge_node. apply Hstep; [apply IHlr | apply IHrl].
Qed.

Lemma inorder_treapMerge L R :
  inorder (treapMerge L R) = inorder L ++ inorder R.
Proof.
  apply (treapMerge_ind (fun L R M => inorder M = inorder L ++ inorder R)).
  - done.
  - intros. by rewrite app_nil_r.
  - intros lp ls li lpr lsz ll lr rp rs ri rpr rsz rl rr L' R' IH1 IH2.
    subst L' R'.
    destruct (lpr >? rpr); rewrite inorder_updateSize; cbn [inorder].
    + rewrite IH1. cbn [inorder]. by rewrite <- app_assoc.
    + rewrite IH2. cbn [inorder]. by rewrite <- !app_assoc.
Qed.

Lemma size_ok_treapMerge L R :
  size_ok L -> size_ok R -> getSize L + getSize R <= INT_MAX ->
  size_ok (treapMerge L R) /\
  getSize (treapMerge L R) = getSize L + getSize R.
Proof.
  apply (treapMerge_ind (fun L R M =>
    size_ok L -> size_ok R -> getSize L + getSize R <= INT_MAX ->
    size_ok M /\ getSize M = getSize L + getSize R)).
  - intros R' _ HR _. simpl. split; [done | lia].
  - intros L' HL _ _. simpl. split; [done | lia].
  - intros lp ls li lpr lsz ll lr rp rs ri rpr rsz rl rr L' R' IH1 IH2
           HL HR Hb.
    pose proof HL as (EL & _ & Hll & Hlr).
    pose proof HR as (ER & _ & Hrl & Hrr).
    pose proof (size_ok_nonneg ll Hll). pose proof (size_ok_nonneg lr Hlr).
    pose proof (size_ok_nonneg rl Hrl). pose proof (size_ok_nonneg rr Hrr).
    subst L' R'. cbn [getSize] in Hb, IH1, IH2 |- *.
    destruct (lpr >? rpr).
    + destruct IH1 as [IHa IHb]; [done|done|lia|].
      destruct (size_ok_updateSize lp ls li lpr lsz ll
                  (treapMerge lr (node rp rs ri rpr rsz rl rr)))
        as [Hs Hg]; [done|done|lia|].
      split; [done|]. rewrite Hg, IHb. lia.
    + destruct IH2 as [IHa IHb]; [done|done|lia|].
      destruct (size_ok_updateSize rp rs ri rpr rsz
                  (treapMerge (node lp ls li lpr lsz ll lr) rl) rr)
        as [Hs Hg]; [done|done|lia|].
      split; [done|]. rewrite Hg, IHb. lia.
Qed.

Lemma prio_le_updateSize b n : prio_le b (updateSize n) <-> prio_le b n.
Proof. by destruct n. Qed.

Lemma heap_updateSize_node p s i pr sz l r :
  heap (updateSize (node p s i pr sz l r)) <-> heap (node p s i pr sz l r).
Proof. done. Qed.

Lemma prio_le_mono b b' t : b <= b' -> prio_le b t -> prio_le b' t.
Proof. destruct t; simpl; [done | lia]. Qed.

Lemma heap_treapMerge L R :
  heap L -> heap R ->
  heap (treapMerge L R) /\
  (forall b, prio_le b L -> prio_le b R -> prio_le b (treapMerge L R)).
Proof.
  apply (treapMerge_ind (fun L R M =>
    heap L -> heap R ->
    heap M /\ (forall b, prio_le b L -> prio_le b R -> prio_le b M))).
  - intros R' _ HR. split; [done | auto].
  - intros L' HL _. split; [done | auto].
  - intros lp ls li lpr lsz ll lr rp rs ri rpr rsz rl rr L' R' IH1 IH2
           HL HR.
    pose proof HL as (Pll & Plr & Hll & Hlr).
    pose proof HR as (Prl & Prr & Hrl & Hrr).
    subst L' R'.
    destruct (Z.gtb_spec lpr rpr) as [Hgt|Hle].
    + destruct IH1 as [IHa IHb]; [done|done|].
      split; [|intros b Hb _; exact Hb].
      apply heap_updateSize_node. simpl. repeat split; try done.
      apply IHb; [done | simpl; lia].
    + destruct IH2 as [IHa IHb]; [done|done|].
      split; [|intros b _ Hb; exact Hb].
      apply heap_updateSize_node. simpl. repeat split; try done.
      apply IHb; [simpl; lia | done].
Qed.

(** ** Lists: deleting and sorted sublists *)

Lemma delete_app_lt {A} (l1 l2 : list A) (i : nat) :
  (i < length l1)%nat -> delete i (l1 ++ l2) = delete i l1 ++ l2.
Proof.
  revert i. induction l1 as [|x l1 IH]; intros [|i] H; simpl in *;
    try lia; [done|].
  change (x :: delete i (l1 ++ l2) = x :: delete i l1 ++ l2).
  rewrite IH by lia. done.
Qed.

Lemma delete_app_ge {A} (l1 l2 : list A) (i : nat) :
  (length l1 <= i)%nat ->
  delete i (l1 ++ l2) = l1 ++ delete (i - length l1)%nat l2.
Proof.
  revert i. induction l1 as [|x l1 IH]; intros i H; simpl in *.
  - by rewrite Nat.sub_0_r.
  - destruct i as [|i]; [lia|].
    change (x :: delete i (l1 ++ l2) = x :: l1 ++ delete (i - length l1)%nat l2).
    rewrite IH by lia. done.
Qed.

Lemma delete_inorder_node (l1 l2 : list Order) (x : Order) (k : Z) :
  Z.of_nat (length l1) < k ->
  delete (Z.to_nat k) (l1 ++ x :: l2) =
  l1 ++ x :: delete (Z.to_nat (k - Z.of_nat (length l1) - 1)) l2.
Proof.
  intros Hk. rewrite delete_app_ge by lia.
  replace (Z.to_nat k - length l1)%nat
    with (S (Z.to_nat (k - Z.of_nat (length l1) - 1))) by lia.
  done.
Qed.

Lemma StronglySorted_sublist {A} (R : relation A) (l1 l2 : list A) :
  l1 `sublist_of` l2 -> StronglySorted R l2 -> StronglySorted R l1.
Proof.
  induction 1 as [|x l1 l2 Hsub IH|x l1 l2 Hsub IH]; intros Hs.
  - done.
  - apply StronglySorted_cons in Hs as [Hall Hs].
    apply StronglySorted_cons. split; [|auto].
    apply Forall_forall. intros y Hy.
    apply (proj1 (Forall_forall _ _) Hall).
    by apply (elem_of_sublist l1 l2).
  - apply StronglySorted_cons in Hs as [_ Hs]. auto.
Qed.

Lemma ordered_node p s i pr sz l r :
  ordered (node p s i pr sz l r) <->
  ordered l /\ ordered r /\
  Forall (fun o => order_lt o (mkOrder p s i)) (inorder l) /\
  Forall (order_lt (mkOrder p s i)) (inorder r).
Proof.
  unfold ordered. simpl.
  rewrite StronglySorted_app, StronglySorted_cons, !Forall_forall.
  split.
  - intros (Hlr & Hl & Hr1 & Hr). repeat split; try done.
    intros o Ho. apply Hlr; [done|]. apply elem_of_cons. by left.
  - intros (Hl & Hr & Hlt & Hgt). repeat split; try done.
    intros x1 x2 H1 H2. apply elem_of_cons in H2 as [->|H2]; [auto|].
    etrans; [apply Hlt | apply Hgt]; done.
Qed.

(** ** Removal by rank *)

(** A rank outside [0, size) removes nothing: the tree comes back as it was. *)
Lemma removeByRank_out_of_range t : forall rank,
  size_ok t -> is_int rank -> rank < 0 \/ getSize t <= rank ->
  removeByRank t rank = t.
Proof.
  induction t as [|p s i pr sz l IHl r IHr]; intros rank Hok Hint Hout;
    simpl; [done|].
  pose proof Hok as (E & Hb & Hl & Hr).
  pose proof (size_ok_nonneg l Hl). pose proof (size_ok_nonneg r Hr).
  simpl in Hout.
  destruct (Z.ltb_spec rank (getSize l)) as [Hlt|Hge].
  - rewrite IHl; [|done|done|lia]. by apply (updateSize_id (node _ _ _ _ _ _ _)).
  - destruct (Z.eqb_spec rank (getSize l)) as [Heq|Hne]; [lia|].
    rewrite rank_right_exact by (assumption || lia).
    rewrite IHr; [|done|unfold is_int, INT_MIN in *; lia|lia].
    by apply (updateSize_id (node _ _ _ _ _ _ _)).
Qed.

(** A rank inside [0, size) removes the order of that rank and no other. *)
Lemma removeByRank_in_range t : forall rank,
  size_ok t -> 0 <= rank < getSize t ->
  inorder (removeByRank t rank) = delete (Z.to_nat rank) (inorder t) /\
  size_ok (removeByRank t rank) /\
  getSize (removeByRank t rank) = getSize t - 1.
Proof.
  induction t as [|p s i pr sz l IHl r IHr]; intros rank Hok Hin;
    simpl in *; [lia|].
  destruct Hok as (E & Hb & Hl & Hr).
  pose proof (size_ok_nonneg l Hl). pose proof (size_ok_nonneg r Hr).
  pose proof (size_ok_count l Hl) as El.
  destruct (Z.ltb_spec rank (getSize l)) as [Hlt|Hge].
  - destruct (IHl rank) as (Hi & Hs & Hg); [done|lia|].
    cbn [updateSize inorder size_ok getSize].
    rewrite size_sum_exact; rewrite ?Hg; try lia.
    rewrite Hi, delete_app_lt by lia. repeat split; try done; lia.
  - destruct (Z.eqb_spec rank (getSize l)) as [Heq|Hne].
    + destruct (size_ok_treapMerge l r) as [Hs Hg]; [done|done|lia|].
      rewrite inorder_treapMerge, Heq, El, Nat2Z.id, delete_middle.
      repeat split; [done|]. rewrite El in Hg. lia.
    + assert (is_int rank) by (unfold is_int, INT_MIN in *; lia).
      rewrite rank_right_exact by (assumption || lia).
      destruct (IHr (rank - getSize l - 1)) as (Hi & Hs & Hg); [done|lia|].
      cbn [updateSize inorder size_ok getSize].
      rewrite size_sum_exact; rewrite ?Hg; try lia.
      rewrite Hi, delete_inorder_node by lia. rewrite <- El.
      repeat split; try done; lia.
Qed.

Lemma heap_removeByRank t : forall rank,
  heap t ->
  heap (removeByRank t rank) /\
  (forall b, prio_le b t -> prio_le b (removeByRank t rank)).
Proof.
  induction t as [|p s i pr sz l IHl r IHr]; intros rank Hh; [done|].
  destruct Hh as (Pl & Pr & Hl & Hr). cbn [removeByRank].
  destruct (rank <? getSize l).
  - destruct (IHl rank Hl) as [Ha Hb].
    split; [|done]. apply heap_updateSize_node. simpl. auto.
  - destruct (rank =? getSize l).
    + destruct (heap_treapMerge l r Hl Hr) as [Ha Hb].
      split; [done|]. intros b Hbp. simpl in Hbp.
      apply Hb; eapply prio_le_mono; eauto.
    + destruct (IHr (sub32 (sub32 rank (getSize l)) 1) Hr) as [Ha Hb].
      split; [|done]. apply heap_updateSize_node. simpl. auto.
Qed.

Lemma ordered_removeByRank t rank :
  size_ok t -> is_int rank -> ordered t -> ordered (removeByRank t rank).
Proof.
  intros Hok Hint Hord.
  destruct (decide (0 <= rank < getSize t)) as [Hin|Hout].
  - destruct (removeByRank_in_range t rank Hok Hin) as (Hi & _ & _).
    unfold ordered. rewrite Hi.
    eapply StronglySorted_sublist; [apply sublist_delete | done].
  - rewrite removeByRank_out_of_range by (assumption || lia). done.
Qed.

Lemma size_ok_removeByRank t rank :
  size_ok t -> is_int rank -> size_ok (removeByRank t rank).
Proof.
  intros Hok Hint.
  destruct (decide (0 <= rank < getSize t)) as [Hin|Hout].
  - by apply removeByRank_in_range.
  - rewrite removeByRank_out_of_range by (assumption || lia). done.
Qed.

(** ** The write through [top] *)

Lemma getSize_storeSizeShares t rank v :
  getSize (storeSizeShares t rank v) = getSize t.
Proof.
  destruct t as [|p s i pr sz l r]; simpl; [done|].
  destruct (rank <? getSize l); [done|]. by destruct (rank =? getSize l).
Qed.

Lemma priority_of_storeSizeShares t rank v :
  priority_of (storeSizeShares t rank v) = priority_of t.
Proof.
  destruct t as [|p s i pr sz l r]; simpl; [done|].
  destruct (rank <? getSize l); [done|]. by destruct (rank =? getSize l).
Qed.

Lemma prio_le_storeSizeShares b t rank v :
  prio_le b (storeSizeShares t rank v) <-> prio_le b t.
Proof.
  destruct t as [|p s i pr sz l r]; simpl; [done|].
  destruct (rank <? getSize l); [done|]. by destruct (rank =? getSize l).
Qed.

Lemma size_ok_storeSizeShares t : forall rank v,
  size_ok t -> size_ok (storeSizeShares t rank v).
Proof.
  induction t as [|p s i pr sz l IHl r IHr]; intros rank v Hok; [done|].
  destruct Hok as (E & Hb & Hl & Hr). cbn [storeSizeShares].
  destruct (rank <? getSize l); [|destruct (rank =? getSize l)];
    cbn [size_ok]; rewrite ?getSize_storeSizeShares; auto.
Qed.

Lemma heap_storeSizeShares t : forall rank v,
  heap t -> heap (storeSizeShares t rank v).
Proof.
  induction t as [|p s i pr sz l IHl r IHr]; intros rank v Hh; [done|].
  destruct Hh as (Pl & Pr & Hl & Hr). cbn [storeSizeShares].
  destruct (rank <? getSize l); [|destruct (rank =? getSize l)];
    cbn [heap]; rewrite ?prio_le_storeSizeShares; auto.
Qed.

(** The node written is the node [getByRank] designates. *)
Lemma getByRank_storeSizeShares t : forall rank v,
  order_of (getByRank (storeSizeShares t rank v) rank) =
  set_quantity v <$> order_of (getByRank t rank).
Proof.
  induction t as [|p s i pr sz l IHl r IHr]; intros rank v; [done|].
  cbn [storeSizeShares getByRank].
  destruct (rank <? getSize l) eqn:E1.
  - cbn [getByRank]. rewrite getSize_storeSizeShares, E1. apply IHl.
  - destruct (rank =? getSize l) eqn:E2.
    + cbn [getByRank]. by rewrite E1, E2.
    + cbn [getByRank]. rewrite E1, E2. apply IHr.
Qed.

Lemma alter_inorder_node (f : Order -> Order) (l1 l2 : list Order)
      (x : Order) (k : Z) :
  Z.of_nat (length l1) < k ->
  alter f (Z.to_nat k) (l1 ++ x :: l2) =
  l1 ++ x :: alter f (Z.to_nat (k - Z.of_nat (length l1) - 1)) l2.
Proof.
  intros Hk.
  replace (Z.to_nat k)
    with (length l1 + S (Z.to_nat (k - Z.of_nat (length l1) - 1)))%nat
    by lia.
  by rewrite alter_app_r.
Qed.

Lemma alter_middle {A} (f : A -> A) (l1 l2 : list A) (x : A) :
  alter f (length l1) (l1 ++ x :: l2) = l1 ++ f x :: l2.
Proof. induction l1 as [|y l1 IH]; simpl; [done|]. by f_equal. Qed.

(** Only the quantity of the order of that rank changes, and only from rank 0
    upwards. *)
Lemma inorder_storeSizeShares t : forall rank v,
  size_ok t -> is_int rank -> 0 <= rank ->
  inorder (storeSizeShares t rank v) =
  alter (set_quantity v) (Z.to_nat rank) (inorder t).
Proof.
  induction t as [|p s i pr sz l IHl r IHr]; intros rank v Hok Hint Hpos;
    [done|].
  destruct Hok as (_ & _ & Hl & Hr).
  pose proof (size_ok_count l Hl) as El.
  cbn [storeSizeShares].
  destruct (Z.ltb_spec rank (getSize l)) as [Hlt|Hge]; cbn [inorder].
  - rewrite IHl by done. by rewrite alter_app_l by lia.
  - destruct (Z.eqb_spec rank (getSize l)) as [Heq|Hne]; cbn [inorder].
    + by rewrite Heq, El, Nat2Z.id, alter_middle.
    + rewrite rank_right_exact by (assumption || lia).
      rewrite IHr; [|done|unfold is_int, INT_MIN in *; lia|lia].
      rewrite alter_inorder_node by lia. by rewrite El.
Qed.

Lemma storeSizeShares_negative t : forall rank v,
  size_ok t -> rank < 0 -> storeSizeShares t rank v = t.
Proof.
  induction t as [|p s i pr sz l IHl r IHr]; intros rank v Hok Hneg;
    simpl; [done|].
  destruct Hok as (_ & _ & Hl & _).
  pose proof (size_ok_nonneg l Hl).
  destruct (Z.ltb_spec rank (getSize l)); [|lia]. by rewrite IHl.
Qed.

Lemma order_lt_set_quantity_l v a b : order_lt (set_quantity v a) b <-> order_lt a b.
Proof. done. Qed.

Lemma order_lt_set_quantity_r v a b : order_lt a (set_quantity v b) <-> order_lt a b.
Proof. done. Qed.

Lemma StronglySorted_alter_quantity v (l : list Order) : forall n,
  StronglySorted order_lt l ->
  StronglySorted order_lt (alter (set_quantity v) n l).
Proof.
  induction l as [|x l IH]; intros n Hs; [done|].
  apply StronglySorted_cons in Hs as [Hall Hs].
  destruct n as [|n].
  - change (StronglySorted order_lt (set_quantity v x :: l)).
    apply StronglySorted_cons. split; [|done].
    eapply Forall_impl; [exact Hall|].
    intros y Hy. by apply order_lt_set_quantity_l.
  - change (StronglySorted order_lt (x :: alter (set_quantity v) n l)).
    apply StronglySorted_cons. split; [|by apply IH].
    apply Forall_alter; [done|].
    intros y _ Hy. by apply order_lt_set_quantity_r.
Qed.

Lemma ordered_storeSizeShares t rank v :
  size_ok t -> is_int rank -> ordered t -> ordered (storeSizeShares t rank v).
Proof.
  intros Hok Hint Hord.
  destruct (decide (0 <= rank)) as [Hpos|Hneg].
  - unfold ordered. rewrite inorder_storeSizeShares by done.
    by apply StronglySorted_alter_quantity.
  - rewrite storeSizeShares_negative by (assumption || lia). done.
Qed.

(** ** Sorted insertion on lists *)

Lemma insert_order_app_lt o l1 x l2 :
  lessThan (o_price o) (o_sequence o) (o_price x) (o_sequence x) = true ->
  insert_order o (l1 ++ x :: l2) = insert_order o l1 ++ x :: l2.
Proof.
  intros Hlt. induction l1 as [|e l1 IH]; simpl.
  - by rewrite Hlt.
  - destruct (lessThan _ _ (o_price e) _); [done|]. by rewrite IH.
Qed.

Lemma insert_order_app_ge o l1 x l2 :
  Forall (fun e => order_lt e x) l1 ->
  lessThan (o_price o) (o_sequence o) (o_price x) (o_sequence x) = false ->
  insert_order o (l1 ++ x :: l2) = l1 ++ x :: insert_order o l2.
Proof.
  intros Hall Hge. induction Hall as [|e l1 He Hall IH]; simpl.
  - by rewrite Hge.
  - rewrite IH.
    destruct (lessThan _ _ (o_price e) _) eqn:E; [|done].
    apply lessThan_spec in E. apply lessThan_false in Hge.
    unfold order_lt, key_lt, key_le in *. lia.
Qed.

Lemma insert_order_perm o l : insert_order o l ≡ₚ o :: l.
Proof.
  induction l as [|e l IH]; simpl; [done|].
  destruct (lessThan _ _ _ _); [done|].
  rewrite IH. apply Permutation_swap.
Qed.

Lemma length_insert_order o l : length (insert_order o l) = S (length l).
Proof. by rewrite (Permutation_length (insert_order_perm o l)). Qed.

(** Inserting an order whose key is new keeps the keys strictly increasing. *)
Lemma StronglySorted_insert_order o l :
  Forall (fun e => ~ has_key (o_price o) (o_sequence o) e) l ->
  StronglySorted order_lt l -> StronglySorted order_lt (insert_order o l).
Proof.
  intros Hfresh Hs. induction l as [|e l IH]; simpl.
  - repeat constructor.
  - apply StronglySorted_cons in Hs as [Hall Hs].
    apply Forall_cons in Hfresh as [Hne Hfresh].
    destruct (lessThan _ _ _ _) eqn:E.
    + apply lessThan_spec in E.
      apply StronglySorted_cons. split; [|by apply StronglySorted_cons].
      apply Forall_cons. split; [done|].
      eapply Forall_impl; [exact Hall|]. intros y Hy. by etrans.
    + apply lessThan_false in E.
      apply StronglySorted_cons. split; [|auto].
      rewrite (insert_order_perm o l). apply Forall_cons. split; [|done].
      unfold has_key, order_lt, key_lt, key_le in *. lia.
Qed.

Lemma rank_order_snoc l o :
  rank_order (l ++ [o]) = insert_order o (rank_order l).
Proof. unfold rank_order. by rewrite foldl_app. Qed.

Lemma rank_order_perm l : rank_order l ≡ₚ l.
Proof.
  induction l as [|o l IH] using rev_ind; [done|].
  rewrite rank_order_snoc, insert_order_perm, IH.
  by rewrite Permutation_app_comm.
Qed.

(** ** Insertion *)

Lemma inorder_rotateRight y : inorder (rotateRight y) = inorder y.
Proof.
  destruct y as [|yp ys yi ypr ysz [|xp xs xi xpr xsz xl T2] yr]; try done.
  simpl. by rewrite <- app_assoc.
Qed.

Lemma inorder_rotateLeft x : inorder (rotateLeft x) = inorder x.
Proof.
  destruct x as [|xp xs xi xpr xsz xl [|yp ys yi ypr ysz T2 yr]]; try done.
  simpl. by rewrite <- app_assoc.
Qed.

Lemma insert_with_not_null prio t p s i : insert_with prio t p s i <> null.
Proof.
  destruct t as [|rp rs ri rpr rsz l r]; simpl; [done|].
  destruct (lessThan p i rp ri);
    [destruct (insert_with prio l p s i) | destruct (insert_with prio r p s i)];
    simpl; destruct (_ >? _); done.
Qed.

Lemma inorder_insert_with prio t p s i :
  ordered t ->
  inorder (insert_with prio t p s i) = insert_order (mkOrder p s i) (inorder t).
Proof.
  induction t as [|rp rs ri rpr rsz l IHl r IHr]; intros Hord; [done|].
  apply ordered_node in Hord as (Hl & Hr & Hlt & Hgt).
  cbn [insert_with inorder].
  destruct (lessThan p i rp ri) eqn:E.
  - rewrite inorder_updateSize.
    transitivity (inorder (node rp rs ri rpr rsz (insert_with prio l p s i) r)).
    { destruct (_ >? _); [apply inorder_rotateRight | done]. }
    cbn [inorder]. rewrite IHl by done.
    by rewrite insert_order_app_lt.
  - rewrite inorder_updateSize.
    transitivity (inorder (node rp rs ri rpr rsz l (insert_with prio r p s i))).
    { destruct (_ >? _); [apply inorder_rotateLeft | done]. }
    cbn [inorder]. rewrite IHr by done.
    by rewrite insert_order_app_ge.
Qed.

Lemma size_ok_insert_with prio t p s i :
  size_ok t -> getSize t < INT_MAX ->
  size_ok (insert_with prio t p s i) /\
  getSize (insert_with prio t p s i) = getSize t + 1.
Proof.
  induction t as [|rp rs ri rpr rsz l IHl r IHr]; intros Hok Hcap.
  - simpl. unfold INT_MAX. lia.
  - destruct Hok as (E & Hb & Hl & Hr). cbn [getSize] in Hcap.
    pose proof (size_ok_nonneg l Hl). pose proof (size_ok_nonneg r Hr).
    cbn [insert_with].
    destruct (lessThan p i rp ri).
    + destruct IHl as [IHa IHb]; [done|lia|].
      destruct (insert_with prio l p s i) as [|xp xs xi xpr xsz xl T2] eqn:El';
        [simpl in IHb; lia|].
      pose proof IHa as (Ex & _ & Hxl & HT2). cbn [getSize] in IHb.
      pose proof (size_ok_nonneg xl Hxl). pose proof (size_ok_nonneg T2 HT2).
      cbn [priority_of]. destruct (xpr >? rpr); cbn [rotateRight].
      * destruct (size_ok_updateSize rp rs ri rpr rsz T2 r) as [Hy Gy];
          [done|done|lia|].
        destruct (size_ok_updateSize xp xs xi xpr xsz xl
                    (updateSize (node rp rs ri rpr rsz T2 r))) as [Hx Gx];
          [done|done|lia|].
        rewrite updateSize_id by done.
        split; [done|]. rewrite Gx, Gy. cbn [getSize]. lia.
      * destruct (size_ok_updateSize rp rs ri rpr rsz
                    (node xp xs xi xpr xsz xl T2) r) as [Hy Gy];
          [done|done|simpl; lia|].
        split; [done|]. rewrite Gy. cbn [getSize]. lia.
    + destruct IHr as [IHa IHb]; [done|lia|].
      destruct (insert_with prio r p s i) as [|yp ys yi ypr ysz T2 yr] eqn:Er';
        [simpl in IHb; lia|].
      pose proof IHa as (Ey & _ & HT2 & Hyr). cbn [getSize] in IHb.
      pose proof (size_ok_nonneg T2 HT2). pose proof (size_ok_nonneg yr Hyr).
      cbn [priority_of]. destruct (ypr >? rpr); cbn [rotateLeft].
      * destruct (size_ok_updateSize rp rs ri rpr rsz l T2) as [Hx Gx];
          [done|done|lia|].
        destruct (size_ok_updateSize yp ys yi ypr ysz
                    (updateSize (node rp rs ri rpr rsz l T2)) yr) as [Hy Gy];
          [done|done|lia|].
        rewrite updateSize_id by done.
        split; [done|]. rewrite Gy, Gx. cbn [getSize]. lia.
      * destruct (size_ok_updateSize rp rs ri rpr rsz l
                    (node yp ys yi ypr ysz T2 yr)) as [Hx Gx];
          [done|done|simpl; lia|].
        split; [done|]. rewrite Gx. cbn [getSize]. lia.
Qed.

Lemma prio_le_not_null b t : t <> null -> priority_of t <= b -> prio_le b t.
Proof. by destruct t. Qed.

(** The heap order survives insertion; below a bound on the old priorities,
    either the new root obeys the bound or it is the new node and its
    children obey it. *)
Lemma heap_insert_with prio t p s i :
  heap t ->
  heap (insert_with prio t p s i) /\
  (forall b, prio_le b t ->
     prio_le b (insert_with prio t p s i) \/
     children_le b (insert_with prio t p s i)).
Proof.
  induction t as [|rp rs ri rpr rsz l IHl r IHr]; intros Hh.
  - simpl. auto.
  - destruct Hh as (Pl & Pr & Hl & Hr). cbn [insert_with].
    destruct (lessThan p i rp ri).
    + destruct (IHl Hl) as [Ha Hb].
      pose proof (insert_with_not_null prio l p s i) as Hnn.
      destruct (insert_with prio l p s i) as [|xp xs xi xpr xsz xl T2];
        [done|].
      destruct Ha as (Pxl & PT2 & Hxl & HT2). cbn [priority_of].
      destruct (Z.gtb_spec xpr rpr) as [Hgt|Hle].
      * destruct (Hb rpr Pl) as [Hroot|[Cxl CT2]]; [simpl in Hroot; lia|].
        cbn [rotateRight]. rewrite updateSize_id'.
        split.
        -- apply heap_updateSize_node. cbn [heap].
           split; [done|]. split; [apply prio_le_updateSize; simpl; lia|].
           split; [done|]. apply heap_updateSize_node. cbn [heap]. auto.
        -- intros b Hbp. right. simpl in Hbp. simpl.
           split; [by eapply prio_le_mono; [|exact Cxl] | done].
      * split.
        -- apply heap_updateSize_node. simpl. repeat split; try done.
        -- intros b Hbp. left. done.
    + destruct (IHr Hr) as [Ha Hb].
      pose proof (insert_with_not_null prio r p s i) as Hnn.
      destruct (insert_with prio r p s i) as [|yp ys yi ypr ysz T2 yr];
        [done|].
      destruct Ha as (PT2 & Pyr & HT2 & Hyr). cbn [priority_of].
      destruct (Z.gtb_spec ypr rpr) as [Hgt|Hle].
      * destruct (Hb rpr Pr) as [Hroot|[CT2 Cyr]]; [simpl in Hroot; lia|].
        cbn [rotateLeft]. rewrite updateSize_id'.
        split.
        -- apply heap_updateSize_node. cbn [heap].
           split; [apply prio_le_updateSize; simpl; lia|]. split; [done|].
           split; [|done]. apply heap_updateSize_node. cbn [heap]. auto.
        -- intros b Hbp. right. simpl in Hbp. simpl.
           split; [done | by eapply prio_le_mono; [|exact Cyr]].
      * split.
        -- apply heap_updateSize_node. simpl. repeat split; try done.
        -- intros b Hbp. left. done.
Qed.

(** ** Split *)

Lemma filter_all {A} (P : A -> Prop) `{!forall x, Decision (P x)} (l : list A) :
  Forall P l -> filter P l = l.
Proof.
  induction 1 as [|x l Hx Hall IH]; [done|].
  rewrite filter_cons_True by done. by rewrite IH.
Qed.

Lemma filter_none {A} (P : A -> Prop) `{!forall x, Decision (P x)}
      (l : list A) :
  Forall (fun x => ~ P x) l -> filter P l = [].
Proof.
  induction 1 as [|x l Hx Hall IH]; [done|].
  by rewrite filter_cons_False.
Qed.

Lemma split_test_spec rp ri p i :
  lessThan rp ri p i || ((rp =? p) && (ri =? i)) = true <-> key_le rp ri p i.
Proof.
  rewrite orb_true_iff, lessThan_spec, key_eq_spec.
  unfold key_lt, key_le. lia.
Qed.

(** On an ordered tree [treapSplit] sends the orders with key [<= (p, i)] to
    the left and the others to the right, each side in rank order. *)
Lemma inorder_treapSplit t p i :
  ordered t ->
  inorder (fst (treapSplit t p i)) =
    filter (fun o => key_le (o_price o) (o_sequence o) p i) (inorder t) /\
  inorder (snd (treapSplit t p i)) =
    filter (fun o => key_lt p i (o_price o) (o_sequence o)) (inorder t).
Proof.
  induction t as [|rp rs ri rpr rsz l IHl r IHr]; intros Hord; [done|].
  apply ordered_node in Hord as (Hl & Hr & Hlt & Hgt).
  cbn [treapSplit inorder]. rewrite !filter_app, !filter_cons.
  destruct (lessThan rp ri p i || ((rp =? p) && (ri =? i))) eqn:E.
  - apply split_test_spec in E.
    destruct (IHr Hr) as [IH1 IH2].
    cbn [fst snd]. rewrite inorder_updateSize. cbn [inorder].
    rewrite IH1, IH2.
    rewrite (filter_all _ (inorder l)), (filter_none _ (inorder l)).
    + cbn [o_price o_sequence].
      destruct (decide (key_le rp ri p i)); [|done].
      destruct (decide (key_lt p i rp ri)); [|done].
      unfold key_le, key_lt in *; lia.
    + eapply Forall_impl; [exact Hlt|]. intros o Ho.
      unfold order_lt, key_lt, key_le in *. simpl in *. lia.
    + eapply Forall_impl; [exact Hlt|]. intros o Ho.
      unfold order_lt, key_lt, key_le in *. simpl in *. lia.
  - apply not_true_iff_false in E. rewrite split_test_spec in E.
    destruct (IHl Hl) as [IH1 IH2].
    cbn [fst snd]. rewrite inorder_updateSize. cbn [inorder].
    rewrite IH1, IH2.
    rewrite (filter_none _ (inorder r)), (filter_all _ (inorder r)).
    + cbn [o_price o_sequence].
      destruct (decide (key_le rp ri p i)); [done|].
      destruct (decide (key_lt p i rp ri)).
      * by rewrite app_nil_r.
      * unfold key_le, key_lt in *; lia.
    + eapply Forall_impl; [exact Hgt|]. intros o Ho.
      unfold order_lt, key_lt, key_le in *. simpl in *. lia.
    + eapply Forall_impl; [exact Hgt|]. intros o Ho.
      unfold order_lt, key_lt, key_le in *. simpl in *. lia.
Qed.

Lemma size_ok_treapSplit t p i :
  size_ok t ->
  size_ok (fst (treapSplit t p i)) /\ size_ok (snd (treapSplit t p i)) /\
  getSize (fst (treapSplit t p i)) + getSize (snd (treapSplit t p i))
    = getSize t.
Proof.
  induction t as [|rp rs ri rpr rsz l IHl r IHr]; intros Hok; [done|].
  destruct Hok as (E & Hb & Hl & Hr).
  pose proof (size_ok_nonneg l Hl). pose proof (size_ok_nonneg r Hr).
  cbn [treapSplit].
  destruct (lessThan rp ri p i || ((rp =? p) && (ri =? i))); cbn [fst snd].
  - destruct (IHr Hr) as (H1 & H2 & H3).
    pose proof (size_ok_nonneg _ H1). pose proof (size_ok_nonneg _ H2).
    destruct (size_ok_updateSize rp rs ri rpr rsz l
                (fst (treapSplit r p i))) as [Hs Hg]; [done|done|lia|].
    split; [exact Hs|]. split; [exact H2|].
    rewrite Hg. cbn [getSize]. lia.
  - destruct (IHl Hl) as (H1 & H2 & H3).
    pose proof (size_ok_nonneg _ H1). pose proof (size_ok_nonneg _ H2).
    destruct (size_ok_updateSize rp rs ri rpr rsz
                (snd (treapSplit l p i)) r) as [Hs Hg]; [done|done|lia|].
    split; [exact H1|]. split; [exact Hs|].
    rewrite Hg. cbn [getSize]. lia.
Qed.

Lemma heap_treapSplit t p i :
  heap t ->
  heap (fst (treapSplit t p i)) /\ heap (snd (treapSplit t p i)) /\
  (forall b, prio_le b t ->
     prio_le b (fst (treapSplit t p i)) /\
     prio_le b (snd (treapSplit t p i))).
Proof.
  induction t as [|rp rs ri rpr rsz l IHl r IHr]; intros Hh; [done|].
  destruct Hh as (Pl & Pr & Hl & Hr). cbn [treapSplit].
  destruct (lessThan rp ri p i || ((rp =? p) && (ri =? i))); cbn [fst snd].
  - destruct (IHr Hr) as (H1 & H2 & H3). destruct (H3 rpr Pr) as [B1 B2].
    split; [|split; [done|]].
    + apply heap_updateSize_node. cbn [heap]. auto.
    + intros b Hbp. split; [done|]. eapply prio_le_mono; [|exact B2]. done.
  - destruct (IHl Hl) as (H1 & H2 & H3). destruct (H3 rpr Pl) as [B1 B2].
    split; [done|split].
    + apply heap_updateSize_node. cbn [heap]. auto.
    + intros b Hbp. split; [|done]. eapply prio_le_mono; [|exact B1]. done.
Qed.

Lemma ordered_treapSplit t p i :
  ordered t ->
  ordered (fst (treapSplit t p i)) /\ ordered (snd (treapSplit t p i)).
Proof.
  intros Hord. destruct (inorder_treapSplit t p i Hord) as [E1 E2].
  unfold ordered. rewrite E1, E2.
  split; (eapply StronglySorted_sublist; [apply sublist_filter | done]).
Qed.

(** ** Removal by key *)

Lemma size_ok_treapRemoveKey t p i :
  size_ok t ->
  size_ok (treapRemoveKey t p i) /\
  getSize t - 1 <= getSize (treapRemoveKey t p i) <= getSize t.
Proof.
  induction t as [|rp rs ri rpr rsz l IHl r IHr]; intros Hok.
  - simpl. lia.
  - destruct Hok as (E & Hb & Hl & Hr).
    pose proof (size_ok_nonneg l Hl). pose proof (size_ok_nonneg r Hr).
    cbn [treapRemoveKey].
    destruct ((rp =? p) && (ri =? i)).
    + destruct (size_ok_treapMerge l r) as [Hs Hg]; [done|done|lia|].
      split; [done|]. rewrite Hg. cbn [getSize]. lia.
    + destruct (lessThan p i rp ri).
      * destruct (IHl Hl) as [H1 H2].
        pose proof (size_ok_nonneg _ H1).
        destruct (size_ok_updateSize rp rs ri rpr rsz
                    (treapRemoveKey l p i) r) as [Hs Hg]; [done|done|lia|].
        split; [done|]. rewrite Hg. cbn [getSize]. lia.
      * destruct (IHr Hr) as [H1 H2].
        pose proof (size_ok_nonneg _ H1).
        destruct (size_ok_updateSize rp rs ri rpr rsz l
                    (treapRemoveKey r p i)) as [Hs Hg]; [done|done|lia|].
        split; [done|]. rewrite Hg. cbn [getSize]. lia.
Qed.

Lemma heap_treapRemoveKey t p i :
  heap t ->
  heap (treapRemoveKey t p i) /\
  (forall b, prio_le b t -> prio_le b (treapRemoveKey t p i)).
Proof.
  induction t as [|rp rs ri rpr rsz l IHl r IHr]; intros Hh; [done|].
  destruct Hh as (Pl & Pr & Hl & Hr). cbn [treapRemoveKey].
  destruct ((rp =? p) && (ri =? i)).
  - destruct (heap_treapMerge l r Hl Hr) as [Ha Hb].
    split; [done|]. intros b Hbp. simpl in Hbp.
    apply Hb; eapply prio_le_mono; eauto.
  - destruct (lessThan p i rp ri).
    + destruct (IHl Hl) as [Ha Hb].
      split; [|done]. apply heap_updateSize_node. cbn [heap]. auto.
    + destruct (IHr Hr) as [Ha Hb].
      split; [|done]. apply heap_updateSize_node. cbn [heap]. auto.
Qed.

(** On an ordered tree [treapRemoveKey] drops the order with that key, if
    there is one, and keeps the others in rank order. *)
Lemma inorder_treapRemoveKey t p i :
  ordered t ->
  inorder (treapRemoveKey t p i) =
  filter (fun o => ~ has_key p i o) (inorder t).
Proof.
  induction t as [|rp rs ri rpr rsz l IHl r IHr]; intros Hord; [done|].
  apply ordered_node in Hord as (Hl & Hr & Hlt & Hgt).
  cbn [treapRemoveKey inorder]. rewrite filter_app, filter_cons.
  destruct ((rp =? p) && (ri =? i)) eqn:E.
  - apply key_eq_spec in E as [-> ->].
    rewrite inorder_treapMerge.
    rewrite (filter_all _ (inorder l)), (filter_all _ (inorder r)).
    + destruct (decide (~ has_key p i (mkOrder p rs i))) as [Hn|_]; [|done].
      exfalso. apply Hn. done.
    + eapply Forall_impl; [exact Hgt|]. intros o Ho [H1 H2].
      unfold order_lt, key_lt in Ho. simpl in Ho. lia.
    + eapply Forall_impl; [exact Hlt|]. intros o Ho [H1 H2].
      unfold order_lt, key_lt in Ho. simpl in Ho. lia.
  - apply not_true_iff_false in E. rewrite key_eq_spec in E.
    destruct (decide (~ has_key p i (mkOrder rp rs ri))) as [_|Hn];
      [|exfalso; apply Hn; intros [H1 H2]; simpl in *; tauto].
    destruct (lessThan p i rp ri) eqn:Elt.
    + apply lessThan_spec in Elt.
      rewrite inorder_updateSize. cbn [inorder]. rewrite IHl by done.
      rewrite (filter_all _ (inorder r)); [done|].
      eapply Forall_impl; [exact Hgt|]. intros o Ho [H1 H2].
      unfold order_lt, key_lt in *. simpl in *. lia.
    + apply lessThan_false in Elt.
      rewrite inorder_updateSize. cbn [inorder]. rewrite IHr by done.
      rewrite (filter_all _ (inorder l)); [done|].
      eapply Forall_impl; [exact Hlt|]. intros o Ho [H1 H2].
      unfold order_lt, key_lt, key_le in *. simpl in *. lia.
Qed.

Lemma ordered_treapRemoveKey t p i :
  ordered t -> ordered (treapRemoveKey t p i).
Proof.
  intros Hord. unfold ordered. rewrite inorder_treapRemoveKey by done.
  eapply StronglySorted_sublist; [apply sublist_filter | done].
Qed.

(** ** The loop of [buy] *)

Lemma buy_loop_done fuel t shares cost :
  shares <= 0 -> buy_loop fuel t shares cost = Some (t, cost).
Proof.
  intros H. destruct fuel; simpl;
    (destruct (Z.ltb_spec 0 shares); [lia | done]).
Qed.

Lemma buy_loop_null fuel shares cost :
  buy_loop fuel null shares cost = Some (null, cost).
Proof. destruct fuel; simpl; by rewrite andb_false_r. Qed.

Lemma sub64_diag x : sub64 x x = 0.
Proof. unfold sub64. by rewrite Z.sub_diag. Qed.

Lemma inorder_not_null t : t <> null -> inorder t <> [].
Proof.
  destruct t as [|p s i pr sz l r]; [done|]. intros _. simpl.
  by destruct (inorder l).
Qed.

(** With one more unit of fuel than there are orders, the loop of [buy] ends,
    and it does to the tree what [walk] does to the list of orders. *)
Lemma buy_loop_walk fuel : forall t shares cost,
  size_ok t -> (length (inorder t) < fuel)%nat ->
  exists t',
    buy_loop fuel t shares cost = Some (t', snd (walk (inorder t) shares cost))
    /\ inorder t' = fst (walk (inorder t) shares cost)
    /\ size_ok t' /\ (heap t -> heap t') /\ (ordered t -> ordered t').
Proof.
  induction fuel as [|fuel IH]; intros t shares cost Hok Hfuel; [lia|].
  destruct (Z.ltb_spec 0 shares) as [Hpos|Hnpos]; cycle 1.
  { exists t. rewrite buy_loop_done by done.
    destruct (inorder t) as [|o rest] eqn:E; simpl;
      [done|]. destruct (Z.ltb_spec 0 shares); [lia|]. done. }
  destruct (decide (t = null)) as [->|Hnn].
  { exists null. by rewrite buy_loop_null. }
  assert (Hint0 : is_int 0) by (unfold is_int, INT_MIN, INT_MAX; lia).
  pose proof (getByRank_lookup t 0 Hok Hint0 ltac:(lia)) as Hget.
  pose proof (inorder_not_null t Hnn) as Hne.
  destruct (inorder t) as [|o rest] eqn:E; [done|]. simpl in Hget.
  cbn [buy_loop].
  replace ((0 <? shares) && negb (is_null t)) with true
    by (destruct t; [done|]; simpl; destruct (Z.ltb_spec 0 shares); [done|lia]).
  destruct (getByRank t 0) as [|tp ts ti tpr tsz tl tr]; [done|].
  injection Hget as <-. cbn [walk o_price o_quantity o_sequence].
  destruct (Z.ltb_spec 0 shares) as [_|?]; [|lia].
  set (canFill := Z.min shares ts).
  set (ts' := sub64 ts canFill).
  set (t1 := storeSizeShares t 0 ts').
  assert (Hok1 : size_ok t1) by by apply size_ok_storeSizeShares.
  assert (E1 : inorder t1 = set_quantity ts' (mkOrder tp ts ti) :: rest).
  { unfold t1. rewrite inorder_storeSizeShares by (done || lia). by rewrite E. }
  assert (Hh1 : heap t -> heap t1) by apply heap_storeSizeShares.
  assert (Ho1 : ordered t -> ordered t1) by by apply ordered_storeSizeShares.
  destruct (Z.eqb_spec ts' 0) as [Hz|Hnz].
  - destruct (removeByRank_in_range t1 0 Hok1) as (Ei & Hok2 & _).
    { rewrite (size_ok_count t1 Hok1), E1. simpl. lia. }
    rewrite E1 in Ei. simpl in Ei.
    destruct (IH (removeByRank t1 0) (sub64 shares canFill)
                 (add64 cost (mul64 canFill tp)) Hok2) as (t' & Hb & Hi & Hs & Hh & Ho).
    { rewrite Ei. simpl in Hfuel. lia. }
    exists t'. rewrite Ei in Hb, Hi.
    repeat split; try done.
    + intros Hh0. apply Hh. apply heap_removeByRank. auto.
    + intros Ho0. apply Ho. apply ordered_removeByRank; auto.
  - assert (canFill = shares) as Hc.
    { unfold canFill in *. destruct (Z.min_spec shares ts) as [[_ Hm]|[_ Hm]];
        [done|]. exfalso. apply Hnz. unfold ts'. rewrite Hm. apply sub64_diag. }
    exists t1. rewrite Hc, sub64_diag, buy_loop_done by lia.
    repeat split; done.
Qed.

(** ** The cost of the walk *)

(** Accumulating wrapped products is wrapping the exact sum. *)
Lemma add64_wrap_mul64 c a b :
  add64 (wrap 64 c) (mul64 a b) = wrap 64 (c + a * b).
Proof.
  unfold add64, mul64. by rewrite wrap_add_l, wrap_add_r by lia.
Qed.

Lemma reference_cost_done l q : q <= 0 -> reference_cost l q = 0.
Proof.
  intros H. destruct l as [|o rest]; simpl; [done|].
  destruct (Z.ltb_spec 0 q); [lia|done].
Qed.

Lemma fill_exact shares q :
  0 < shares <= LLONG_MAX -> 0 < q <= LLONG_MAX ->
  sub64 q (Z.min shares q) = q - Z.min shares q /\
  sub64 shares (Z.min shares q) = shares - Z.min shares q.
Proof.
  unfold LLONG_MAX. intros Hs Hq.
  split; apply sub64_exact; unfold is_long_long, LLONG_MIN, LLONG_MAX; lia.
Qed.

(** The cost the loop accumulates is the reference cost, carried in the
    64-bit accumulator. *)
Lemma walk_cost l : forall shares c,
  Forall valid_quantity l -> shares <= LLONG_MAX ->
  snd (walk l shares (wrap 64 c)) = wrap 64 (c + reference_cost l shares).
Proof.
  induction l as [|o rest IH]; intros shares c Hall Hs; simpl.
  - by rewrite Z.add_0_r.
  - apply Forall_cons in Hall as [Hq Hall]. unfold valid_quantity in Hq.
    destruct (Z.ltb_spec 0 shares) as [Hpos|Hnpos]; [|by rewrite Z.add_0_r].
    destruct (fill_exact shares (o_quantity o)) as [E1 E2]; [lia|lia|].
    rewrite E1, E2, add64_wrap_mul64.
    destruct (Z.eqb_spec (o_quantity o - Z.min shares (o_quantity o)) 0)
      as [Hz|Hnz].
    + rewrite IH by (done || lia). f_equal. lia.
    + simpl. f_equal.
      rewrite reference_cost_done by lia. lia.
Qed.

(** Asking for at least everything empties the list and costs its value. *)
Lemma walk_exhaust l : forall shares c,
  Forall valid_quantity l -> total_quantity l <= shares <= LLONG_MAX ->
  fst (walk l shares c) = [] /\ reference_cost l shares = total_value l.
Proof.
  induction l as [|o rest IH]; intros shares c Hall Hs; simpl; [done|].
  apply Forall_cons in Hall as [Hq Hall]. unfold valid_quantity in Hq.
  simpl in Hs.
  assert (0 <= total_quantity rest) as Hnn.
  { clear -Hall. induction Hall as [|x l Hx _ IHl]; simpl; [done|].
    unfold valid_quantity in Hx. lia. }
  destruct (Z.ltb_spec 0 shares) as [Hpos|Hnpos]; [|lia].
  destruct (fill_exact shares (o_quantity o)) as [E1 E2]; [lia|lia|].
  rewrite E1, E2. rewrite Z.min_r by lia.
  rewrite Z.sub_diag. simpl.
  destruct (IH (shares - o_quantity o)
               (add64 c (mul64 (o_quantity o) (o_price o))) Hall) as [F1 F2];
    [lia|].
  rewrite F1, F2. done.
Qed.

(** The result of the loop does not depend on how much fuel was to spare. *)
Lemma buy_loop_more_fuel fuel : forall t shares cost r,
  buy_loop fuel t shares cost = Some r ->
  buy_loop (S fuel) t shares cost = Some r.
Proof.
  induction fuel as [|fuel IH]; intros t shares cost r H.
  - simpl in H. cbn [buy_loop].
    destruct ((0 <? shares) && negb (is_null t)); [done|exact H].
  - cbn [buy_loop] in H. cbn [buy_loop].
    destruct ((0 <? shares) && negb (is_null t)); [|exact H].
    destruct (getByRank t 0) as [|tp ts ti tpr tsz tl tr]; [exact H|].
    apply IH in H. exact H.
Qed.

Lemma buy_loop_fuel_le fuel fuel' t shares cost r :
  (fuel <= fuel')%nat ->
  buy_loop fuel t shares cost = Some r ->
  buy_loop fuel' t shares cost = Some r.
Proof.
  induction 1 as [|n Hle IH]; [done|].
  intros H. apply buy_loop_more_fuel. auto.
Qed.

(** ** Insertion with the generator threaded *)

Section RandFacts.

Context {RandState : Type} (rand : RandState -> Z * RandState).

Lemma treapInsert_insert_with t p s i g :
  treapInsert rand t p s i g =
  (insert_with (fst (draw_priority rand g)) t p s i,
   snd (draw_priority rand g)).
Proof.
  induction t as [|rp rs ri rpr rsz l IHl r IHr]; simpl.
  - unfold new_TreapNode. by destruct (draw_priority rand g).
  - destruct (lessThan p i rp ri); [rewrite IHl | rewrite IHr]; done.
Qed.

Lemma treapInsert_not_null t p s i g :
  fst (treapInsert rand t p s i g) <> null.
Proof. rewrite treapInsert_insert_with. apply insert_with_not_null. Qed.

End RandFacts.

Lemma inorder_insert_with_perm prio t p s i :
  inorder (insert_with prio t p s i) ≡ₚ mkOrder p s i :: inorder t.
Proof.
  induction t as [|rp rs ri rpr rsz l IHl r IHr]; [done|].
  cbn [insert_with inorder].
  destruct (lessThan p i rp ri); rewrite inorder_updateSize.
  - transitivity (inorder (node rp rs ri rpr rsz (insert_with prio l p s i) r)).
    { destruct (_ >? _); [by rewrite inorder_rotateRight | done]. }
    cbn [inorder]. by rewrite IHl.
  - transitivity (inorder (node rp rs ri rpr rsz l (insert_with prio r p s i))).
    { destruct (_ >? _); [by rewrite inorder_rotateLeft | done]. }
    cbn [inorder]. rewrite IHr.
    rewrite (Permutation_swap (mkOrder p s i) (mkOrder rp rs ri)).
    symmetry. apply Permutation_middle.
Qed.

Lemma treap_inv_insert_with prio t p s i :
  treap_inv t ->
  Forall (fun o => ~ has_key p i o) (inorder t) ->
  getSize t < INT_MAX ->
  treap_inv (insert_with prio t p s i).
Proof.
  intros (Ho & Hh & Hs) Hfresh Hcap. repeat split.
  - unfold ordered. rewrite inorder_insert_with by done.
    by apply StronglySorted_insert_order.
  - by apply heap_insert_with.
  - by apply size_ok_insert_with.
Qed.

Lemma treap_inv_treapMerge L R :
  treap_inv L -> treap_inv R ->
  (forall a b, a ∈ inorder L -> b ∈ inorder R -> order_lt a b) ->
  getSize L + getSize R <= INT_MAX ->
  treap_inv (treapMerge L R).
Proof.
  intros (HoL & HhL & HsL) (HoR & HhR & HsR) Hlt Hcap. repeat split.
  - unfold ordered. rewrite inorder_treapMerge.
    by apply StronglySorted_app_2.
  - by apply heap_treapMerge.
  - by apply size_ok_treapMerge.
Qed.

Lemma treap_inv_removeByRank t rank :
  treap_inv t -> is_int rank -> treap_inv (removeByRank t rank).
Proof.
  intros (Ho & Hh & Hs) Hint. repeat split.
  - by apply ordered_removeByRank.
  - by apply heap_removeByRank.
  - by apply size_ok_removeByRank.
Qed.

Lemma treap_inv_storeSizeShares t rank v :
  treap_inv t -> is_int rank -> treap_inv (storeSizeShares t rank v).
Proof.
  intros (Ho & Hh & Hs) Hint. repeat split.
  - by apply ordered_storeSizeShares.
  - by apply heap_storeSizeShares.
  - by apply size_ok_storeSizeShares.
Qed.

(** ** Books *)

Section BookFacts.

Context {RandState : Type} (rand : RandState -> Z * RandState).

Lemma add_unfold (ob : OrderBook RandState) p q :
  add rand ob p q =
  mkOrderBook
    (insert_with (fst (draw_priority rand (rand_state ob))) (root ob) p q
                 (globalInsertionCounter ob))
    (add64 (globalInsertionCounter ob) 1)
    (snd (draw_priority rand (rand_state ob))).
Proof. unfold add. by rewrite treapInsert_insert_with. Qed.

Lemma counter_step c : 0 <= c < INT_MAX -> add64 c 1 = c + 1.
Proof.
  unfold INT_MAX. intros H. unfold add64. apply wrap64_exact.
  unfold is_long_long, LLONG_MIN, LLONG_MAX. lia.
Qed.

Lemma book_inv_add (ob : OrderBook RandState) p q :
  book_inv ob -> globalInsertionCounter ob < INT_MAX ->
  book_inv (add rand ob p q) /\
  resting (add rand ob p q) =
    insert_order (mkOrder p q (globalInsertionCounter ob)) (resting ob) /\
  globalInsertionCounter (add rand ob p q) = globalInsertionCounter ob + 1.
Proof.
  intros (Hinv & Hseq & Hsz) Hcap. rewrite add_unfold.
  unfold book_inv, resting, book_size in *. cbn [root globalInsertionCounter].
  pose proof Hinv as (Ho & Hh & Hs).
  pose proof (size_ok_nonneg _ Hs) as Hnn.
  rewrite counter_step by lia.
  assert (Hfresh : Forall (fun o => ~ has_key p (globalInsertionCounter ob) o)
                          (inorder (root ob))).
  { eapply Forall_impl; [exact Hseq|]. intros o Hlt [_ He]. simpl in *. lia. }
  destruct (size_ok_insert_with (fst (draw_priority rand (rand_state ob)))
              (root ob) p q (globalInsertionCounter ob)) as [_ Hg];
    [done|lia|].
  split; [split; [|split]|split; [|done]].
  - apply treap_inv_insert_with; [done|done|lia].
  - rewrite inorder_insert_with_perm. apply Forall_cons. split; [simpl; lia|].
    eapply Forall_impl; [exact Hseq|]. intros o Hlt. simpl in *. lia.
  - rewrite Hg. lia.
  - by apply inorder_insert_with.
Qed.

End BookFacts.

Lemma book_inv_removeByPosition {RandState} (ob : OrderBook RandState) pos :
  book_inv ob -> is_int pos -> book_inv (removeByPosition ob pos).
Proof.
  intros (Hinv & Hseq & Hsz) Hint. pose proof Hinv as (Ho & Hh & Hs).
  unfold book_inv, resting, book_size, removeByPosition in *.
  cbn [root globalInsertionCounter].
  split; [by apply treap_inv_removeByRank|].
  destruct (decide (0 <= pos < getSize (root ob))) as [Hin|Hout].
  - destruct (removeByRank_in_range (root ob) pos Hs Hin) as (Ei & _ & Eg).
    rewrite Ei, Eg. split; [by apply Forall_delete | lia].
  - rewrite removeByRank_out_of_range by (assumption || lia). done.
Qed.

Lemma walk_shape l : forall shares cost,
  exists k rest,
    (k <= length l)%nat /\
    (fst (walk l shares cost) = drop k l \/
     exists o v, drop k l = o :: rest /\
                 fst (walk l shares cost) = set_quantity v o :: rest).
Proof.
  induction l as [|o l IH]; intros shares cost; simpl.
  - exists 0%nat, []. split; [done|]. by left.
  - destruct (0 <? shares); [|exists 0%nat, []; split; [lia|by left]].
    destruct (_ =? 0).
    + destruct (IH (sub64 shares (Z.min shares (o_quantity o)))
                   (add64 cost (mul64 (Z.min shares (o_quantity o)) (o_price o))))
        as (k & rest & Hk & Hsh).
      exists (S k), rest. split; [lia|]. exact Hsh.
    + exists 0%nat, l. split; [lia|]. right. eauto.
Qed.

(** What the loop leaves keeps every property of the orders that does not
    look at quantities, and is no longer than what it found. *)
Lemma walk_keeps (P : Order -> Prop) l shares cost :
  (forall v o, P o -> P (set_quantity v o)) ->
  Forall P l ->
  Forall P (fst (walk l shares cost)) /\
  (length (fst (walk l shares cost)) <= length l)%nat.
Proof.
  intros HP Hall.
  destruct (walk_shape l shares cost) as (k & rest & Hk & [->|(o & v & Hd & ->)]).
  - split; [by apply Forall_drop | rewrite length_drop; lia].
  - pose proof (Forall_drop P k l Hall) as Hdrop.
    rewrite Hd in Hdrop. apply Forall_cons in Hdrop as [Ho Hrest].
    split; [apply Forall_cons; auto|].
    assert (length (drop k l) = S (length rest)) as Hl by by rewrite Hd.
    rewrite length_drop in Hl. simpl. lia.
Qed.

Lemma book_inv_buy {RandState} fuel (ob ob' : OrderBook RandState) shares cost :
  book_inv ob -> buy fuel ob shares = Some (ob', cost) -> book_inv ob'.
Proof.
  intros (Hinv & Hseq & Hsz) Hbuy. pose proof Hinv as (Ho & Hh & Hs).
  unfold buy in Hbuy.
  destruct (buy_loop fuel (root ob) shares 0) as [[t c]|] eqn:E; [|done].
  injection Hbuy as <- <-.
  set (big := (S (length (inorder (root ob))) `max` fuel)%nat).
  destruct (buy_loop_walk big (root ob) shares 0 Hs)
    as (t' & Hb & Hi & Hs' & Hh' & Ho'); [lia|].
  assert (Hle : (fuel <= big)%nat) by lia.
  rewrite (buy_loop_fuel_le fuel big _ _ _ _ Hle E) in Hb.
  injection Hb as -> _.
  unfold book_inv, resting, book_size in *. cbn [root globalInsertionCounter].
  destruct (walk_keeps
              (fun o => 0 <= o_sequence o < globalInsertionCounter ob)
              (inorder (root ob)) shares 0) as [Hk Hlen]; [done|done|].
  repeat split; auto.
  - by rewrite Hi.
  - rewrite (size_ok_count t' Hs'), Hi.
    rewrite (size_ok_count _ Hs) in Hsz. lia.
Qed.

Lemma book_inv_new {RandState} (srand : Z -> RandState) :
  book_inv (new_OrderBook srand).
Proof.
  unfold book_inv, treap_inv, ordered, resting, book_size. simpl.
  repeat split; try done; constructor.
Qed.

(** Every reachable book satisfies the invariants. *)
Lemma reachable_book_inv {RandState} (rand : RandState -> Z * RandState)
      (srand : Z -> RandState) (ob : OrderBook RandState) :
  reachable rand srand ob -> book_inv ob.
Proof.
  induction 1 as [|ob p q _ IH _ _ Hcap|ob pos _ IH Hint
                  |ob fuel shares ob' cost _ IH Hbuy].
  - apply book_inv_new.
  - by apply book_inv_add.
  - by apply book_inv_removeByPosition.
  - by eapply book_inv_buy.
Qed.

(** * The properties the design document states *)

(** C9. For every book, [buy] with a requested quantity [<= 0] returns cost 0
    and leaves the book as it was: the loop condition fails at once, whatever
    the fuel. *)
Theorem buy_nonpositive_noop {RandState} (fuel : nat)
        (ob : OrderBook RandState) (shares : Z) :
  shares <= 0 -> buy fuel ob shares = Some (ob, 0).
Proof.
  intros H. unfold buy. rewrite buy_loop_done by done. by destruct ob.
Qed.

Lemma buy_nonpositive_noop_witness :
  -3 <= 0 /\ buy 0 example_book (-3) = Some (example_book, 0).
Proof.
  assert (H : -3 <= 0) by lia.
  split; [exact H | exact (buy_nonpositive_noop 0%nat example_book (-3) H)].
Defined.

(** C6. [getByRank] is total (a structural recursion on the tree). On a tree
    with consistent sizes and for a rank of type [int]: a rank in
    [0, size()) yields the node holding the order at that position of the
    in-order sequence; any other rank yields null; and on an ordered tree the
    order of rank 0 is the best one. *)
Theorem getByRank_total (t : TreapNode) (rank : Z) :
  size_ok t -> is_int rank ->
  (0 <= rank < getSize t ->
     exists o, inorder t !! Z.to_nat rank = Some o /\
               order_of (getByRank t rank) = Some o) /\
  (rank < 0 \/ getSize t <= rank -> getByRank t rank = null) /\
  (ordered t -> forall best o,
     order_of (getByRank t 0) = Some best -> o ∈ inorder t ->
     o = best \/ order_lt best o).
Proof.
  intros Hok Hint. split; [|split].
  - intros Hin. rewrite getByRank_lookup by (done || lia).
    rewrite (size_ok_count t Hok) in Hin.
    destruct (lookup_lt_is_Some_2 (inorder t) (Z.to_nat rank)) as [o Ho];
      [lia|]. eauto.
  - by apply getByRank_out_of_range.
  - intros Hord best o Hbest Ho.
    rewrite getByRank_lookup in Hbest
      by (done || unfold is_int, INT_MIN, INT_MAX; lia).
    unfold ordered in Hord. destruct (inorder t) as [|b rest]; [done|].
    simpl in Hbest. injection Hbest as ->.
    apply StronglySorted_cons in Hord as [Hall _].
    apply elem_of_cons in Ho as [->|Ho]; [by left|right].
    by apply (proj1 (Forall_forall _ _) Hall).
Qed.

Lemma getByRank_total_witness :
  size_ok (root example_book) /\ is_int 1 /\
  order_of (getByRank (root example_book) 1) = Some (mkOrder 10 5 0) /\
  getByRank (root example_book) 3 = null /\
  getByRank (root example_book) (-1) = null.
Proof.
  assert (Hok : size_ok (root example_book)) by compute_done.
  assert (Hint : is_int 1) by compute_done.
  assert (Hneg : is_int (-1)) by compute_done.
  assert (Hbig : is_int 3) by compute_done.
  split; [exact Hok|]. split; [exact Hint|]. split; [reflexivity|].
  split.
  - apply (getByRank_total (root example_book) 3 Hok Hbig).
    right. vm_compute. discriminate.
  - apply (getByRank_total (root example_book) (-1) Hok Hneg).
    left. lia.
Defined.

(** C5. For every book with consistent sizes and every rank of type [int]
    outside [0, size()), [removeByPosition] returns the book it was given:
    same tree (hence same size, contents and rank order), same counter. *)
Theorem removeByPosition_out_of_range {RandState} (ob : OrderBook RandState)
        (rank : Z) :
  size_ok (root ob) -> is_int rank ->
  rank < 0 \/ book_size ob <= rank ->
  removeByPosition ob rank = ob.
Proof.
  intros Hok Hint Hout. unfold removeByPosition.
  rewrite removeByRank_out_of_range by done. by destruct ob.
Qed.

Lemma removeByPosition_out_of_range_witness :
  size_ok (root example_book) /\ is_int 3 /\ book_size example_book <= 3 /\
  removeByPosition example_book 3 = example_book.
Proof.
  assert (Hok : size_ok (root example_book)) by compute_done.
  assert (Hint : is_int 3) by compute_done.
  assert (Hout : book_size example_book <= 3) by (vm_compute; discriminate).
  split; [exact Hok|]. split; [exact Hint|]. split; [exact Hout|].
  exact (removeByPosition_out_of_range example_book 3 Hok Hint (or_intror Hout)).
Defined.

(** C8. For every book with consistent sizes and every rank [r] in
    [0, size()), [removeByPosition r] removes exactly the order at rank [r]:
    the resting orders are the old ones with position [r] deleted, the size
    drops by one, every rank below [r] still holds the same order (price,
    quantity, sequence), and every rank [j >= r] holds the order that was at
    rank [j + 1]. *)
Theorem removeByPosition_shifts_ranks {RandState} (ob : OrderBook RandState)
        (r : Z) :
  size_ok (root ob) -> 0 <= r < book_size ob ->
  let ob' := removeByPosition ob r in
  resting ob' = delete (Z.to_nat r) (resting ob) /\
  book_size ob' = book_size ob - 1 /\
  size_ok (root ob') /\
  (forall j, 0 <= j < r ->
     order_of (getByRank (root ob') j) = order_of (getByRank (root ob) j)) /\
  (forall j, r <= j -> is_int (j + 1) ->
     order_of (getByRank (root ob') j) =
     order_of (getByRank (root ob) (j + 1))).
Proof.
  intros Hok Hin ob'. unfold ob', resting, book_size, removeByPosition in *.
  cbn [root].
  destruct (removeByRank_in_range (root ob) r Hok Hin) as (Ei & Hok' & Eg).
  pose proof (size_ok_int _ Hok) as Hmax.
  split; [done|]. split; [done|]. split; [done|]. split.
  - intros j Hj.
    assert (is_int j) by (unfold is_int, INT_MIN, INT_MAX in *; lia).
    rewrite !getByRank_lookup by (done || lia).
    rewrite Ei. apply list_lookup_delete_lt. lia.
  - intros j Hj Hint.
    assert (is_int j) by (unfold is_int, INT_MIN, INT_MAX in *; lia).
    rewrite !getByRank_lookup by (done || lia).
    rewrite Ei, list_lookup_delete_ge by lia.
    f_equal. lia.
Qed.

Lemma removeByPosition_shifts_ranks_witness :
  size_ok (root example_book) /\ 0 <= 1 < book_size example_book /\
  resting (removeByPosition example_book 1) = [mkOrder 7 4 2; mkOrder 10 3 1] /\
  resting (removeByPosition example_book 1) =
    delete (Z.to_nat 1) (resting example_book).
Proof.
  assert (Hok : size_ok (root example_book)) by compute_done.
  assert (Hin : 0 <= 1 < book_size example_book) by compute_done.
  split; [exact Hok|]. split; [exact Hin|]. split; [reflexivity|].
  exact (proj1 (removeByPosition_shifts_ranks example_book 1 Hok Hin)).
Defined.

(** ** What [buy] returns, on the list of resting orders *)

Lemma buy_loop_result fuel t shares cost t' c' :
  size_ok t -> buy_loop fuel t shares cost = Some (t', c') ->
  inorder t' = fst (walk (inorder t) shares cost) /\
  c' = snd (walk (inorder t) shares cost) /\
  size_ok t' /\ (heap t -> heap t') /\ (ordered t -> ordered t').
Proof.
  intros Hok E.
  set (big := (S (length (inorder t)) `max` fuel)%nat).
  destruct (buy_loop_walk big t shares cost Hok)
    as (t'' & Hb & Hi & Hs' & Hh' & Ho'); [lia|].
  assert (Hle : (fuel <= big)%nat) by lia.
  rewrite (buy_loop_fuel_le fuel big _ _ _ _ Hle E) in Hb.
  injection Hb as -> ->. done.
Qed.

Lemma buy_spec {RandState} fuel (ob : OrderBook RandState) shares :
  size_ok (root ob) -> (length (resting ob) < fuel)%nat ->
  exists t',
    buy fuel ob shares =
      Some (mkOrderBook t' (globalInsertionCounter ob) (rand_state ob),
            snd (walk (resting ob) shares 0)) /\
    inorder t' = fst (walk (resting ob) shares 0) /\ size_ok t'.
Proof.
  intros Hok Hfuel. unfold buy, resting in *.
  destruct (buy_loop_walk fuel (root ob) shares 0 Hok Hfuel)
    as (t' & Hb & Hi & Hs & _ & _).
  exists t'. rewrite Hb. done.
Qed.

Lemma inorder_nil_null t : inorder t = [] -> t = null.
Proof.
  destruct t as [|p s i pr sz l r]; [done|]. simpl.
  by destruct (inorder l).
Qed.

Lemma walk_cost_0 l shares :
  Forall valid_quantity l -> shares <= LLONG_MAX ->
  snd (walk l shares 0) = wrap 64 (reference_cost l shares).
Proof. intros Hall Hs. apply (walk_cost l shares 0 Hall Hs). Qed.

(** C2. Asking for more than the book holds is not an error: on a book with
    consistent sizes whose orders have valid quantities, [buy Q] with
    [Q > total quantity] returns (it does not run out of fuel), consumes every
    order, leaving the tree empty, and returns the value [sum price * quantity]
    of all of them as the 64-bit accumulator holds it (the very sum when it
    fits). In particular a book holding the single order [(7, 4)] yields 28 for
    [buy 10] and is left empty, and [buy 1] on the emptied book yields 0. *)
Theorem buy_under_liquidity {RandState} (ob : OrderBook RandState) :
  size_ok (root ob) ->
  (forall fuel Q,
      Forall valid_quantity (resting ob) ->
      total_quantity (resting ob) < Q <= LLONG_MAX ->
      (length (resting ob) < fuel)%nat ->
      buy fuel ob Q = Some (emptied ob, wrap 64 (total_value (resting ob))) /\
      (is_long_long (total_value (resting ob)) ->
       buy fuel ob Q = Some (emptied ob, total_value (resting ob)))) /\
  (forall fuel fuel' seq,
      resting ob = [mkOrder 7 4 seq] -> (1 < fuel)%nat ->
      buy fuel ob 10 = Some (emptied ob, 28) /\
      buy fuel' (emptied ob) 1 = Some (emptied ob, 0)).
Proof.
  intros Hok.
  assert (Hgen : forall fuel Q,
    Forall valid_quantity (resting ob) ->
    total_quantity (resting ob) < Q <= LLONG_MAX ->
    (length (resting ob) < fuel)%nat ->
    buy fuel ob Q = Some (emptied ob, wrap 64 (total_value (resting ob)))).
  { intros fuel Q Hall HQ Hfuel.
    destruct (buy_spec fuel ob Q Hok Hfuel) as (t' & Hb & Hi & Hs).
    destruct (walk_exhaust (resting ob) Q 0 Hall) as [F1 F2]; [lia|].
    rewrite walk_cost_0 in Hb by (done || lia).
    rewrite F1 in Hi. apply inorder_nil_null in Hi as ->.
    by rewrite F2 in Hb. }
  split.
  - intros fuel Q Hall HQ Hfuel. split; [by apply Hgen|].
    intros Hfit. rewrite (Hgen fuel Q Hall HQ Hfuel).
    by rewrite wrap64_exact.
  - intros fuel fuel' seq E Hfuel. split.
    + rewrite (Hgen fuel 10); rewrite E.
      * reflexivity.
      * repeat constructor; unfold valid_quantity, LLONG_MAX; simpl; lia.
      * unfold LLONG_MAX. simpl. lia.
      * simpl. lia.
    + unfold buy, emptied. cbn [root]. by rewrite buy_loop_null.
Qed.

Lemma buy_under_liquidity_witness :
  size_ok (root (lcg_add lcg_book 7 4)) /\
  resting (lcg_add lcg_book 7 4) = [mkOrder 7 4 0] /\
  buy 2 (lcg_add lcg_book 7 4) 10 = Some (emptied (lcg_add lcg_book 7 4), 28) /\
  buy 0 (emptied (lcg_add lcg_book 7 4)) 1 =
    Some (emptied (lcg_add lcg_book 7 4), 0) /\
  size_ok (root example_book) /\
  Forall valid_quantity (resting example_book) /\
  total_quantity (resting example_book) < 1000 <= LLONG_MAX /\
  (length (resting example_book) < 4)%nat /\
  is_long_long (total_value (resting example_book)) /\
  total_value (resting example_book) = 108 /\
  buy 4 example_book 1000 =
    Some (emptied example_book, total_value (resting example_book)).
Proof.
  assert (Hok : size_ok (root (lcg_add lcg_book 7 4))) by sizes_by_computation.
  assert (E : resting (lcg_add lcg_book 7 4) = [mkOrder 7 4 0]) by reflexivity.
  assert (Hfuel : (1 < 2)%nat) by lia.
  assert (Hok' : size_ok (root example_book)) by sizes_by_computation.
  assert (Hv : Forall valid_quantity (resting example_book)) by compute_done.
  assert (HQ : total_quantity (resting example_book) < 1000 <= LLONG_MAX)
    by compute_done.
  assert (Hfuel' : (length (resting example_book) < 4)%nat)
    by (vm_compute; lia).
  assert (Hfit : is_long_long (total_value (resting example_book)))
    by compute_done.
  destruct (buy_under_liquidity (lcg_add lcg_book 7 4) Hok) as [_ Hscen].
  destruct (Hscen 2%nat 0%nat 0 E Hfuel) as [Hb10 Hb1].
  destruct (buy_under_liquidity example_book Hok') as [Hgen _].
  destruct (Hgen 4%nat 1000 Hv HQ Hfuel') as [_ Hexact].
  split; [exact Hok|]. split; [exact E|]. split; [exact Hb10|].
  split; [exact Hb1|]. split; [exact Hok'|]. split; [exact Hv|].
  split; [exact HQ|]. split; [exact Hfuel'|]. split; [exact Hfit|].
  split; [reflexivity | exact (Hexact Hfit)].
Defined.

(** C2, the cost beyond the accumulator. One order of [2^62] units at price
    [2^31 - 1] rests; [buy] is asked for one unit more than the book holds.
    It fills the [2^62] units and empties the book, but what was filled is
    worth [2^62 * (2^31 - 1)], which no [long long] holds: the call returns
    [-2^62]. *)
Lemma buy_under_liquidity_cost_wraps :
  resting (add_all lcg_rand lcg_book [(2147483647, 4611686018427387904)]) =
    [mkOrder 2147483647 4611686018427387904 0] /\
  total_quantity [mkOrder 2147483647 4611686018427387904 0] <
    4611686018427387905 <= LLONG_MAX /\
  total_value [mkOrder 2147483647 4611686018427387904 0] =
    9903520309671356180765605888 /\
  buy 2 (add_all lcg_rand lcg_book [(2147483647, 4611686018427387904)])
      4611686018427387905 =
    Some (emptied
            (add_all lcg_rand lcg_book [(2147483647, 4611686018427387904)]),
          -4611686018427387904) /\
  -4611686018427387904 <> 9903520309671356180765605888.
Proof.
  split; [reflexivity|]. split; [compute_done|]. split; [reflexivity|].
  split; [reflexivity | discriminate].
Qed.

Lemma StronglySorted_lookup_lt {A} (R : relation A) (l : list A) :
  StronglySorted R l ->
  forall (i j : nat) a b,
    (i < j)%nat -> l !! i = Some a -> l !! j = Some b -> R a b.
Proof.
  induction 1 as [|x l Hs IH Hall]; intros i j a b Hij Ha Hb; [done|].
  destruct j as [|j]; [lia|]. simpl in Hb.
  destruct i as [|i]; simpl in Ha.
  - injection Ha as ->.
    apply (proj1 (Forall_forall _ _) Hall). by eapply list_elem_of_lookup_2.
  - apply (IH i j); [lia|done|done].
Qed.

(** C10. [add] enforces no contract on the quantity: for every price and
    every quantity (zero and negative ones too), on a book with consistent
    sizes and room for one more node, the call leaves a resting order with
    exactly that price and quantity and the next sequence number, keeps the
    other orders, and increases the size by one. *)
Theorem add_accepts_any_quantity {RandState}
        (rand : RandState -> Z * RandState) (ob : OrderBook RandState)
        (price quantity : Z) :
  size_ok (root ob) -> book_size ob < INT_MAX ->
  let ob' := add rand ob price quantity in
  let o := mkOrder price quantity (globalInsertionCounter ob) in
  o ∈ resting ob' /\
  resting ob' ≡ₚ o :: resting ob /\
  book_size ob' = book_size ob + 1 /\
  size_ok (root ob').
Proof.
  intros Hok Hcap ob' o. unfold ob', o, resting, book_size in *.
  rewrite add_unfold. cbn [root].
  destruct (size_ok_insert_with (fst (draw_priority rand (rand_state ob)))
              (root ob) price quantity (globalInsertionCounter ob))
    as [Hs Hg]; [done|done|].
  split; [|split; [apply inorder_insert_with_perm|done]].
  rewrite inorder_insert_with_perm. apply elem_of_cons. by left.
Qed.

Lemma add_accepts_any_quantity_witness :
  size_ok (root example_book) /\ book_size example_book < INT_MAX /\
  resting (lcg_add example_book 8 (-2)) =
    [mkOrder 7 4 2; mkOrder 8 (-2) 3; mkOrder 10 5 0; mkOrder 10 3 1] /\
  book_size (lcg_add example_book 8 0) = book_size example_book + 1.
Proof.
  assert (Hok : size_ok (root example_book)) by compute_done.
  assert (Hcap : book_size example_book < INT_MAX) by compute_done.
  split; [exact Hok|]. split; [exact Hcap|]. split; [reflexivity|].
  exact (proj1 (proj2 (proj2
           (add_accepts_any_quantity lcg_rand example_book 8 0 Hok Hcap)))).
Defined.

(** C4. Every mutation of a tree that satisfies the three structural
    invariants (strictly increasing keys in order, heap order on priorities,
    every [subtree_size] equal to [1 + size(left) + size(right)]) yields
    trees that satisfy them: [treapInsert] of a key not yet in the tree,
    [treapMerge] with a tree of greater keys, both halves of [treapSplit],
    [treapRemoveKey], [removeByRank], the write to [sizeShares] that [buy]
    does through the pointer [getByRank] gave it, and the whole loop of
    [buy]. Where nodes are added or joined, the node count must fit the [int]
    field [subtree_size]. *)
Theorem treap_invariants_preserved {RandState}
        (rand : RandState -> Z * RandState) (t : TreapNode) :
  treap_inv t ->
  (forall p s i g,
      Forall (fun o => ~ has_key p i o) (inorder t) ->
      getSize t < INT_MAX ->
      treap_inv (fst (treapInsert rand t p s i g))) /\
  (forall R,
      treap_inv R ->
      (forall a b, a ∈ inorder t -> b ∈ inorder R -> order_lt a b) ->
      getSize t + getSize R <= INT_MAX ->
      treap_inv (treapMerge t R)) /\
  (forall p i,
      treap_inv (fst (treapSplit t p i)) /\
      treap_inv (snd (treapSplit t p i))) /\
  (forall p i, treap_inv (treapRemoveKey t p i)) /\
  (forall rank, is_int rank -> treap_inv (removeByRank t rank)) /\
  (forall rank v, is_int rank -> treap_inv (storeSizeShares t rank v)) /\
  (forall fuel shares cost t' cost',
      buy_loop fuel t shares cost = Some (t', cost') -> treap_inv t').
Proof.
  intros Hinv. pose proof Hinv as (Ho & Hh & Hs).
  split; [|split; [|split; [|split; [|split; [|split]]]]].
  - intros p s i g Hfresh Hcap. rewrite treapInsert_insert_with.
    by apply treap_inv_insert_with.
  - intros R HR Hlt Hcap. by apply treap_inv_treapMerge.
  - intros p i.
    destruct (ordered_treapSplit t p i Ho) as [O1 O2].
    destruct (heap_treapSplit t p i Hh) as (H1 & H2 & _).
    destruct (size_ok_treapSplit t p i Hs) as (S1 & S2 & _).
    by repeat split.
  - intros p i. repeat split.
    + by apply ordered_treapRemoveKey.
    + by apply heap_treapRemoveKey.
    + by apply size_ok_treapRemoveKey.
  - intros rank Hint. by apply treap_inv_removeByRank.
  - intros rank v Hint. by apply treap_inv_storeSizeShares.
  - intros fuel shares cost t' cost' Hb.
    destruct (buy_loop_result fuel t shares cost t' cost' Hs Hb)
      as (_ & _ & Hs' & Hh' & Ho').
    repeat split; auto.
Qed.

Lemma treap_invariants_preserved_witness :
  treap_inv (root example_book) /\
  treap_inv (fst (treapInsert lcg_rand (root example_book) 8 6 3 1)) /\
  treap_inv (removeByRank (root example_book) 1) /\
  treap_inv (treapRemoveKey (root example_book) 10 0) /\
  treap_inv (storeSizeShares (root example_book) 0 1).
Proof.
  assert (Hinv : treap_inv (root example_book)) by compute_done.
  assert (Hfresh : Forall (fun o => ~ has_key 8 3 o)
                          (inorder (root example_book))) by compute_done.
  assert (Hcap : getSize (root example_book) < INT_MAX) by compute_done.
  assert (H0 : is_int 0) by compute_done.
  assert (H1 : is_int 1) by compute_done.
  destruct (treap_invariants_preserved lcg_rand (root example_book) Hinv)
    as (Hins & _ & _ & Hkey & Hrank & Hstore & _).
  split; [exact Hinv|]. split; [exact (Hins 8 6 3 1 Hfresh Hcap)|].
  split; [exact (Hrank 1 H1)|]. split; [exact (Hkey 10 0)|].
  exact (Hstore 0 1 H0).
Defined.

(** C7. On every ordered tree and for every key, [treapSplit]
    returns a left tree holding exactly the orders with key [<=] the given
    key and a right tree holding exactly those with a greater key, each in
    rank order. Removal does not go through [treapSplit]: both
    [treapRemoveKey] and [removeByRank] replace the node they remove by the
    [treapMerge] of its two children. *)
Theorem treapSplit_partitions (t : TreapNode) (p i : Z) :
  ordered t ->
  inorder (fst (treapSplit t p i)) =
    filter (fun o => key_le (o_price o) (o_sequence o) p i) (inorder t) /\
  inorder (snd (treapSplit t p i)) =
    filter (fun o => key_lt p i (o_price o) (o_sequence o)) (inorder t) /\
  inorder (fst (treapSplit t p i)) ++ inorder (snd (treapSplit t p i))
    ≡ₚ inorder t /\
  (forall rs rpr rsz l r,
      treapRemoveKey (node p rs i rpr rsz l r) p i = treapMerge l r) /\
  (forall rp rs ri rpr rsz l r,
      removeByRank (node rp rs ri rpr rsz l r) (getSize l) = treapMerge l r).
Proof.
  intros Hord. destruct (inorder_treapSplit t p i Hord) as [E1 E2].
  split; [done|]. split; [done|]. split; [|split].
  - rewrite E1, E2.
    rewrite <- (filter_app_complement
                  (fun o => key_le (o_price o) (o_sequence o) p i)
                  (inorder t)) at 3.
    apply Permutation_app_head. apply reflexive_eq.
    apply list_filter_iff. intros o. unfold key_le, key_lt. lia.
  - intros rs rpr rsz l r. simpl. by rewrite !Z.eqb_refl.
  - intros rp rs ri rpr rsz l r. simpl.
    by rewrite Z.ltb_irrefl, Z.eqb_refl.
Qed.

Lemma treapSplit_partitions_witness :
  ordered (root example_book) /\
  inorder (fst (treapSplit (root example_book) 10 0)) =
    [mkOrder 7 4 2; mkOrder 10 5 0] /\
  inorder (snd (treapSplit (root example_book) 10 0)) = [mkOrder 10 3 1] /\
  inorder (fst (treapSplit (root example_book) 10 0)) =
    filter (fun o => key_le (o_price o) (o_sequence o) 10 0)
           (inorder (root example_book)).
Proof.
  assert (Hord : ordered (root example_book)) by compute_done.
  split; [exact Hord|]. split; [reflexivity|]. split; [reflexivity|].
  exact (proj1 (treapSplit_partitions (root example_book) 10 0 Hord)).
Defined.

(** C7, removal and [treapSplit]. On the treap [tied_treap], which satisfies
    the invariants, removing the key [(2, 1)] with [treapRemoveKey] (or rank 1 with
    [removeByRank]) keeps the node [(1, 0)] as root, whereas a removal built
    from [treapSplit] and [treapMerge] makes [(3, 2)] the root: the code's
    removal is not the split-based one. *)
Lemma removal_is_not_split_based :
  treap_inv tied_treap /\
  treapRemoveKey tied_treap 2 1 =
    node 1 1 0 5 2 null (node 3 1 2 5 1 null null) /\
  removeByRank tied_treap 1 =
    node 1 1 0 5 2 null (node 3 1 2 5 1 null null) /\
  removeKey_by_split tied_treap 2 1 =
    node 3 1 2 5 2 (node 1 1 0 5 1 null null) null /\
  bool_decide (treapRemoveKey tied_treap 2 1 = removeKey_by_split tied_treap 2 1)
    = false.
Proof.
  split; [compute_done|]. repeat split; reflexivity.
Qed.

(** ** A run of [add] calls *)

Lemma length_orders_from adds : forall c,
  length (orders_from c adds) = length adds.
Proof.
  induction adds as [|[p q] adds IH]; intros c; simpl; [done|].
  by rewrite IH.
Qed.

Lemma orders_from_valid adds : forall c,
  Forall (fun a => 0 < snd a <= LLONG_MAX) adds ->
  Forall valid_quantity (orders_from c adds).
Proof.
  induction adds as [|[p q] adds IH]; intros c Hall; simpl; [done|].
  apply Forall_cons in Hall as [Hq Hall].
  apply Forall_cons. split; [exact Hq | by apply IH].
Qed.

Lemma add_all_spec {RandState} (rand : RandState -> Z * RandState) adds :
  forall ob : OrderBook RandState,
    book_inv ob ->
    globalInsertionCounter ob + Z.of_nat (length adds) <= INT_MAX ->
    book_inv (add_all rand ob adds) /\
    resting (add_all rand ob adds) =
      foldl (fun acc o => insert_order o acc) (resting ob)
            (orders_from (globalInsertionCounter ob) adds).
Proof.
  induction adds as [|[p q] adds IH]; intros ob Hinv Hcap; [done|].
  simpl in Hcap.
  destruct (book_inv_add rand ob p q Hinv) as (Hinv' & E & C); [lia|].
  destruct (IH (add rand ob p q) Hinv') as [Hinv'' E'']; [lia|].
  split; [exact Hinv''|].
  unfold add_all in *. cbn [foldl orders_from fst snd].
  by rewrite E'', E, C.
Qed.

(** The orders a run of [add] calls numbers from [c] on have distinct keys,
    so sorting them leaves the keys strictly increasing. *)
Lemma rank_order_sorted adds : forall c,
  StronglySorted order_lt (rank_order (orders_from c adds)) /\
  Forall (fun o => c <= o_sequence o < c + Z.of_nat (length adds))
         (orders_from c adds).
Proof.
  induction adds as [|[p q] adds IH] using rev_ind; intros c.
  - split; constructor.
  - assert (Hsnoc : forall l c', orders_from c' (l ++ [(p, q)]) =
              orders_from c' l ++ [mkOrder p q (c' + Z.of_nat (length l))]).
    { clear. induction l as [|[p' q'] l IHl]; intros c'.
      - simpl. by rewrite Z.add_0_r.
      - cbn [orders_from app length]. rewrite IHl, Nat2Z.inj_succ.
        replace (c' + 1 + Z.of_nat (length l))
          with (c' + Z.succ (Z.of_nat (length l))) by lia.
        done. }
    destruct (IH c) as [Hs Hall].
    rewrite Hsnoc, rank_order_snoc, length_app. simpl. split.
    + apply StronglySorted_insert_order; [|done].
      rewrite rank_order_perm.
      eapply Forall_impl; [exact Hall|]. intros o Ho [_ He]. simpl in *. lia.
    + apply Forall_app. split.
      * eapply Forall_impl; [exact Hall|]. intros o Ho. simpl in *. lia.
      * repeat constructor; simpl; lia.
Qed.

(** C1. For every run of [add] calls with valid quantities, short enough for
    the node count to fit [subtree_size], followed by one [buy Q] with [Q] a
    [long long]: the call returns, and for every enumeration [sorted] of the
    added orders in ascending (price, sequence) order its cost is the cost of
    the naive reference walk over [sorted] (units taken greedily,
    [price * units] summed in exact integers) as a signed 64-bit accumulator
    holds it. It is that very cost whenever the cost fits in 64 bits. *)
Theorem buy_matches_reference_walk {RandState}
        (rand : RandState -> Z * RandState) (srand : Z -> RandState)
        (adds : list (Z * Z)) (Q : Z) (fuel : nat) (sorted : list Order) :
  Forall (fun a => 0 < snd a <= LLONG_MAX) adds ->
  Z.of_nat (length adds) <= INT_MAX ->
  Q <= LLONG_MAX ->
  (length adds < fuel)%nat ->
  sorted ≡ₚ orders_from 0 adds ->
  StronglySorted order_lt sorted ->
  let ob := add_all rand (new_OrderBook srand) adds in
  resting ob = sorted /\
  (exists ob', buy fuel ob Q = Some (ob', wrap 64 (reference_cost sorted Q))) /\
  (is_long_long (reference_cost sorted Q) ->
   exists ob', buy fuel ob Q = Some (ob', reference_cost sorted Q)).
Proof.
  intros Hall Hcap HQ Hfuel Hperm Hsorted ob.
  destruct (add_all_spec rand adds (new_OrderBook srand))
    as [Hinv E]; [apply book_inv_new | simpl; lia |].
  fold ob in Hinv, E.
  change (resting ob = rank_order (orders_from 0 adds)) in E.
  destruct Hinv as ((Hord & _ & Hok) & _ & _).
  assert (Es : resting ob = sorted).
  { apply (StronglySorted_unique_strong order_lt); [|exact Hord|done|].
    - intros x1 x2 _ _ H1 H2. unfold order_lt, key_lt in *. lia.
    - by rewrite E, rank_order_perm. }
  assert (Hlen : length (resting ob) = length adds).
  { by rewrite E, (Permutation_length (rank_order_perm _)),
      length_orders_from. }
  assert (Hvalid : Forall valid_quantity (resting ob)).
  { rewrite E, rank_order_perm. by apply orders_from_valid. }
  destruct (buy_spec fuel ob Q Hok) as (t' & Hb & _ & _); [lia|].
  rewrite walk_cost_0 in Hb by done. rewrite Es in Hb.
  split; [exact Es|]. split; [eauto|].
  intros Hfit. rewrite (wrap64_exact _ Hfit) in Hb. eauto.
Qed.

Lemma buy_matches_reference_walk_witness :
  Forall (fun a => 0 < snd a <= LLONG_MAX) [(10, 5); (10, 3); (7, 4)] /\
  [mkOrder 7 4 2; mkOrder 10 5 0; mkOrder 10 3 1]
    ≡ₚ orders_from 0 [(10, 5); (10, 3); (7, 4)] /\
  StronglySorted order_lt [mkOrder 7 4 2; mkOrder 10 5 0; mkOrder 10 3 1] /\
  reference_cost [mkOrder 7 4 2; mkOrder 10 5 0; mkOrder 10 3 1] 6 = 48 /\
  exists ob',
    buy 4 (add_all lcg_rand lcg_book [(10, 5); (10, 3); (7, 4)]) 6
      = Some (ob', 48).
Proof.
  assert (Hall : Forall (fun a => 0 < snd a <= LLONG_MAX)
                        [(10, 5); (10, 3); (7, 4)]) by compute_done.
  assert (Hcap : Z.of_nat (length [(10, 5); (10, 3); (7, 4)]) <= INT_MAX)
    by compute_done.
  assert (HQ : 6 <= LLONG_MAX) by compute_done.
  assert (Hfuel : (length [(10, 5); (10, 3); (7, 4)] < 4)%nat)
    by (simpl; lia).
  assert (Hperm : [mkOrder 7 4 2; mkOrder 10 5 0; mkOrder 10 3 1]
                    ≡ₚ orders_from 0 [(10, 5); (10, 3); (7, 4)]).
  { simpl. apply (Permutation_cons_append [_; _]). }
  assert (Hsorted : StronglySorted order_lt
                      [mkOrder 7 4 2; mkOrder 10 5 0; mkOrder 10 3 1])
    by compute_done.
  assert (Hfit : is_long_long
            (reference_cost [mkOrder 7 4 2; mkOrder 10 5 0; mkOrder 10 3 1] 6))
    by compute_done.
  split; [exact Hall|]. split; [exact Hperm|]. split; [exact Hsorted|].
  split; [reflexivity|].
  exact (proj2 (proj2 (buy_matches_reference_walk lcg_rand lcg_srand
           [(10, 5); (10, 3); (7, 4)] 6 4 _ Hall Hcap HQ Hfuel Hperm Hsorted))
           Hfit).
Defined.

(** C1, beyond 64 bits. One order of [2^62] units at price [2^31 - 1], then
    [buy 2^62] (no more than the book holds): the reference walk costs
    [2^62 * (2^31 - 1)], which no [long long] can hold; [buy] returns
    [- 2^62]. *)
Lemma buy_cost_beyond_accumulator :
  resting (add_all lcg_rand lcg_book [(2147483647, 4611686018427387904)]) =
    [mkOrder 2147483647 4611686018427387904 0] /\
  4611686018427387904 <=
    total_quantity [mkOrder 2147483647 4611686018427387904 0] /\
  reference_cost [mkOrder 2147483647 4611686018427387904 0]
                 4611686018427387904 = 9903520309671356180765605888 /\
  buy 2 (add_all lcg_rand lcg_book [(2147483647, 4611686018427387904)])
      4611686018427387904 =
    Some (mkOrderBook null 1 523840645, -4611686018427387904).
Proof.
  split; [reflexivity|]. split; [compute_done|]. split; reflexivity.
Qed.

(** * Further properties of the treap *)

(** X1. [lessThan] is a strict total order on keys: no key is below itself,
    two keys are never below each other, keys that are not below each other
    either way are equal, and the relation is transitive. *)
Theorem lessThan_strict_total_order (p1 i1 p2 i2 : Z) :
  lessThan p1 i1 p1 i1 = false /\
  (lessThan p1 i1 p2 i2 = true -> lessThan p2 i2 p1 i1 = false) /\
  (lessThan p1 i1 p2 i2 = false -> lessThan p2 i2 p1 i1 = false ->
   p1 = p2 /\ i1 = i2) /\
  (forall p3 i3,
      lessThan p1 i1 p2 i2 = true -> lessThan p2 i2 p3 i3 = true ->
      lessThan p1 i1 p3 i3 = true).
Proof.
  split; [|split; [|split]].
  - apply lessThan_false. unfold key_le. lia.
  - rewrite lessThan_spec, lessThan_false. unfold key_lt, key_le. lia.
  - rewrite !lessThan_false. unfold key_le. lia.
  - intros p3 i3. rewrite !lessThan_spec. unfold key_lt. lia.
Qed.

Lemma lessThan_strict_total_order_witness :
  lessThan 7 2 10 0 = true /\ lessThan 10 0 10 1 = true /\
  lessThan 7 2 10 1 = true /\ lessThan 10 1 7 2 = false.
Proof.
  assert (H1 : lessThan 7 2 10 0 = true) by reflexivity.
  assert (H2 : lessThan 10 0 10 1 = true) by reflexivity.
  destruct (lessThan_strict_total_order 7 2 10 0) as (_ & _ & _ & Htrans).
  pose proof (Htrans 10 1 H1 H2) as H3.
  destruct (lessThan_strict_total_order 7 2 10 1) as (_ & Hasym & _).
  split; [exact H1|]. split; [exact H2|]. split; [exact H3 | exact (Hasym H3)].
Defined.

(** X2. The two rotations undo each other on a tree with consistent sizes:
    rotating right (the left child exists) and then left gives the tree back,
    and so does rotating left (the right child exists) and then right. Either
    rotation keeps the in-order sequence, the consistency of the sizes and
    the size of the whole tree. *)
Theorem rotations_undo_each_other (t : TreapNode) :
  size_ok t ->
  (left_of t <> null ->
     rotateLeft (rotateRight t) = t /\
     inorder (rotateRight t) = inorder t /\
     size_ok (rotateRight t) /\ getSize (rotateRight t) = getSize t) /\
  (right_of t <> null ->
     rotateRight (rotateLeft t) = t /\
     inorder (rotateLeft t) = inorder t /\
     size_ok (rotateLeft t) /\ getSize (rotateLeft t) = getSize t).
Proof.
  intros Hok. split.
  - destruct t as [|yp ys yi ypr ysz [|xp xs xi xpr xsz xl T2] yr]; try done.
    intros _. destruct Hok as (Ey & Hby & (Ex & Hbx & Hxl & HT2) & Hyr).
    cbn [getSize] in Ey.
    pose proof (size_ok_nonneg xl Hxl). pose proof (size_ok_nonneg T2 HT2).
    pose proof (size_ok_nonneg yr Hyr).
    split; [|split; [apply inorder_rotateRight|]].
    + cbn [rotateRight rotateLeft updateSize getSize].
      rewrite (size_sum_exact (getSize xl) (getSize T2)) by lia.
      rewrite size_sum_exact by lia.
      by rewrite <- Ex, <- Ey.
    + cbn [rotateRight updateSize getSize size_ok].
      rewrite (size_sum_exact (getSize T2) (getSize yr)) by lia.
      rewrite size_sum_exact by lia.
      repeat split; try done; lia.
  - destruct t as [|xp xs xi xpr xsz xl [|yp ys yi ypr ysz T2 yr]]; try done.
    intros _. destruct Hok as (Ex & Hbx & Hxl & (Ey & Hby & HT2 & Hyr)).
    cbn [getSize] in Ex.
    pose proof (size_ok_nonneg xl Hxl). pose proof (size_ok_nonneg T2 HT2).
    pose proof (size_ok_nonneg yr Hyr).
    split; [|split; [apply inorder_rotateLeft|]].
    + cbn [rotateRight rotateLeft updateSize getSize].
      rewrite (size_sum_exact (getSize T2) (getSize yr)) by lia.
      rewrite size_sum_exact by lia.
      by rewrite <- Ey, <- Ex.
    + cbn [rotateLeft updateSize getSize size_ok].
      rewrite (size_sum_exact (getSize xl) (getSize T2)) by lia.
      rewrite size_sum_exact by lia.
      repeat split; try done; lia.
Qed.

Lemma rotations_undo_each_other_witness :
  size_ok (root example_book) /\
  rotateRight (rotateLeft (root example_book)) = root example_book /\
  inorder (rotateLeft (root example_book)) = inorder (root example_book).
Proof.
  assert (Hok : size_ok (root example_book)) by sizes_by_computation.
  assert (Hr : right_of (root example_book) <> null) by (vm_compute; discriminate).
  destruct (proj2 (rotations_undo_each_other (root example_book) Hok) Hr)
    as (H1 & H2 & _).
  split; [exact Hok|]. split; [exact H1 | exact H2].
Defined.

(** X3. [treapMerge] concatenates: the in-order sequence of the result is
    that of [L] followed by that of [R], whatever the trees; an empty side
    gives the other side back; when both sides are trees the root of the
    result has the larger of the two root priorities (the right root on a
    tie); and with consistent sizes that fit an [int] the sizes add up. *)
Theorem treapMerge_concatenates (L R : TreapNode) :
  inorder (treapMerge L R) = inorder L ++ inorder R /\
  treapMerge null R = R /\ treapMerge L null = L /\
  (L <> null -> R <> null ->
     priority_of (treapMerge L R) = Z.max (priority_of L) (priority_of R) /\
     (priority_of L <= priority_of R ->
      order_of (treapMerge L R) = order_of R)) /\
  (size_ok L -> size_ok R -> getSize L + getSize R <= INT_MAX ->
     getSize (treapMerge L R) = getSize L + getSize R).
Proof.
  split; [apply inorder_treapMerge|]. split; [done|].
  split; [apply treapMerge_null_r|]. split.
  - destruct L as [|lp ls li lpr lsz ll lr]; [done|].
    destruct R as [|rp rs ri rpr rsz rl rr]; [done|]. intros _ _.
    rewrite treapMerge_node. cbn [priority_of].
    destruct (Z.gtb_spec lpr rpr); cbn [updateSize priority_of order_of];
      (split; [lia|]); [lia|done].
  - intros HL HR Hcap. by apply size_ok_treapMerge.
Qed.

Lemma treapMerge_concatenates_witness :
  node 1 1 0 5 1 null null <> null /\ node 2 1 1 5 1 null null <> null /\
  priority_of (node 1 1 0 5 1 null null) <=
    priority_of (node 2 1 1 5 1 null null) /\
  size_ok (node 1 1 0 5 1 null null) /\ size_ok (node 2 1 1 5 1 null null) /\
  inorder (treapMerge (node 1 1 0 5 1 null null) (node 2 1 1 5 1 null null)) =
    [mkOrder 1 1 0; mkOrder 2 1 1] /\
  order_of (treapMerge (node 1 1 0 5 1 null null) (node 2 1 1 5 1 null null))
    = Some (mkOrder 2 1 1) /\
  getSize (treapMerge (node 1 1 0 5 1 null null) (node 2 1 1 5 1 null null))
    = 1 + 1.
Proof.
  assert (HL : node 1 1 0 5 1 null null <> null) by discriminate.
  assert (HR : node 2 1 1 5 1 null null <> null) by discriminate.
  assert (Hp : priority_of (node 1 1 0 5 1 null null) <=
               priority_of (node 2 1 1 5 1 null null)) by (simpl; lia).
  assert (HsL : size_ok (node 1 1 0 5 1 null null)) by sizes_by_computation.
  assert (HsR : size_ok (node 2 1 1 5 1 null null)) by sizes_by_computation.
  assert (Hfit : getSize (node 1 1 0 5 1 null null) +
                 getSize (node 2 1 1 5 1 null null) <= INT_MAX)
    by compute_done.
  destruct (treapMerge_concatenates (node 1 1 0 5 1 null null)
              (node 2 1 1 5 1 null null)) as (Hin & _ & _ & Hroot & Hsize).
  destruct (Hroot HL HR) as [_ Htie].
  split; [exact HL|]. split; [exact HR|]. split; [exact Hp|].
  split; [exact HsL|]. split; [exact HsR|].
  split; [exact Hin|]. split; [exact (Htie Hp) | exact (Hsize HsL HsR Hfit)].
Defined.

Lemma inorder_treapSplit_app t p i :
  inorder (fst (treapSplit t p i)) ++ inorder (snd (treapSplit t p i))
  = inorder t.
Proof.
  induction t as [|rp rs ri rpr rsz l IHl r IHr]; [done|].
  cbn [treapSplit].
  destruct (lessThan rp ri p i || ((rp =? p) && (ri =? i))); cbn [fst snd];
    rewrite inorder_updateSize; cbn [inorder].
  - by rewrite <- app_assoc, <- app_comm_cons, IHr.
  - by rewrite app_assoc, IHl.
Qed.

(** X4. Splitting a tree at any key and merging the two halves again gives
    back the same orders at the same ranks; on a tree that satisfies the
    invariants so does the merged tree, and it has the same size. *)
Theorem split_then_merge (t : TreapNode) (p i : Z) :
  treap_inv t ->
  let halves := treapSplit t p i in
  inorder (treapMerge (fst halves) (snd halves)) = inorder t /\
  treap_inv (treapMerge (fst halves) (snd halves)) /\
  getSize (treapMerge (fst halves) (snd halves)) = getSize t.
Proof.
  intros (Ho & Hh & Hs) halves. unfold halves.
  destruct (inorder_treapSplit t p i Ho) as [E1 E2].
  destruct (ordered_treapSplit t p i Ho) as [O1 O2].
  destruct (heap_treapSplit t p i Hh) as (H1 & H2 & _).
  destruct (size_ok_treapSplit t p i Hs) as (S1 & S2 & Eg).
  pose proof (size_ok_int t Hs) as Hmax.
  split; [by rewrite inorder_treapMerge, inorder_treapSplit_app|].
  split.
  - apply treap_inv_treapMerge; [done|done| |lia].
    intros a b Ha Hb. rewrite E1 in Ha. rewrite E2 in Hb.
    apply list_elem_of_filter in Ha as [Ha _].
    apply list_elem_of_filter in Hb as [Hb _].
    unfold order_lt, key_lt, key_le in *. lia.
  - destruct (size_ok_treapMerge _ _ S1 S2) as [_ Hg]; [lia|].
    by rewrite Hg.
Qed.

Lemma split_then_merge_witness :
  treap_inv (root example_book) /\
  inorder (treapMerge (fst (treapSplit (root example_book) 10 0))
                      (snd (treapSplit (root example_book) 10 0)))
    = inorder (root example_book).
Proof.
  assert (Hinv : treap_inv (root example_book)) by compute_done.
  split; [exact Hinv|].
  exact (proj1 (split_then_merge (root example_book) 10 0 Hinv)).
Defined.

(** X5. Removing a key that no node carries changes nothing: on a tree with
    consistent sizes [treapRemoveKey] returns the tree it was given. *)
Theorem treapRemoveKey_absent (t : TreapNode) (p i : Z) :
  size_ok t -> Forall (fun o => ~ has_key p i o) (inorder t) ->
  treapRemoveKey t p i = t.
Proof.
  induction t as [|rp rs ri rpr rsz l IHl r IHr]; intros Hok Habs; [done|].
  pose proof Hok as (E & Hb & Hl & Hr).
  cbn [inorder] in Habs. apply Forall_app in Habs as [Hal Har].
  apply Forall_cons in Har as [Hroot Har].
  cbn [treapRemoveKey].
  destruct ((rp =? p) && (ri =? i)) eqn:Ek.
  { apply key_eq_spec in Ek. by destruct Hroot. }
  destruct (lessThan p i rp ri).
  - rewrite IHl by done. by apply (updateSize_id (node _ _ _ _ _ _ _)).
  - rewrite IHr by done. by apply (updateSize_id (node _ _ _ _ _ _ _)).
Qed.

Lemma treapRemoveKey_absent_witness :
  size_ok (root example_book) /\
  Forall (fun o => ~ has_key 10 7 o) (inorder (root example_book)) /\
  treapRemoveKey (root example_book) 10 7 = root example_book.
Proof.
  assert (Hok : size_ok (root example_book)) by sizes_by_computation.
  assert (Habs : Forall (fun o => ~ has_key 10 7 o)
                        (inorder (root example_book))) by compute_done.
  split; [exact Hok|]. split; [exact Habs|].
  exact (treapRemoveKey_absent (root example_book) 10 7 Hok Habs).
Defined.

(** Removing by key is removing by rank, at the rank where the key is. *)
Lemma treapRemoveKey_at_rank t : forall (k : nat) o,
  ordered t -> size_ok t -> inorder t !! k = Some o ->
  treapRemoveKey t (o_price o) (o_sequence o) = removeByRank t (Z.of_nat k).
Proof.
  induction t as [|rp rs ri rpr rsz l IHl r IHr]; intros k o Hord Hok Hk;
    [done|].
  apply ordered_node in Hord as (Hol & Hor & Hlt & Hgt).
  destruct Hok as (E & Hb & Hl & Hr).
  pose proof (size_ok_count l Hl) as El.
  pose proof (size_ok_nonneg r Hr) as Hnr.
  assert (Hklt : (k < length (inorder (node rp rs ri rpr rsz l r)))%nat)
    by (apply lookup_lt_is_Some; eauto).
  cbn [inorder] in Hk, Hklt. rewrite length_app in Hklt. simpl in Hklt.
  pose proof (size_ok_count r Hr) as Er.
  cbn [treapRemoveKey removeByRank].
  destruct (decide (k < length (inorder l))%nat) as [Hkl|Hkl].
  - rewrite lookup_app_l in Hk by done.
    assert (Ho : order_lt o (mkOrder rp rs ri)).
    { apply (proj1 (Forall_forall _ _) Hlt). by eapply list_elem_of_lookup_2. }
    unfold order_lt, key_lt in Ho. simpl in Ho.
    replace ((rp =? o_price o) && (ri =? o_sequence o)) with false
      by (symmetry; apply not_true_iff_false; rewrite key_eq_spec; lia).
    replace (lessThan (o_price o) (o_sequence o) rp ri) with true
      by (symmetry; apply lessThan_spec; unfold key_lt; lia).
    destruct (Z.ltb_spec (Z.of_nat k) (getSize l)); [|lia].
    by rewrite (IHl k o).
  - destruct (decide (k = length (inorder l))) as [->|Hne].
    + rewrite list_lookup_middle in Hk by done. injection Hk as <-.
      simpl. rewrite !Z.eqb_refl. simpl.
      destruct (Z.ltb_spec (Z.of_nat (length (inorder l))) (getSize l));
        [lia|].
      destruct (Z.eqb_spec (Z.of_nat (length (inorder l))) (getSize l));
        [done|lia].
    + rewrite lookup_app_r in Hk by lia.
      replace (k - length (inorder l))%nat
        with (S (k - length (inorder l) - 1)) in Hk by lia.
      simpl in Hk.
      assert (Ho : order_lt (mkOrder rp rs ri) o).
      { apply (proj1 (Forall_forall _ _) Hgt).
        by eapply list_elem_of_lookup_2. }
      unfold order_lt, key_lt in Ho. simpl in Ho.
      replace ((rp =? o_price o) && (ri =? o_sequence o)) with false
        by (symmetry; apply not_true_iff_false; rewrite key_eq_spec; lia).
      replace (lessThan (o_price o) (o_sequence o) rp ri) with false
        by (symmetry; apply lessThan_false; unfold key_le; lia).
      destruct (Z.ltb_spec (Z.of_nat k) (getSize l)); [lia|].
      destruct (Z.eqb_spec (Z.of_nat k) (getSize l)); [lia|].
      rewrite rank_right_exact
        by (unfold is_int, INT_MIN, INT_MAX in *; lia).
      rewrite (IHr (k - length (inorder l) - 1)%nat o) by done.
      do 3 f_equal. lia.
Qed.

(** X6. On a tree that is ordered and has consistent sizes,
    [treapRemoveKey] of the key found at rank [k] returns the very tree
    [removeByRank] returns for [k]: the two removals differ only in how they
    find the node. *)
Theorem treapRemoveKey_is_removeByRank (t : TreapNode) (k : nat) (o : Order) :
  ordered t -> size_ok t -> inorder t !! k = Some o ->
  treapRemoveKey t (o_price o) (o_sequence o) = removeByRank t (Z.of_nat k).
Proof.
  apply treapRemoveKey_at_rank.
Qed.

Lemma treapRemoveKey_is_removeByRank_witness :
  ordered (root example_book) /\ size_ok (root example_book) /\
  inorder (root example_book) !! 1%nat = Some (mkOrder 10 5 0) /\
  treapRemoveKey (root example_book) 10 0 =
    removeByRank (root example_book) (Z.of_nat 1).
Proof.
  assert (Hord : ordered (root example_book)) by compute_done.
  assert (Hok : size_ok (root example_book)) by sizes_by_computation.
  assert (Hk : inorder (root example_book) !! 1%nat = Some (mkOrder 10 5 0))
    by reflexivity.
  split; [exact Hord|]. split; [exact Hok|]. split; [exact Hk|].
  exact (treapRemoveKey_is_removeByRank (root example_book) 1
           (mkOrder 10 5 0) Hord Hok Hk).
Defined.

(** X7. On a tree that is ordered and has consistent sizes, removing a key
    that is there removes the one order that carries it and nothing else:
    the other orders keep their relative ranks, the size drops by one, and
    the key is in the tree no more. *)
Theorem treapRemoveKey_present (t : TreapNode) (k : nat) (o : Order) :
  ordered t -> size_ok t -> inorder t !! k = Some o ->
  let t' := treapRemoveKey t (o_price o) (o_sequence o) in
  inorder t' = delete k (inorder t) /\
  getSize t' = getSize t - 1 /\
  size_ok t' /\
  Forall (fun e => ~ has_key (o_price o) (o_sequence o) e) (inorder t').
Proof.
  intros Hord Hok Hk t'. unfold t'.
  rewrite (treapRemoveKey_at_rank t k o Hord Hok Hk).
  assert (Hlt : (k < length (inorder t))%nat)
    by (apply lookup_lt_is_Some; eauto).
  destruct (removeByRank_in_range t (Z.of_nat k) Hok) as (Ei & Hs & Eg).
  { rewrite (size_ok_count t Hok). lia. }
  rewrite Nat2Z.id in Ei.
  split; [done|]. split; [done|]. split; [done|].
  rewrite <- (treapRemoveKey_at_rank t k o Hord Hok Hk).
  rewrite (inorder_treapRemoveKey t (o_price o) (o_sequence o) Hord).
  apply Forall_forall. intros e He. by apply list_elem_of_filter in He as [He _].
Qed.

Lemma treapRemoveKey_present_witness :
  ordered (root example_book) /\ size_ok (root example_book) /\
  inorder (root example_book) !! 1%nat = Some (mkOrder 10 5 0) /\
  inorder (treapRemoveKey (root example_book) 10 0) =
    delete 1%nat (inorder (root example_book)) /\
  getSize (treapRemoveKey (root example_book) 10 0) =
    getSize (root example_book) - 1.
Proof.
  assert (Hord : ordered (root example_book)) by compute_done.
  assert (Hok : size_ok (root example_book)) by sizes_by_computation.
  assert (Hk : inorder (root example_book) !! 1%nat = Some (mkOrder 10 5 0))
    by reflexivity.
  destruct (treapRemoveKey_present (root example_book) 1 (mkOrder 10 5 0)
              Hord Hok Hk) as (H1 & H2 & _).
  split; [exact Hord|]. split; [exact Hok|]. split; [exact Hk|].
  split; [exact H1 | exact H2].
Defined.

Lemma filter_insert_order_fresh o l :
  Forall (fun e => ~ has_key (o_price o) (o_sequence o) e) l ->
  filter (fun e => ~ has_key (o_price o) (o_sequence o) e) (insert_order o l)
  = l.
Proof.
  intros Hfresh.
  assert (Ho : ~ ~ has_key (o_price o) (o_sequence o) o)
    by (intros Hn; by apply Hn).
  induction Hfresh as [|e l He Hfresh IH]; simpl.
  - by rewrite filter_cons_False.
  - destruct (lessThan _ _ _ _).
    + rewrite filter_cons_False by done.
      rewrite filter_cons_True by done. by rewrite filter_all.
    + rewrite filter_cons_True by done. by rewrite IH.
Qed.

(** X8. Inserting an order under a key the tree does not hold and removing
    that key again gives back the same orders at the same ranks, in a tree
    of the same size that satisfies the invariants. *)
Theorem insert_then_removeKey {RandState}
        (rand : RandState -> Z * RandState) (t : TreapNode) (p s i : Z)
        (g : RandState) :
  treap_inv t ->
  Forall (fun o => ~ has_key p i o) (inorder t) ->
  getSize t < INT_MAX ->
  let t' := treapRemoveKey (fst (treapInsert rand t p s i g)) p i in
  inorder t' = inorder t /\ getSize t' = getSize t /\ treap_inv t'.
Proof.
  intros Hinv Hfresh Hcap t'. unfold t'.
  rewrite treapInsert_insert_with. cbn [fst].
  set (t1 := insert_with (fst (draw_priority rand g)) t p s i).
  assert (Hinv1 : treap_inv t1) by by apply treap_inv_insert_with.
  pose proof Hinv as (Ho & Hh & Hs). pose proof Hinv1 as (Ho1 & Hh1 & Hs1).
  assert (E : inorder (treapRemoveKey t1 p i) = inorder t).
  { rewrite inorder_treapRemoveKey by done. unfold t1.
    rewrite inorder_insert_with by done.
    by apply (filter_insert_order_fresh (mkOrder p s i)). }
  destruct (size_ok_treapRemoveKey t1 p i Hs1) as [Hs' _].
  split; [done|]. split.
  - by rewrite (size_ok_count _ Hs'), E, <- (size_ok_count t Hs).
  - repeat split; [by apply ordered_treapRemoveKey
                  |by apply heap_treapRemoveKey|done].
Qed.

Lemma insert_then_removeKey_witness :
  treap_inv (root example_book) /\
  Forall (fun o => ~ has_key 8 3 o) (inorder (root example_book)) /\
  getSize (root example_book) < INT_MAX /\
  inorder (treapRemoveKey
             (fst (treapInsert lcg_rand (root example_book) 8 6 3 1)) 8 3)
    = inorder (root example_book).
Proof.
  assert (Hinv : treap_inv (root example_book)) by compute_done.
  assert (Hfresh : Forall (fun o => ~ has_key 8 3 o)
                          (inorder (root example_book))) by compute_done.
  assert (Hcap : getSize (root example_book) < INT_MAX) by compute_done.
  split; [exact Hinv|]. split; [exact Hfresh|]. split; [exact Hcap|].
  exact (proj1 (insert_then_removeKey lcg_rand (root example_book) 8 6 3 1
                  Hinv Hfresh Hcap)).
Defined.

Lemma insert_order_by_price o l :
  StronglySorted order_lt l ->
  Forall (fun e => o_sequence e < o_sequence o) l ->
  insert_order o l =
  filter (fun e => o_price e <= o_price o) l ++
  o :: filter (fun e => o_price o < o_price e) l.
Proof.
  intros Hs Hseq. induction l as [|e l IH]; [done|].
  apply StronglySorted_cons in Hs as [Hall Hs].
  apply Forall_cons in Hseq as [He Hseq]. simpl.
  destruct (lessThan _ _ _ _) eqn:E.
  - apply lessThan_spec in E. unfold key_lt in E.
    assert (Hp : o_price o < o_price e) by lia.
    rewrite (filter_none (fun e => o_price e <= o_price o) (e :: l)),
      (filter_all (fun e0 => o_price o < o_price e0) (e :: l)); [done| |].
    + apply Forall_cons. split; [done|].
      eapply Forall_impl; [exact Hall|]. intros x Hx.
      unfold order_lt, key_lt in Hx. lia.
    + apply Forall_cons. split; [lia|].
      eapply Forall_impl; [exact Hall|]. intros x Hx.
      unfold order_lt, key_lt in Hx. lia.
  - apply lessThan_false in E. unfold key_le in E.
    rewrite filter_cons_True by lia. rewrite filter_cons_False by lia.
    by rewrite IH.
Qed.

(** X9. Price-time priority of [add]: on a book that satisfies the book
    invariants, with room for one more order, the new order goes behind
    every resting order whose price is not higher and before every order
    whose price is higher; [getByRank] finds it at the rank that is the
    number of resting orders with a price not higher. *)
Theorem add_ranks_by_price_then_time {RandState}
        (rand : RandState -> Z * RandState) (ob : OrderBook RandState)
        (p q : Z) :
  book_inv ob -> globalInsertionCounter ob < INT_MAX ->
  let o := mkOrder p q (globalInsertionCounter ob) in
  let before := filter (fun e => o_price e <= p) (resting ob) in
  resting (add rand ob p q) =
    before ++ o :: filter (fun e => p < o_price e) (resting ob) /\
  order_of (getByRank (root (add rand ob p q)) (Z.of_nat (length before)))
    = Some o.
Proof.
  intros Hinv Hcap o before.
  destruct (book_inv_add rand ob p q Hinv Hcap) as (Hinv' & E & _).
  destruct Hinv as ((Ho & _ & Hs) & Hseq & _).
  destruct Hinv' as ((_ & _ & Hs') & _ & Hsz').
  assert (E' : resting (add rand ob p q) =
               before ++ o :: filter (fun e => p < o_price e) (resting ob)).
  { rewrite E. apply (insert_order_by_price o); [done|].
    eapply Forall_impl; [exact Hseq|]. intros e He. simpl in *. lia. }
  split; [done|].
  assert (Hlen : (length before <= length (resting ob))%nat)
    by apply length_filter.
  unfold resting in *.
  rewrite getByRank_lookup; [|done| |lia].
  - by rewrite Nat2Z.id, E', list_lookup_middle.
  - pose proof (size_ok_int _ Hs). rewrite (size_ok_count _ Hs) in *.
    unfold is_int, INT_MIN, INT_MAX in *. lia.
Qed.

Lemma add_ranks_by_price_then_time_witness :
  book_inv example_book /\ globalInsertionCounter example_book < INT_MAX /\
  resting (lcg_add example_book 10 9) =
    [mkOrder 7 4 2; mkOrder 10 5 0; mkOrder 10 3 1; mkOrder 10 9 3] /\
  order_of (getByRank (root (add lcg_rand example_book 10 9))
              (Z.of_nat (length (filter (fun e => o_price e <= 10)
                                        (resting example_book)))))
    = Some (mkOrder 10 9 (globalInsertionCounter example_book)).
Proof.
  assert (Hinv : book_inv example_book) by compute_done.
  assert (Hcap : globalInsertionCounter example_book < INT_MAX)
    by compute_done.
  split; [exact Hinv|]. split; [exact Hcap|]. split; [reflexivity|].
  exact (proj2 (add_ranks_by_price_then_time lcg_rand example_book 10 9
                  Hinv Hcap)).
Defined.

(** X10. An [add] draws exactly two values from the generator, whatever the
    book and the arguments: after a run of [add] calls the generator has
    advanced by twice their number, so the priorities the nodes get do not
    depend on prices or sizes; and the counter has advanced by their
    number. *)
Theorem add_all_draws_two_each {RandState}
        (rand : RandState -> Z * RandState) (ob : OrderBook RandState)
        (adds : list (Z * Z)) :
  rand_state (add_all rand ob adds) =
    Nat.iter (2 * length adds) (fun g => snd (rand g)) (rand_state ob) /\
  (globalInsertionCounter ob + Z.of_nat (length adds) <= LLONG_MAX ->
   0 <= globalInsertionCounter ob ->
   globalInsertionCounter (add_all rand ob adds) =
     globalInsertionCounter ob + Z.of_nat (length adds)).
Proof.
  revert ob. induction adds as [|[p q] adds IH]; intros ob.
  - split; [done|]. intros _ _. simpl. lia.
  - destruct (IH (add rand ob p q)) as [IHg IHc].
    assert (Eg : rand_state (add rand ob p q) =
                 snd (rand (snd (rand (rand_state ob))))).
    { rewrite add_unfold. cbn [rand_state]. unfold draw_priority.
      destruct (rand (rand_state ob)) as [r1 g1]. cbn [snd].
      by destruct (rand g1) as [r2 g2]. }
    assert (Ec : globalInsertionCounter (add rand ob p q) =
                 add64 (globalInsertionCounter ob) 1)
      by by rewrite add_unfold.
    unfold add_all in *. cbn [foldl fst snd length]. split.
    + rewrite IHg, Eg.
      replace (2 * S (length adds))%nat with (2 * length adds + 2)%nat by lia.
      by rewrite Nat.iter_add.
    + intros Hcap Hnn. rewrite Nat2Z.inj_succ in Hcap.
      assert (Es : add64 (globalInsertionCounter ob) 1 =
                   globalInsertionCounter ob + 1).
      { unfold add64. apply wrap64_exact.
        unfold is_long_long, LLONG_MIN, LLONG_MAX in *. lia. }
      rewrite IHc; rewrite Ec, Es; lia.
Qed.

Lemma add_all_draws_two_each_witness :
  rand_state example_book =
    Nat.iter 6 (fun g => snd (lcg_rand g)) (rand_state lcg_book) /\
  globalInsertionCounter example_book = 3.
Proof.
  destruct (add_all_draws_two_each lcg_rand lcg_book [(10, 5); (10, 3); (7, 4)])
    as [Hg Hc].
  split; [exact Hg|].
  apply Hc; compute_done.
Defined.

(** * Further properties of [buy] *)

Lemma total_quantity_nonneg l :
  Forall valid_quantity l -> 0 <= total_quantity l.
Proof.
  induction 1 as [|x l Hx _ IH]; simpl; [done|].
  unfold valid_quantity in Hx. lia.
Qed.

(** What the loop takes and what it leaves. *)
Lemma walk_total l : forall shares c,
  Forall valid_quantity l -> shares <= LLONG_MAX ->
  total_quantity (fst (walk l shares c)) =
    total_quantity l - Z.min (Z.max shares 0) (total_quantity l) /\
  Forall valid_quantity (fst (walk l shares c)).
Proof.
  induction l as [|o rest IH]; intros shares c Hall Hs; simpl.
  - split; [lia|done].
  - pose proof Hall as Hall0.
    apply Forall_cons in Hall as [Hq Hall]. unfold valid_quantity in Hq.
    pose proof (total_quantity_nonneg rest Hall) as Hnn.
    destruct (Z.ltb_spec 0 shares) as [Hpos|Hnpos];
      [|split; [simpl; lia|done]].
    destruct (fill_exact shares (o_quantity o)) as [E1 E2]; [lia|lia|].
    rewrite E1, E2.
    destruct (Z.eqb_spec (o_quantity o - Z.min shares (o_quantity o)) 0)
      as [Hz|Hnz].
    + destruct (IH (shares - Z.min shares (o_quantity o))
                   (add64 c (mul64 (Z.min shares (o_quantity o)) (o_price o)))
                   Hall) as [IH1 IH2]; [lia|].
      split; [|done]. rewrite IH1. lia.
    + cbn [fst total_quantity foldr set_quantity o_quantity].
      split; [fold (total_quantity rest); lia|].
      apply Forall_cons. split; [|done].
      unfold valid_quantity. simpl. lia.
Qed.

(** X11. Units are conserved: on a book with consistent sizes and valid
    quantities, [buy Q] returns (with more fuel than there are resting
    orders), it takes [min(Q, total)] units out of the book ([0] for
    [Q <= 0]), and every order it leaves still has a valid (positive)
    quantity. *)
Theorem buy_conserves_units {RandState} (fuel : nat)
        (ob : OrderBook RandState) (Q : Z) :
  size_ok (root ob) -> Forall valid_quantity (resting ob) ->
  Q <= LLONG_MAX -> (length (resting ob) < fuel)%nat ->
  exists ob' cost,
    buy fuel ob Q = Some (ob', cost) /\
    total_quantity (resting ob') =
      total_quantity (resting ob)
      - Z.min (Z.max Q 0) (total_quantity (resting ob)) /\
    Forall valid_quantity (resting ob').
Proof.
  intros Hok Hall HQ Hfuel.
  destruct (buy_spec fuel ob Q Hok Hfuel) as (t' & Hb & Hi & _).
  eexists _, _. split; [exact Hb|].
  unfold resting in *. cbn [root]. rewrite Hi.
  by apply walk_total.
Qed.

Lemma buy_conserves_units_witness :
  size_ok (root example_book) /\
  Forall valid_quantity (resting example_book) /\
  5 <= LLONG_MAX /\ (length (resting example_book) < 4)%nat /\
  buy 4 example_book 5 =
    Some (mkOrderBook
            (node 10 3 1 895712577 2 (node 10 4 0 234921785 1 null null) null)
            3 2003110913, 38) /\
  exists ob' cost,
    buy 4 example_book 5 = Some (ob', cost) /\
    total_quantity (resting ob') =
      total_quantity (resting example_book)
      - Z.min (Z.max 5 0) (total_quantity (resting example_book)).
Proof.
  assert (Hok : size_ok (root example_book)) by sizes_by_computation.
  assert (Hv : Forall valid_quantity (resting example_book)) by compute_done.
  assert (HQ : 5 <= LLONG_MAX) by compute_done.
  assert (Hfuel : (length (resting example_book) < 4)%nat)
    by (vm_compute; lia).
  split; [exact Hok|]. split; [exact Hv|]. split; [exact HQ|].
  split; [exact Hfuel|]. split; [reflexivity|].
  destruct (buy_conserves_units 4 example_book 5 Hok Hv HQ Hfuel)
    as (ob' & cost & Hb & Ht & _).
  exists ob', cost. split; [exact Hb | exact Ht].
Defined.

Lemma walk_front l : forall shares c,
  Forall valid_quantity l -> shares <= LLONG_MAX ->
  exists k : nat,
    fst (walk l shares c) = drop k l \/
    exists o rest v,
      drop k l = o :: rest /\
      fst (walk l shares c) = set_quantity v o :: rest /\
      0 < v < o_quantity o.
Proof.
  induction l as [|o rest IH]; intros shares c Hall Hs; simpl.
  - exists 0%nat. by left.
  - apply Forall_cons in Hall as [Hq Hall]. unfold valid_quantity in Hq.
    destruct (Z.ltb_spec 0 shares) as [Hpos|Hnpos];
      [|exists 0%nat; by left].
    destruct (fill_exact shares (o_quantity o)) as [E1 E2]; [lia|lia|].
    rewrite E1, E2.
    destruct (Z.eqb_spec (o_quantity o - Z.min shares (o_quantity o)) 0)
      as [Hz|Hnz].
    + destruct (IH (shares - Z.min shares (o_quantity o))
                   (add64 c (mul64 (Z.min shares (o_quantity o)) (o_price o)))
                   Hall) as [k Hk]; [lia|].
      exists (S k). exact Hk.
    + exists 0%nat. right.
      exists o, rest, (o_quantity o - Z.min shares (o_quantity o)).
      repeat split; try done; lia.
Qed.

(** X12. [buy] consumes strictly in rank order: on a book with consistent
    sizes and valid quantities [buy Q] returns (with more fuel than there are
    resting orders) and there is a [k] such that the [k] best orders are
    gone, every later rank [j >= 1] of the new book holds, unchanged, the
    order that was at rank [k + j], and the order now at rank 0, if any, is
    the one that was at rank [k], with the same price and sequence number and
    a quantity that is positive and not larger than before. *)
Theorem buy_consumes_in_rank_order {RandState} (fuel : nat)
        (ob : OrderBook RandState) (Q : Z) :
  size_ok (root ob) -> Forall valid_quantity (resting ob) ->
  Q <= LLONG_MAX -> (length (resting ob) < fuel)%nat ->
  exists ob' cost (k : nat),
    buy fuel ob Q = Some (ob', cost) /\
    (forall j : nat, (0 < j)%nat ->
       resting ob' !! j = resting ob !! (k + j)%nat) /\
    (forall h, resting ob' !! 0%nat = Some h ->
       exists o, resting ob !! k = Some o /\
                 h = set_quantity (o_quantity h) o /\
                 0 < o_quantity h <= o_quantity o).
Proof.
  intros Hok Hall HQ Hfuel.
  destruct (buy_spec fuel ob Q Hok Hfuel) as (t' & Hb & Hi & _).
  destruct (walk_front (resting ob) Q 0 Hall HQ) as [k Hk].
  exists (mkOrderBook t' (globalInsertionCounter ob) (rand_state ob)),
         (snd (walk (resting ob) Q 0)), k.
  split; [exact Hb|].
  unfold resting in *. cbn [root]. rewrite Hi.
  destruct Hk as [->|(o & rest & v & Hd & -> & Hv)].
  - split.
    + intros j _. by rewrite lookup_drop.
    + intros h Hh. rewrite lookup_drop, Nat.add_0_r in Hh.
      exists h. split; [done|]. split; [by destruct h|].
      assert (Hin : h ∈ inorder (root ob))
        by (by eapply list_elem_of_lookup_2).
      apply (proj1 (Forall_forall _ _) Hall) in Hin.
      unfold valid_quantity in Hin. lia.
  - split.
    + intros [|j] Hj; [lia|]. simpl.
      rewrite <- lookup_drop, Hd. done.
    + intros h Hh. simpl in Hh. injection Hh as <-.
      exists o. split.
      * rewrite <- (Nat.add_0_r k), <- lookup_drop, Hd. done.
      * simpl. split; [done|lia].
Qed.

Lemma buy_consumes_in_rank_order_witness :
  size_ok (root example_book) /\
  Forall valid_quantity (resting example_book) /\
  5 <= LLONG_MAX /\ (length (resting example_book) < 4)%nat /\
  buy 4 example_book 5 =
    Some (mkOrderBook
            (node 10 3 1 895712577 2 (node 10 4 0 234921785 1 null null) null)
            3 2003110913, 38) /\
  exists ob' cost (k : nat),
    buy 4 example_book 5 = Some (ob', cost) /\
    (forall j : nat, (0 < j)%nat ->
       resting ob' !! j = resting example_book !! (k + j)%nat).
Proof.
  assert (Hok : size_ok (root example_book)) by sizes_by_computation.
  assert (Hv : Forall valid_quantity (resting example_book)) by compute_done.
  assert (HQ : 5 <= LLONG_MAX) by compute_done.
  assert (Hfuel : (length (resting example_book) < 4)%nat)
    by (vm_compute; lia).
  split; [exact Hok|]. split; [exact Hv|]. split; [exact HQ|].
  split; [exact Hfuel|]. split; [reflexivity|].
  destruct (buy_consumes_in_rank_order 4 example_book 5 Hok Hv HQ Hfuel)
    as (ob' & cost & k & Hb & Hk & _).
  exists ob', cost, k. split; [exact Hb | exact Hk].
Defined.

(** Two fills in a row are one fill of the sum. *)
Lemma walk_walk l : forall a b c,
  Forall valid_quantity l -> 0 <= a -> 0 <= b -> a + b <= LLONG_MAX ->
  walk (fst (walk l a c)) b (snd (walk l a c)) = walk l (a + b) c.
Proof.
  induction l as [|o rest IH]; intros a b c Hall Ha Hb Hab; [done|].
  apply Forall_cons in Hall as [Hq Hall]. unfold valid_quantity in Hq.
  cbn [walk].
  destruct (Z.ltb_spec 0 a) as [Hpa|Hza].
  - destruct (Z.ltb_spec 0 (a + b)) as [_|?]; [|lia].
    destruct (fill_exact a (o_quantity o)) as [E1 E2]; [lia|lia|].
    destruct (fill_exact (a + b) (o_quantity o)) as [F1 F2]; [lia|lia|].
    rewrite E1, E2, F1, F2.
    destruct (Z.le_gt_cases (o_quantity o) a) as [Hle|Hgt].
    + rewrite (Z.min_r a), (Z.min_r (a + b)) by lia.
      rewrite Z.sub_diag. cbn [Z.eqb].
      rewrite IH by (done || lia). f_equal. lia.
    + rewrite (Z.min_l a) by lia.
      destruct (Z.eqb_spec (o_quantity o - a) 0) as [?|_]; [lia|].
      cbn [fst snd walk set_quantity o_quantity o_price o_sequence].
      destruct (Z.ltb_spec 0 b) as [Hpb|Hzb].
      * destruct (fill_exact b (o_quantity o - a)) as [G1 G2]; [lia|lia|].
        rewrite G1, G2.
        assert (Hcost : forall x y,
          x + y = Z.min (a + b) (o_quantity o) -> x = a ->
          add64 (add64 c (mul64 x (o_price o))) (mul64 y (o_price o)) =
          add64 c (mul64 (Z.min (a + b) (o_quantity o)) (o_price o))).
        { intros x y Hxy ->. unfold add64, mul64.
          rewrite wrap_add_l, wrap_add_r by lia.
          replace (c + wrap 64 (a * o_price o) + y * o_price o)
            with (c + y * o_price o + wrap 64 (a * o_price o)) by lia.
          rewrite !wrap_add_r by lia. f_equal. rewrite <- Hxy. lia. }
        destruct (Z.le_gt_cases (o_quantity o - a) b) as [Hle2|Hgt2].
        -- rewrite (Z.min_r b) by lia. rewrite Z.sub_diag. cbn [Z.eqb].
           rewrite (Z.min_r (a + b)) in * by lia.
           rewrite Z.sub_diag. cbn [Z.eqb].
           rewrite (Hcost a (o_quantity o - a)) by lia.
           f_equal. lia.
        -- rewrite (Z.min_l b) by lia.
           rewrite (Z.min_l (a + b)) in * by lia.
           destruct (Z.eqb_spec (o_quantity o - a - b) 0) as [?|_]; [lia|].
           destruct (Z.eqb_spec (o_quantity o - (a + b)) 0) as [?|_]; [lia|].
           rewrite (Hcost a b) by lia.
           unfold set_quantity. simpl. do 3 f_equal. lia.
      * assert (b = 0) as -> by lia. rewrite Z.add_0_r.
        rewrite (Z.min_l a) by lia.
        destruct (Z.eqb_spec (o_quantity o - a) 0) as [?|_]; [lia|]. done.
  - assert (a = 0) as -> by lia. cbn [fst snd]. by rewrite Z.add_0_l.
Qed.

(** What the loop leaves does not depend on the cost so far. *)
Lemma walk_fst_cost l : forall shares c c',
  fst (walk l shares c) = fst (walk l shares c').
Proof.
  induction l as [|o rest IH]; intros shares c c'; [done|].
  simpl. destruct (0 <? shares); [|done].
  destruct (_ =? 0); [apply IH|done].
Qed.

(** X13. Two purchases in a row are one purchase of the sum: on a book with
    consistent sizes and valid quantities, [buy Q1], [buy Q2] after it (both
    non-negative, their sum a [long long]) and [buy (Q1 + Q2)] all return
    (with more fuel than there are resting orders); the two purchases in a
    row leave the same resting orders as the single one, and the two costs
    add up, in 64-bit arithmetic, to the cost of the single purchase. *)
Theorem buy_twice_is_buy_sum {RandState} (fuel : nat)
        (ob : OrderBook RandState) (Q1 Q2 : Z) :
  size_ok (root ob) -> Forall valid_quantity (resting ob) ->
  0 <= Q1 -> 0 <= Q2 -> Q1 + Q2 <= LLONG_MAX ->
  (length (resting ob) < fuel)%nat ->
  exists ob1 c1 ob2 c2 ob12 c12,
    buy fuel ob Q1 = Some (ob1, c1) /\
    buy fuel ob1 Q2 = Some (ob2, c2) /\
    buy fuel ob (Q1 + Q2) = Some (ob12, c12) /\
    resting ob2 = resting ob12 /\ add64 c1 c2 = c12.
Proof.
  intros Hok Hall H1 H2 Hsum Hfuel.
  destruct (buy_spec fuel ob Q1 Hok Hfuel) as (t1 & Hb1 & I1 & S1).
  destruct (buy_spec fuel ob (Q1 + Q2) Hok Hfuel) as (t12 & Hb12 & I12 & _).
  set (ob1 := mkOrderBook t1 (globalInsertionCounter ob) (rand_state ob))
    in *.
  assert (Hfuel1 : (length (resting ob1) < fuel)%nat).
  { unfold resting, ob1 in *. cbn [root]. rewrite I1.
    destruct (walk_keeps (fun _ => True) (inorder (root ob)) Q1 0) as [_ Hlen];
      [done | by apply Forall_true | lia]. }
  destruct (buy_spec fuel ob1 Q2 S1 Hfuel1) as (t2 & Hb2 & I2 & _).
  eexists ob1, _, _, _, _, _.
  split; [exact Hb1|]. split; [exact Hb2|]. split; [exact Hb12|].
  unfold resting, ob1 in *. cbn [root] in *.
  set (l := inorder (root ob)) in *.
  destruct (walk_total l Q1 0 Hall) as [_ Hv1]; [lia|].
  pose proof (walk_walk l Q1 Q2 0 Hall H1 H2 Hsum) as W.
  split.
  - rewrite I2, I12, <- W, I1. apply walk_fst_cost.
  - rewrite <- W, I1.
    rewrite (walk_cost_0 l Q1 Hall) by lia.
    rewrite (walk_cost_0 _ Q2 Hv1) by lia.
    rewrite (walk_cost _ Q2 (reference_cost l Q1) Hv1) by lia.
    unfold add64. by rewrite wrap_add_l, wrap_add_r by lia.
Qed.

Lemma buy_twice_is_buy_sum_witness :
  size_ok (root example_book) /\
  Forall valid_quantity (resting example_book) /\
  0 <= 2 /\ 0 <= 3 /\ 2 + 3 <= LLONG_MAX /\
  (length (resting example_book) < 4)%nat /\
  buy 4 example_book 2 =
    Some (mkOrderBook
            (node 7 2 2 973731685 3 null
               (node 10 3 1 895712577 2 (node 10 5 0 234921785 1 null null)
                  null)) 3 2003110913, 14) /\
  buy 4 example_book (2 + 3) =
    Some (mkOrderBook
            (node 10 3 1 895712577 2 (node 10 4 0 234921785 1 null null) null)
            3 2003110913, 38) /\
  exists ob1 c1 ob2 c2 ob12 c12,
    buy 4 example_book 2 = Some (ob1, c1) /\
    buy 4 ob1 3 = Some (ob2, c2) /\
    buy 4 example_book (2 + 3) = Some (ob12, c12) /\
    resting ob2 = resting ob12 /\ add64 c1 c2 = c12.
Proof.
  assert (Hok : size_ok (root example_book)) by sizes_by_computation.
  assert (Hv : Forall valid_quantity (resting example_book)) by compute_done.
  assert (H1 : 0 <= 2) by lia.
  assert (H2 : 0 <= 3) by lia.
  assert (Hs : 2 + 3 <= LLONG_MAX) by compute_done.
  assert (Hfuel : (length (resting example_book) < 4)%nat)
    by (vm_compute; lia).
  split; [exact Hok|]. split; [exact Hv|]. split; [exact H1|].
  split; [exact H2|]. split; [exact Hs|]. split; [exact Hfuel|].
  split; [reflexivity|]. split; [reflexivity|].
  exact (buy_twice_is_buy_sum 4 example_book 2 3 Hok Hv H1 H2 Hs Hfuel).
Defined.

(** With [int] prices the reference cost of [q] units is within [q] times
    the range of a price. *)
Lemma reference_cost_bounds l : forall q,
  Forall valid_quantity l -> Forall (fun o => is_int (o_price o)) l ->
  0 <= q ->
  q * INT_MIN <= reference_cost l q <= q * INT_MAX.
Proof.
  unfold INT_MIN, INT_MAX.
  induction l as [|o rest IH]; intros q Hv Hp Hq; simpl; [lia|].
  apply Forall_cons in Hv as [Hqo Hv]. apply Forall_cons in Hp as [Hpo Hp].
  unfold valid_quantity in Hqo. unfold is_int, INT_MIN, INT_MAX in Hpo.
  destruct (Z.ltb_spec 0 q) as [Hpos|_]; [|lia].
  set (u := Z.min q (o_quantity o)).
  assert (Hu : 0 < u <= q) by (unfold u; lia).
  specialize (IH (q - u) Hv Hp ltac:(lia)).
  nia.
Qed.

(** X14. The closing purchase cannot overflow: on a book with consistent
    sizes, valid quantities and [int] prices, [buyFinal] returns (with more
    fuel than there are orders) exactly the reference cost of 1000 units, no
    wrap-around involved, and that cost lies between [1000 * INT_MIN] and
    [1000 * INT_MAX]. *)
Theorem buyFinal_is_exact {RandState} (fuel : nat)
        (ob : OrderBook RandState) :
  size_ok (root ob) -> Forall valid_quantity (resting ob) ->
  Forall (fun o => is_int (o_price o)) (resting ob) ->
  (length (resting ob) < fuel)%nat ->
  exists ob',
    buyFinal fuel ob = Some (ob', reference_cost (resting ob) 1000) /\
    1000 * INT_MIN <= reference_cost (resting ob) 1000 <= 1000 * INT_MAX.
Proof.
  intros Hok Hv Hp Hfuel. unfold buyFinal.
  destruct (buy_spec fuel ob 1000 Hok Hfuel) as (t' & Hb & _ & _).
  pose proof (reference_cost_bounds (resting ob) 1000 Hv Hp ltac:(lia)) as Hbd.
  rewrite walk_cost_0 in Hb by (done || unfold LLONG_MAX; lia).
  rewrite wrap64_exact in Hb
    by (unfold is_long_long, LLONG_MIN, LLONG_MAX, INT_MIN, INT_MAX in *; lia).
  eauto.
Qed.

Lemma buyFinal_is_exact_witness :
  size_ok (root example_book) /\
  Forall valid_quantity (resting example_book) /\
  Forall (fun o => is_int (o_price o)) (resting example_book) /\
  reference_cost (resting example_book) 1000 = 108 /\
  exists ob',
    buyFinal 4 example_book =
      Some (ob', reference_cost (resting example_book) 1000).
Proof.
  assert (Hok : size_ok (root example_book)) by sizes_by_computation.
  assert (Hv : Forall valid_quantity (resting example_book)) by compute_done.
  assert (Hp : Forall (fun o => is_int (o_price o)) (resting example_book))
    by compute_done.
  assert (Hfuel : (length (resting example_book) < 4)%nat)
    by (vm_compute; lia).
  split; [exact Hok|]. split; [exact Hv|]. split; [exact Hp|].
  split; [reflexivity|].
  destruct (buyFinal_is_exact 4 example_book Hok Hv Hp Hfuel) as (ob' & Hb & _).
  exists ob'. exact Hb.
Defined.

(** * Properties of [main] *)

Example example_commands_main :
  main lcg_rand lcg_srand 5 example_commands = Some 60.
Proof.
  reflexivity.
Qed.

Lemma wrap32_is_int x : is_int (wrap 32 x).
Proof.
  unfold is_int, INT_MIN, INT_MAX, wrap. change (32 - 1) with 31.
  pose proof (Z.mod_pos_bound (x + 2 ^ 31) (2 ^ 32) ltac:(lia)). lia.
Qed.

Lemma buy_returns {RandState} fuel (ob : OrderBook RandState) shares :
  book_inv ob -> globalInsertionCounter ob < Z.of_nat fuel ->
  exists ob' cost, buy fuel ob shares = Some (ob', cost).
Proof.
  intros ((_ & _ & Hok) & _ & Hsz) Hfuel.
  destruct (buy_spec fuel ob shares Hok) as (t' & Hb & _).
  - unfold book_size, resting in *. rewrite (size_ok_count _ Hok) in Hsz. lia.
  - eauto.
Qed.

Lemma priced_valid_execute {RandState} (rand : RandState -> Z * RandState)
      fuel (ob ob' : OrderBook RandState) c :
  book_inv ob -> globalInsertionCounter ob < INT_MAX ->
  cmd_typed c -> cmd_adds_valid c -> priced_valid ob ->
  execute rand fuel ob c = Some ob' -> priced_valid ob'.
Proof.
  intros Hinv Hcap Hty Hval [Hv Hp] Hex.
  destruct c as [price sz|pos|sz|]; simpl in *.
  - injection Hex as <-.
    destruct (book_inv_add rand ob (wrap 32 price) sz Hinv Hcap) as (_ & E & _).
    unfold priced_valid. rewrite E, !insert_order_perm.
    split; apply Forall_cons; split; try done.
    + unfold valid_quantity, is_long_long in *. simpl. lia.
    + apply wrap32_is_int.
  - injection Hex as <-. destruct Hinv as ((_ & _ & Hok) & _).
    unfold priced_valid, resting, removeByPosition in *. cbn [root].
    destruct (decide (0 <= pos < getSize (root ob))) as [Hin|Hout].
    + destruct (removeByRank_in_range (root ob) pos Hok Hin) as (-> & _).
      split; by apply Forall_delete.
    + by rewrite removeByRank_out_of_range by (assumption || lia).
  - destruct (buy fuel ob sz) as [[ob1 c1]|] eqn:E; [|done].
    injection Hex as <-. destruct Hinv as ((_ & _ & Hok) & _).
    unfold buy in E.
    destruct (buy_loop fuel (root ob) sz 0) as [[t c]|] eqn:E'; [|done].
    injection E as <- <-.
    destruct (buy_loop_result _ _ _ _ _ _ Hok E') as (Hi & _).
    unfold priced_valid, resting in *. cbn [root]. rewrite Hi. split.
    + apply walk_total; [done|]. unfold is_long_long in Hty. lia.
    + by apply (walk_keeps (fun o => is_int (o_price o))).
  - by injection Hex as <-.
Qed.

Lemma book_inv_execute {RandState} (rand : RandState -> Z * RandState)
      fuel (ob : OrderBook RandState) c :
  book_inv ob -> globalInsertionCounter ob < INT_MAX ->
  globalInsertionCounter ob < Z.of_nat fuel -> cmd_typed c ->
  exists ob',
    execute rand fuel ob c = Some ob' /\ book_inv ob' /\
    globalInsertionCounter ob' <= globalInsertionCounter ob + 1.
Proof.
  intros Hinv Hcap Hfuel Hty.
  destruct c as [price sz|pos|sz|]; simpl in *.
  - destruct (book_inv_add rand ob (wrap 32 price) sz Hinv Hcap)
      as (Hinv' & _ & C).
    eexists. split; [done|]. split; [done|lia].
  - eexists. split; [done|].
    split; [by apply book_inv_removeByPosition|simpl; lia].
  - destruct (buy_returns fuel ob sz Hinv Hfuel) as (ob' & cost & E).
    rewrite E. exists ob'. split; [done|].
    split; [by eapply book_inv_buy|].
    unfold buy in E. destruct (buy_loop _ _ _ _) as [[t c]|]; [|done].
    injection E as <- _. simpl. lia.
  - exists ob. split; [done|]. split; [done|lia].
Qed.

(** The loop of [main] on any stream of commands. *)
Lemma main_loop_spec {RandState} (rand : RandState -> Z * RandState)
      fuel cmds : forall i (ob : OrderBook RandState),
  book_inv ob -> globalInsertionCounter ob <= i -> 0 <= i <= NUM_ENTRIES ->
  (Z.to_nat NUM_ENTRIES < fuel)%nat -> Forall cmd_typed cmds ->
  exists ob',
    main_loop rand fuel i cmds ob = Some ob' /\ book_inv ob' /\
    globalInsertionCounter ob' <= NUM_ENTRIES /\
    (Forall cmd_adds_valid cmds -> priced_valid ob -> priced_valid ob').
Proof.
  unfold NUM_ENTRIES.
  induction cmds as [|c rest IH]; intros i ob Hinv Hctr Hi Hfuel Hty.
  - exists ob. simpl. split; [done|]. split; [done|]. split; [lia|]. auto.
  - apply Forall_cons in Hty as [Hc Hty]. cbn [main_loop].
    unfold NUM_ENTRIES.
    destruct (Z.ltb_spec i 1000000) as [Hlt|Hge].
    + destruct (book_inv_execute rand fuel ob c Hinv) as (ob1 & E & Hinv1 & C1);
        [unfold INT_MAX; lia|lia|done|].
      rewrite E.
      destruct (IH (i + 1) ob1 Hinv1) as (ob' & El & Hinv' & C' & Hpv);
        [lia|lia|done|done|].
      exists ob'. split; [done|]. split; [done|]. split; [done|].
      intros Hval Hp. apply Forall_cons in Hval as [Hvc Hval].
      apply Hpv; [done|].
      assert (Hcap : globalInsertionCounter ob < INT_MAX)
        by (unfold INT_MAX; lia).
      exact (priced_valid_execute rand fuel ob ob1 c Hinv Hcap Hc Hvc Hp E).
    + exists ob. split; [done|]. split; [done|]. split; [lia|]. auto.
Qed.

(** X15. [main] cannot leave the range of the tree: on every stream of
    commands whose numbers have the types they are read into, with more fuel
    than [NUM_ENTRIES], every [buy] of the run returns, the loop ends with a
    book that satisfies the book invariants (so the three treap invariants)
    and has handed out at most [NUM_ENTRIES] sequence numbers, and [main]
    prints a number. *)
Theorem main_keeps_the_invariants {RandState}
        (rand : RandState -> Z * RandState) (srand : Z -> RandState)
        (fuel : nat) (cmds : list Command) :
  Forall cmd_typed cmds -> (Z.to_nat NUM_ENTRIES < fuel)%nat ->
  exists ob cost,
    main_loop rand fuel 0 cmds (new_OrderBook srand) = Some ob /\
    book_inv ob /\ treap_inv (root ob) /\
    book_size ob <= globalInsertionCounter ob <= NUM_ENTRIES /\
    main rand srand fuel cmds = Some cost.
Proof.
  intros Hty Hfuel.
  destruct (main_loop_spec rand fuel cmds 0 (new_OrderBook srand))
    as (ob & E & Hinv & C & _);
    [apply book_inv_new|done|unfold NUM_ENTRIES; lia|done|done|].
  destruct (buy_returns fuel ob 1000 Hinv) as (ob' & cost & Eb);
    [unfold NUM_ENTRIES in *; lia|].
  exists ob, cost. unfold main, buyFinal. rewrite E, Eb.
  pose proof Hinv as (Ht & _ & Hsz).
  split; [done|]. split; [done|]. split; [done|]. split; [|done].
  split; [done|exact C].
Qed.

Lemma main_keeps_the_invariants_witness :
  Forall cmd_typed example_commands /\
  (Z.to_nat NUM_ENTRIES < Z.to_nat 1000001)%nat /\
  exists ob cost,
    main_loop lcg_rand (Z.to_nat 1000001) 0 example_commands
              (new_OrderBook lcg_srand) = Some ob /\
    book_inv ob /\
    main lcg_rand lcg_srand (Z.to_nat 1000001) example_commands = Some cost.
Proof.
  assert (Hty : Forall cmd_typed example_commands) by compute_done.
  assert (Hfuel : (Z.to_nat NUM_ENTRIES < Z.to_nat 1000001)%nat)
    by (unfold NUM_ENTRIES; lia).
  split; [exact Hty|]. split; [exact Hfuel|].
  destruct (main_keeps_the_invariants lcg_rand lcg_srand (Z.to_nat 1000001)
              example_commands Hty Hfuel) as (ob & cost & H1 & H2 & _ & _ & H5).
  exists ob, cost. split; [exact H1|]. split; [exact H2 | exact H5].
Defined.

(** X16. What [main] prints is exact: if moreover every ['+'] command has a
    positive size, the number printed is the reference cost of 1000 units
    over the orders resting when the input ends, computed in exact integers
    (the 64-bit accumulator never wraps), and it lies between
    [1000 * INT_MIN] and [1000 * INT_MAX]. *)
Theorem main_prints_the_exact_cost {RandState}
        (rand : RandState -> Z * RandState) (srand : Z -> RandState)
        (fuel : nat) (cmds : list Command) :
  Forall cmd_typed cmds -> Forall cmd_adds_valid cmds ->
  (Z.to_nat NUM_ENTRIES < fuel)%nat ->
  exists ob,
    main_loop rand fuel 0 cmds (new_OrderBook srand) = Some ob /\
    main rand srand fuel cmds = Some (reference_cost (resting ob) 1000) /\
    1000 * INT_MIN <= reference_cost (resting ob) 1000 <= 1000 * INT_MAX.
Proof.
  intros Hty Hval Hfuel.
  destruct (main_loop_spec rand fuel cmds 0 (new_OrderBook srand))
    as (ob & E & Hinv & C & Hpv);
    [apply book_inv_new|done|unfold NUM_ENTRIES; lia|done|done|].
  destruct (Hpv Hval) as [Hv Hp]; [split; constructor|].
  destruct Hinv as ((_ & _ & Hok) & _ & Hsz).
  exists ob. split; [done|]. unfold main. rewrite E.
  destruct (buy_spec fuel ob 1000 Hok) as (t' & Hb & _ & _).
  { unfold book_size, resting, NUM_ENTRIES in *.
    rewrite (size_ok_count _ Hok) in Hsz. lia. }
  pose proof (reference_cost_bounds (resting ob) 1000 Hv Hp ltac:(lia)) as Hbd.
  rewrite walk_cost_0 in Hb by (done || unfold LLONG_MAX; lia).
  rewrite wrap64_exact in Hb
    by (unfold is_long_long, LLONG_MIN, LLONG_MAX, INT_MIN, INT_MAX in *; lia).
  unfold buyFinal. rewrite Hb. done.
Qed.

Lemma main_prints_the_exact_cost_witness :
  Forall cmd_typed example_commands /\
  Forall cmd_adds_valid example_commands /\
  (Z.to_nat NUM_ENTRIES < Z.to_nat 1000001)%nat /\
  exists ob,
    main_loop lcg_rand (Z.to_nat 1000001) 0 example_commands
              (new_OrderBook lcg_srand) = Some ob /\
    main lcg_rand lcg_srand (Z.to_nat 1000001) example_commands =
      Some (reference_cost (resting ob) 1000).
Proof.
  assert (Hty : Forall cmd_typed example_commands) by compute_done.
  assert (Hval : Forall cmd_adds_valid example_commands) by compute_done.
  assert (Hfuel : (Z.to_nat NUM_ENTRIES < Z.to_nat 1000001)%nat)
    by (unfold NUM_ENTRIES; lia).
  split; [exact Hty|]. split; [exact Hval|]. split; [exact Hfuel|].
  destruct (main_prints_the_exact_cost lcg_rand lcg_srand (Z.to_nat 1000001)
              example_commands Hty Hval Hfuel) as (ob & H1 & H2 & _).
  exists ob. split; [exact H1 | exact H2].
Defined.

(** * Properties of the reader *)

Example example_file_readInt :
  readInt 32 8 (new_FastIO example_file) =
  Some (true, -42, mkFastIO example_file 5 6 []).
Proof.
  reflexivity.
Qed.

Lemma nextChar_spec io :
  reader_ok io ->
  reader_ok (snd (nextChar io)) /\
  match pending io with
  | [] => fst (nextChar io) = EOF /\ pending (snd (nextChar io)) = []
  | c :: rest => fst (nextChar io) = c /\ pending (snd (nextChar io)) = rest
  end.
Proof.
  intros (Hpos & Hlen & Hmax). unfold nextChar, pending.
  destruct (Z.eqb_spec (inPos io) (inSize io)) as [Heq|Hne].
  - rewrite Heq.
    rewrite (drop_ge (take (Z.to_nat (inSize io)) (inBuf io)))
      by (rewrite length_take; lia).
    cbn [app].
    set (chunk := take (Z.to_nat BUF_SIZE) (f io)).
    assert (Hc : (length chunk <= Z.to_nat BUF_SIZE)%nat)
      by (unfold chunk; rewrite length_take; lia).
    assert (Hbuf : take (length chunk)
                     (chunk ++ drop (length chunk) (inBuf io)) = chunk)
      by (by rewrite take_app_length).
    destruct (Z.eqb_spec (Z.of_nat (length chunk)) 0) as [Hz|Hnz];
      cbn [fst snd inPos inSize inBuf f].
    + assert (chunk = []) as Hnil by (destruct chunk; [done|simpl in Hz; lia]).
      assert (f io = []) as Hf.
      { unfold chunk in Hnil. destruct (f io) as [|x l]; [done|].
        unfold BUF_SIZE in Hnil. by destruct (Z.to_nat (2 ^ 20)) eqn:E. }
      rewrite Hf, Hnil. simpl. unfold reader_ok. simpl.
      repeat split; first [lia | done | unfold BUF_SIZE; lia].
    + assert (Ha : add32 0 1 = 1) by reflexivity. rewrite Ha.
      rewrite Nat2Z.id, Hbuf.
      assert (HN : Z.to_nat BUF_SIZE = S (Z.to_nat (BUF_SIZE - 1)))
        by (unfold BUF_SIZE; lia).
      split.
      { unfold reader_ok. cbn [inPos inSize inBuf].
        rewrite length_app, length_drop. lia. }
      unfold chunk in *. rewrite HN in *.
      destruct (f io) as [|c0 file']; [simpl in Hnz; lia|].
      cbn [take app nth drop]. split; [done|].
      apply take_drop.
  - cbn [fst snd inPos inSize inBuf f].
    assert (Ha : add32 (inPos io) 1 = inPos io + 1).
    { apply add32_exact. unfold is_int, INT_MIN, INT_MAX, BUF_SIZE in *. lia. }
    rewrite Ha.
    assert (Hlt : (Z.to_nat (inPos io) < length (take (Z.to_nat (inSize io))
                                                  (inBuf io)))%nat)
      by (rewrite length_take; lia).
    destruct (lookup_lt_is_Some_2 _ _ Hlt) as [c Hc].
    rewrite (drop_S _ c _ Hc). cbn [app].
    split; [unfold reader_ok; cbn [inPos inSize inBuf]; lia|].
    split.
    + rewrite lookup_take_lt in Hc by lia.
      by apply nth_lookup_Some.
    + by replace (Z.to_nat (inPos io + 1)) with (S (Z.to_nat (inPos io)))
        by lia.
Qed.

(** X17. Buffering is transparent: [n] calls of [nextChar] on a reader in
    order return the next [n] characters still to come, in order, and [EOF]
    once they are used up, however the file is cut into buffer loads; a new
    reader has the whole file to come. *)
Theorem nextChar_delivers_the_file (n : nat) (io : FastIO) :
  reader_ok io ->
  fst (next_chars n io) = take n (pending io ++ replicate n EOF) /\
  pending (snd (next_chars n io)) = drop n (pending io) /\
  reader_ok (snd (next_chars n io)) /\
  (forall file, reader_ok (new_FastIO file) /\
                pending (new_FastIO file) = file).
Proof.
  intros Hok.
  assert (Hnew : forall file, reader_ok (new_FastIO file) /\
                              pending (new_FastIO file) = file).
  { intros file. split; [|done].
    unfold reader_ok, new_FastIO, BUF_SIZE. simpl. lia. }
  revert io Hok. induction n as [|n IH]; intros io Hok.
  - simpl. by rewrite drop_0.
  - cbn [next_chars].
    destruct (nextChar_spec io Hok) as [Hok' Hstep].
    destruct (nextChar io) as [c io'] eqn:E. cbn [fst snd] in *.
    destruct (IH io' Hok') as (IH1 & IH2 & IH3 & _).
    destruct (next_chars n io') as [cs io''] eqn:E'. cbn [fst snd] in *.
    destruct (pending io) as [|c0 rest] eqn:Ep.
    + destruct Hstep as [-> Hp]. rewrite Hp in IH1, IH2.
      rewrite IH1, IH2, drop_nil.
      split; [|done]. cbn [app replicate take]. done.
    + destruct Hstep as [-> Hp]. rewrite Hp in IH1, IH2.
      rewrite IH1, IH2.
      split; [|done]. cbn [app replicate take drop]. f_equal.
      change (EOF :: replicate n EOF) with (replicate (S n) EOF).
      rewrite !take_app, !take_replicate. do 2 f_equal. lia.
Qed.

Lemma nextChar_delivers_the_file_witness :
  reader_ok (new_FastIO example_file) /\
  fst (next_chars 8 (new_FastIO example_file)) =
    [32; 45; 52; 50; 10; 55; EOF; EOF] /\
  fst (next_chars 8 (new_FastIO example_file)) =
    take 8 (pending (new_FastIO example_file) ++ replicate 8 EOF).
Proof.
  assert (Hok : reader_ok (new_FastIO example_file))
    by (unfold reader_ok, BUF_SIZE; simpl; lia).
  split; [exact Hok|]. split; [reflexivity|].
  exact (proj1 (nextChar_delivers_the_file 8 (new_FastIO example_file) Hok)).
Defined.

(** ** Parsing *)

Lemma wrap_shift bits x k :
  0 < bits -> wrap bits (x + k * 2 ^ bits) = wrap bits x.
Proof.
  intros Hb. unfold wrap. f_equal.
  replace (x + k * 2 ^ bits + 2 ^ (bits - 1))
    with (x + 2 ^ (bits - 1) + k * 2 ^ bits) by lia.
  apply Z_mod_plus_full.
Qed.

Lemma wrap_diff bits x : exists k, wrap bits x = x + k * 2 ^ bits.
Proof.
  unfold wrap. exists (- ((x + 2 ^ (bits - 1)) / 2 ^ bits)).
  destruct (Z.eq_dec (2 ^ bits) 0) as [E|E].
  - rewrite E, Z.mod_0_r. lia.
  - pose proof (Z.div_mod (x + 2 ^ (bits - 1)) (2 ^ bits) E). lia.
Qed.

Lemma wrap_step bits v d :
  0 < bits -> wrap bits (wrap bits v * 10 + d) = wrap bits (v * 10 + d).
Proof.
  intros Hb. destruct (wrap_diff bits v) as [k ->].
  replace ((v + k * 2 ^ bits) * 10 + d)
    with (v * 10 + d + (10 * k) * 2 ^ bits) by lia.
  by apply wrap_shift.
Qed.

Lemma wrap_opp bits v :
  0 < bits -> wrap bits (- wrap bits v) = wrap bits (- v).
Proof.
  intros Hb. destruct (wrap_diff bits v) as [k ->].
  replace (- (v + k * 2 ^ bits)) with (- v + (- k) * 2 ^ bits) by lia.
  by apply wrap_shift.
Qed.

Lemma foldl_wrap_digits bits ds : forall v,
  0 < bits ->
  foldl (fun v d => wrap bits (v * 10 + d)) (wrap bits v) ds =
  wrap bits (foldl (fun v d => v * 10 + d) v ds).
Proof.
  induction ds as [|d ds IH]; intros v Hb; [done|].
  simpl. rewrite wrap_step by done. by apply IH.
Qed.

Lemma isspace_not_EOF c : isspace c = true -> c <> EOF.
Proof. intros H ->. discriminate H. Qed.

Lemma readChar_skips fuel : forall io ws tail,
  reader_ok io -> pending io = ws ++ tail ->
  Forall (fun c => isspace c = true) ws ->
  (length ws < fuel)%nat ->
  match tail with
  | [] =>
      exists io', readChar fuel io = Some (false, EOF, io') /\
                  pending io' = [] /\ reader_ok io'
  | c :: rest =>
      isspace c = false ->
      exists io', readChar fuel io = Some (negb (c =? EOF), c, io') /\
                  pending io' = rest /\ reader_ok io'
  end.
Proof.
  induction fuel as [|fuel IH]; intros io ws tail Hok Hp Hws Hfuel; [lia|].
  destruct (nextChar_spec io Hok) as [Hok' Hstep].
  cbn [readChar]. destruct (nextChar io) as [c io'] eqn:E.
  cbn [fst snd] in *. rewrite Hp in Hstep.
  destruct ws as [|w ws].
  - simpl in Hstep. destruct tail as [|t rest].
    + destruct Hstep as [-> Hp']. exists io'. done.
    + destruct Hstep as [-> Hp']. intros Hns.
      destruct (Z.eqb_spec t EOF) as [->|Hne]; [by exists io'|].
      rewrite Hns. by exists io'.
  - apply Forall_cons in Hws as [Hw Hws]. simpl in Hstep.
    destruct Hstep as [-> Hp'].
    destruct (Z.eqb_spec w EOF) as [Heof|_];
      [by apply isspace_not_EOF in Hw|].
    rewrite Hw. apply (IH io' ws tail); [done|done|done|simpl in Hfuel; lia].
Qed.


Lemma read_digits_stop bits fuel val c io :
  not_digit c -> read_digits bits fuel val c io = Some (val, io).
Proof.
  intros Hc. unfold not_digit in Hc.
  destruct fuel; simpl;
    (destruct (Z.leb_spec 48 c); destruct (Z.leb_spec c 57); simpl;
     try done; lia).
Qed.

Lemma read_digits_spec bits ds : forall fuel val c io tl,
  reader_ok io -> 48 <= c <= 57 ->
  Forall (fun d => 0 <= d <= 9) ds ->
  pending io = map (fun d => 48 + d) ds ++ tl -> ends_number tl ->
  (length ds < fuel)%nat ->
  exists io',
    read_digits bits fuel val c io =
      Some (foldl (fun v d => wrap bits (v * 10 + d))
                  (wrap bits (val * 10 + (c - 48))) ds, io') /\
    pending io' = tail tl /\ reader_ok io'.
Proof.
  induction ds as [|d ds IH]; intros fuel val c io tl Hok Hc Hds Hp Hend Hfuel.
  - destruct fuel as [|fuel]; [simpl in Hfuel; lia|].
    cbn [read_digits foldl].
    replace ((48 <=? c) && (c <=? 57)) with true
      by (symmetry; apply andb_true_iff; split; apply Z.leb_le; lia).
    destruct (nextChar_spec io Hok) as [Hok' Hstep].
    destruct (nextChar io) as [c' io'] eqn:E. cbn [fst snd] in *.
    simpl in Hp. rewrite Hp in Hstep.
    destruct tl as [|t rest].
    + destruct Hstep as [-> Hp']. exists io'.
      rewrite read_digits_stop by (left; unfold EOF; lia). done.
    + destruct Hstep as [-> Hp']. exists io'.
      rewrite read_digits_stop by exact Hend. done.
  - destruct fuel as [|fuel]; [simpl in Hfuel; lia|].
    apply Forall_cons in Hds as [Hd Hds].
    cbn [read_digits foldl].
    replace ((48 <=? c) && (c <=? 57)) with true
      by (symmetry; apply andb_true_iff; split; apply Z.leb_le; lia).
    destruct (nextChar_spec io Hok) as [Hok' Hstep].
    destruct (nextChar io) as [c' io'] eqn:E. cbn [fst snd] in *.
    simpl in Hp. rewrite Hp in Hstep. destruct Hstep as [-> Hp'].
    destruct (IH fuel (wrap bits (val * 10 + (c - 48))) (48 + d) io' tl)
      as (io'' & Hr & Hp'' & Hok''); [done|lia|done|done|done|simpl in Hfuel; lia|].
    exists io''. rewrite Hr.
    replace (48 + d - 48) with d by lia. done.
Qed.

(** X18. [readInt] reads a decimal number: when what is to come is any
    whitespace, an optional ['-'], one or more decimal digits, and then the
    end of the file or a character that is not a digit, [readInt] returns
    true with the number the digits denote (negated after ['-']), reduced to
    the [bits] bits of the result type; that is the number itself when it
    fits. The character that ended the number has been consumed with it. *)
Theorem readInt_reads_a_number (bits : Z) (fuel : nat) (io : FastIO)
        (ws : list Z) (neg : bool) (ds tl : list Z) :
  0 < bits -> reader_ok io ->
  Forall (fun c => isspace c = true) ws ->
  ds <> [] -> Forall (fun d => 0 <= d <= 9) ds -> ends_number tl ->
  pending io =
    ws ++ (if neg then [45] else []) ++ map (fun d => 48 + d) ds ++ tl ->
  (length (pending io) < fuel)%nat ->
  let n := if neg then - digits_value ds else digits_value ds in
  exists io',
    readInt bits fuel io = Some (true, wrap bits n, io') /\
    pending io' = tail tl /\ reader_ok io' /\
    (- 2 ^ (bits - 1) <= n < 2 ^ (bits - 1) ->
     readInt bits fuel io = Some (true, n, io')).
Proof.
  intros Hb Hok Hws Hne Hds Hend Hp Hfuel n.
  destruct ds as [|d0 ds]; [done|]. clear Hne.
  apply Forall_cons in Hds as [Hd0 Hds].
  rewrite Hp in Hfuel. rewrite !length_app, length_map in Hfuel.
  simpl in Hfuel.
  assert (Hval : forall io2 c1,
    reader_ok io2 -> c1 = 48 + d0 ->
    pending io2 = map (fun d => 48 + d) ds ++ tl ->
    exists io',
      read_digits bits fuel 0 c1 io2 = Some (wrap bits (digits_value (d0 :: ds)), io')
      /\ pending io' = tail tl /\ reader_ok io').
  { intros io2 c1 Hok2 -> Hp2.
    destruct (read_digits_spec bits ds fuel 0 (48 + d0) io2 tl)
      as (io' & Hr & Hp' & Hok'); [done|lia|done|done|done|lia|].
    exists io'. rewrite Hr. split; [|done].
    rewrite foldl_wrap_digits by done. unfold digits_value. cbn [foldl].
    replace (0 * 10 + (48 + d0 - 48)) with (0 * 10 + d0) by lia. done. }
  assert (Hfin : forall io',
    readInt bits fuel io = Some (true, wrap bits n, io') ->
    pending io' = tail tl -> reader_ok io' ->
    exists io'0,
      readInt bits fuel io = Some (true, wrap bits n, io'0) /\
      pending io'0 = tail tl /\ reader_ok io'0 /\
      (- 2 ^ (bits - 1) <= n < 2 ^ (bits - 1) ->
       readInt bits fuel io = Some (true, n, io'0))).
  { intros io' Hr Hp' Hok'. exists io'. split; [done|]. split; [done|].
    split; [done|]. intros Hfit. by rewrite Hr, wrap_id. }
  unfold readInt. destruct neg.
  - destruct (readChar_skips fuel io ws
                (45 :: map (fun d => 48 + d) (d0 :: ds) ++ tl) Hok Hp Hws)
      as (io1 & Hr1 & Hp1 & Hok1); [lia|done|].
    destruct (nextChar_spec io1 Hok1) as [Hok2 Hstep].
    rewrite Hp1 in Hstep. simpl in Hstep. destruct Hstep as [Hc2 Hp2].
    destruct (Hval (snd (nextChar io1)) (fst (nextChar io1)) Hok2 Hc2 Hp2)
      as (io' & Hr & Hp' & Hok').
    apply (Hfin io'); [|done|done].
    unfold readInt. rewrite Hr1. simpl.
    destruct (nextChar io1) as [c2 io2]. cbn [fst snd] in *. subst c2.
    replace ((48 + d0 <? 48) || (57 <? 48 + d0)) with false
      by (symmetry; apply orb_false_iff; split; apply Z.ltb_ge; lia).
    rewrite Hr. unfold n. by rewrite wrap_opp.
  - simpl in Hp.
    destruct (readChar_skips fuel io ws
                (48 + d0 :: map (fun d => 48 + d) ds ++ tl) Hok Hp Hws)
      as (io1 & Hr1 & Hp1 & Hok1); [lia| |].
    { unfold isspace. rewrite Z.mod_small by lia.
      apply orb_false_iff. split; [apply Z.eqb_neq; lia|].
      apply andb_false_iff. right. apply Z.leb_gt. lia. }
    destruct (Hval io1 (48 + d0) Hok1 eq_refl Hp1) as (io' & Hr & Hp' & Hok').
    apply (Hfin io'); [|done|done].
    unfold readInt. rewrite Hr1.
    replace (48 + d0 =? EOF) with false
      by (symmetry; apply Z.eqb_neq; unfold EOF; lia).
    cbn [negb].
    replace (48 + d0 =? 45) with false by (symmetry; apply Z.eqb_neq; lia).
    replace ((48 + d0 <? 48) || (57 <? 48 + d0)) with false
      by (symmetry; apply orb_false_iff; split; apply Z.ltb_ge; lia).
    by rewrite Hr.
Qed.

Lemma readInt_reads_a_number_witness :
  0 < 32 /\ reader_ok (new_FastIO example_file) /\
  Forall (fun c => isspace c = true) [32] /\
  [4; 2] <> [] /\ Forall (fun d => 0 <= d <= 9) [4; 2] /\
  ends_number [10; 55] /\
  (length (pending (new_FastIO example_file)) < 8)%nat /\
  exists io',
    readInt 32 8 (new_FastIO example_file) = Some (true, -42, io') /\
    pending io' = [55].
Proof.
  assert (Hb : 0 < 32) by lia.
  assert (Hok : reader_ok (new_FastIO example_file))
    by (unfold reader_ok, BUF_SIZE; simpl; lia).
  assert (Hws : Forall (fun c => isspace c = true) [32]) by compute_done.
  assert (Hne : [4; 2] <> []) by discriminate.
  assert (Hds : Forall (fun d => 0 <= d <= 9) [4; 2]) by compute_done.
  assert (Hend : ends_number [10; 55]) by (left; lia).
  assert (Hp : pending (new_FastIO example_file) =
               [32] ++ (if true then [45] else []) ++
               map (fun d => 48 + d) [4; 2] ++ [10; 55]) by reflexivity.
  assert (Hfuel : (length (pending (new_FastIO example_file)) < 8)%nat)
    by (simpl; lia).
  split; [exact Hb|]. split; [exact Hok|]. split; [exact Hws|].
  split; [exact Hne|]. split; [exact Hds|]. split; [exact Hend|].
  split; [exact Hfuel|].
  destruct (readInt_reads_a_number 32 8 (new_FastIO example_file) [32] true
              [4; 2] [10; 55] Hb Hok Hws Hne Hds Hend Hp Hfuel)
    as (io' & _ & Hp' & _ & Hfit).
  exists io'. split; [|exact Hp'].
  apply Hfit. vm_compute. split; [discriminate | reflexivity].
Defined.

(** X19. What [readInt] refuses, and what it has consumed by then. After any
    whitespace: at the end of the file it returns false; at a character that
    is neither a digit nor ['-'] it returns false and that character is
    consumed; at a ['-'] that no digit follows it returns false and both the
    ['-'] and the character after it are consumed. [val] is 0 in each
    case. *)
Theorem readInt_rejects (bits : Z) (fuel : nat) (io : FastIO)
        (ws tl : list Z) :
  reader_ok io -> Forall (fun c => isspace c = true) ws ->
  pending io = ws ++ tl -> (length (pending io) < fuel)%nat ->
  (tl = [] ->
     exists io', readInt bits fuel io = Some (false, 0, io') /\
                 pending io' = []) /\
  (forall c rest,
      tl = c :: rest -> isspace c = false -> c <> 45 -> not_digit c ->
      exists io', readInt bits fuel io = Some (false, 0, io') /\
                  pending io' = rest) /\
  (forall rest,
      tl = 45 :: rest -> ends_number rest ->
      exists io', readInt bits fuel io = Some (false, 0, io') /\
                  pending io' = tail rest).
Proof.
  intros Hok Hws Hp Hfuel.
  assert (Hlen : (length ws < fuel)%nat)
    by (rewrite Hp, length_app in Hfuel; lia).
  pose proof (readChar_skips fuel io ws tl Hok Hp Hws Hlen) as Hskip.
  split; [|split].
  - intros ->. destruct Hskip as (io' & Hr & Hp' & _).
    exists io'. unfold readInt. by rewrite Hr.
  - intros c rest -> Hns Hne Hnd.
    destruct (Hskip Hns) as (io' & Hr & Hp' & _).
    exists io'. unfold readInt. rewrite Hr.
    destruct (c =? EOF); cbn [negb]; [done|].
    replace (c =? 45) with false by (symmetry; by apply Z.eqb_neq).
    replace ((c <? 48) || (57 <? c)) with true; [done|].
    symmetry. apply orb_true_iff. unfold not_digit in Hnd.
    destruct Hnd; [left|right]; by apply Z.ltb_lt.
  - intros rest -> Hend.
    destruct (Hskip eq_refl) as (io1 & Hr & Hp1 & Hok1).
    destruct (nextChar_spec io1 Hok1) as [Hok2 Hstep].
    rewrite Hp1 in Hstep.
    exists (snd (nextChar io1)). unfold readInt. rewrite Hr. simpl.
    destruct (nextChar io1) as [c2 io2]. cbn [fst snd] in *.
    assert (Hc2 : not_digit c2 /\ pending io2 = tail rest).
    { destruct rest as [|t rest'].
      - destruct Hstep as [-> ->]. split; [left; unfold EOF; lia|done].
      - destruct Hstep as [-> ->]. split; [exact Hend|done]. }
    destruct Hc2 as [Hnd ->].
    replace ((c2 <? 48) || (57 <? c2)) with true; [done|].
    symmetry. apply orb_true_iff. unfold not_digit in Hnd.
    destruct Hnd; [left|right]; by apply Z.ltb_lt.
Qed.

Lemma readInt_rejects_witness :
  reader_ok (new_FastIO example_bad_file) /\
  Forall (fun c => isspace c = true) [32] /\
  (length (pending (new_FastIO example_bad_file)) < 8)%nat /\
  exists io',
    readInt 32 8 (new_FastIO example_bad_file) = Some (false, 0, io') /\
    pending io' = [50].
Proof.
  assert (Hok : reader_ok (new_FastIO example_bad_file))
    by (unfold reader_ok, BUF_SIZE; simpl; lia).
  assert (Hws : Forall (fun c => isspace c = true) [32]) by compute_done.
  assert (Hp : pending (new_FastIO example_bad_file) = [32] ++ [45; 120; 50])
    by reflexivity.
  assert (Hfuel : (length (pending (new_FastIO example_bad_file)) < 8)%nat)
    by (simpl; lia).
  assert (Hend : ends_number [120; 50]) by (right; lia).
  split; [exact Hok|]. split; [exact Hws|]. split; [exact Hfuel|].
  exact (proj2 (proj2 (readInt_rejects 32 8 (new_FastIO example_bad_file)
                         [32] [45; 120; 50] Hok Hws Hp Hfuel))
           [120; 50] eq_refl Hend).
Defined.

(** * Reachable books *)

Lemma walk_sequences l shares cost :
  (o_sequence <$> fst (walk l shares cost)) `sublist_of` (o_sequence <$> l).
Proof.
  destruct (walk_shape l shares cost)
    as (k & rest & _ & [->|(o & v & Hd & ->)]).
  - rewrite fmap_drop. apply sublist_drop.
  - change (o_sequence <$> set_quantity v o :: rest)
      with (o_sequence <$> (o :: rest)).
    rewrite <- Hd, fmap_drop. apply sublist_drop.
Qed.

Lemma reachable_sequences_NoDup {RandState}
      (rand : RandState -> Z * RandState) (srand : Z -> RandState)
      (ob : OrderBook RandState) :
  reachable rand srand ob -> NoDup (o_sequence <$> resting ob).
Proof.
  induction 1 as [|ob p q Hr IH _ _ Hcap|ob pos Hr IH Hint
                  |ob fuel shares ob' cost Hr IH Hbuy].
  - constructor.
  - pose proof (reachable_book_inv rand srand ob Hr) as Hinv.
    destruct (book_inv_add rand ob p q Hinv Hcap) as (_ & E & _).
    destruct Hinv as (_ & Hseq & _).
    rewrite E, insert_order_perm. cbn [fmap list_fmap].
    apply NoDup_cons. split; [|done]. simpl.
    intros Hin. apply list_elem_of_fmap in Hin as (o & Ho & Hin).
    apply (proj1 (Forall_forall _ _) Hseq) in Hin. simpl in Hin. lia.
  - pose proof (reachable_book_inv rand srand ob Hr) as ((_ & _ & Hok) & _).
    unfold resting, removeByPosition in *. cbn [root].
    destruct (decide (0 <= pos < getSize (root ob))) as [Hin|Hout].
    + destruct (removeByRank_in_range (root ob) pos Hok Hin) as (-> & _).
      rewrite list_fmap_delete.
      eapply sublist_NoDup; [exact IH|apply sublist_delete].
    + by rewrite removeByRank_out_of_range by (assumption || lia).
  - pose proof (reachable_book_inv rand srand ob Hr) as ((_ & _ & Hok) & _).
    unfold buy in Hbuy.
    destruct (buy_loop fuel (root ob) shares 0) as [[t c]|] eqn:E; [|done].
    injection Hbuy as <- <-.
    destruct (buy_loop_result _ _ _ _ _ _ Hok E) as (Hi & _).
    unfold resting in *. cbn [root]. rewrite Hi.
    eapply sublist_NoDup; [exact IH|apply walk_sequences].
Qed.

(** X20. Every book a client can bring about is well formed: its tree
    satisfies the three structural invariants, [size()] is the number of
    resting orders and never more than the number of sequence numbers handed
    out, and the resting orders carry pairwise distinct sequence numbers, all
    below the counter: a sequence number is never used twice. *)
Theorem reachable_books_are_well_formed {RandState}
        (rand : RandState -> Z * RandState) (srand : Z -> RandState)
        (ob : OrderBook RandState) :
  reachable rand srand ob ->
  treap_inv (root ob) /\
  book_size ob = Z.of_nat (length (resting ob)) /\
  book_size ob <= globalInsertionCounter ob /\
  NoDup (o_sequence <$> resting ob) /\
  Forall (fun o => 0 <= o_sequence o < globalInsertionCounter ob)
         (resting ob).
Proof.
  intros Hr.
  pose proof (reachable_book_inv rand srand ob Hr) as (Hinv & Hseq & Hsz).
  pose proof Hinv as (_ & _ & Hok).
  split; [done|]. split; [by apply size_ok_count|]. split; [done|].
  split; [by eapply reachable_sequences_NoDup|done].
Qed.

Lemma reachable_books_are_well_formed_witness :
  reachable lcg_rand lcg_srand example_book /\
  treap_inv (root example_book) /\
  NoDup (o_sequence <$> resting example_book).
Proof.
  assert (Hr : reachable lcg_rand lcg_srand example_book).
  { unfold example_book, lcg_add, lcg_book.
    repeat (apply reach_add; [| compute_done | compute_done | compute_done]).
    apply reach_new. }
  destruct (reachable_books_are_well_formed lcg_rand lcg_srand example_book Hr)
    as (H1 & _ & _ & H4 & _).
  split; [exact Hr|]. split; [exact H1 | exact H4].
Defined.

(** X21. Ranks ascend: on a tree that is ordered and has consistent sizes,
    the orders [getByRank] returns for two consecutive ranks [r] and [r + 1]
    inside the tree have prices in ascending order, and at equal prices the
    lower rank has the lower sequence number. *)
Theorem getByRank_ascends (t : TreapNode) (r : Z) :
  ordered t -> size_ok t -> 0 <= r -> r + 1 < getSize t ->
  exists a b,
    order_of (getByRank t r) = Some a /\
    order_of (getByRank t (r + 1)) = Some b /\
    o_price a <= o_price b /\
    (o_price a = o_price b -> o_sequence a < o_sequence b).
Proof.
  intros Hord Hok Hr Hin.
  pose proof (size_ok_int t Hok) as Hmax.
  pose proof (size_ok_count t Hok) as Hc.
  assert (Hi1 : is_int r) by (unfold is_int, INT_MIN, INT_MAX in *; lia).
  assert (Hi2 : is_int (r + 1)) by (unfold is_int, INT_MIN, INT_MAX in *; lia).
  rewrite !getByRank_lookup by (done || lia).
  destruct (lookup_lt_is_Some_2 (inorder t) (Z.to_nat r)) as [a Ha]; [lia|].
  destruct (lookup_lt_is_Some_2 (inorder t) (Z.to_nat (r + 1))) as [b Hb];
    [lia|].
  exists a, b. split; [done|]. split; [done|].
  assert (Hlt : order_lt a b).
  { apply (StronglySorted_lookup_lt order_lt (inorder t) Hord
             (Z.to_nat r) (Z.to_nat (r + 1))); [lia|done|done]. }
  unfold order_lt, key_lt in Hlt. lia.
Qed.

Lemma getByRank_ascends_witness :
  ordered (root example_book) /\ size_ok (root example_book) /\
  0 <= 1 /\ 1 + 1 < getSize (root example_book) /\
  exists a b,
    order_of (getByRank (root example_book) 1) = Some a /\
    order_of (getByRank (root example_book) (1 + 1)) = Some b /\
    o_price a <= o_price b /\
    (o_price a = o_price b -> o_sequence a < o_sequence b).
Proof.
  assert (Hord : ordered (root example_book)) by compute_done.
  assert (Hok : size_ok (root example_book)) by sizes_by_computation.
  assert (H0 : 0 <= 1) by lia.
  assert (Hin : 1 + 1 < getSize (root example_book)) by compute_done.
  split; [exact Hord|]. split; [exact Hok|]. split; [exact H0|].
  split; [exact Hin|].
  exact (getByRank_ascends (root example_book) 1 Hord Hok H0 Hin).
Defined.

(** * First in, first out *)

(** At equal price the order that came first ranks first. *)
Lemma equal_price_rank l (i j : nat) a b :
  StronglySorted order_lt l ->
  l !! i = Some a -> l !! j = Some b ->
  o_price a = o_price b -> o_sequence a < o_sequence b -> (i < j)%nat.
Proof.
  intros Hs Ha Hb Hp Hseq.
  destruct (lt_eq_lt_dec i j) as [[Hlt| ->]|Hgt]; [done| |].
  - rewrite Ha in Hb. injection Hb as ->. lia.
  - pose proof (StronglySorted_lookup_lt _ _ Hs j i b a Hgt Hb Ha) as Hlt.
    unfold order_lt, key_lt in Hlt. lia.
Qed.

(** What the loop of [buy] leaves carries the sequence numbers of a tail of
    the list; from the rank of the first order it leaves on, nothing but the
    quantity of that order has changed. *)
Lemma walk_tail l shares c :
  Forall valid_quantity l -> shares <= LLONG_MAX ->
  exists k : nat,
    o_sequence <$> fst (walk l shares c) = drop k (o_sequence <$> l) /\
    (forall (j : nat) b, (k < j)%nat -> l !! j = Some b ->
       b ∈ fst (walk l shares c)) /\
    (forall b, l !! k = Some b ->
       b ∈ fst (walk l shares c) \/
       exists v, 0 < v < o_quantity b /\
                 fst (walk l shares c) !! 0%nat = Some (set_quantity v b)).
Proof.
  intros Hall Hs.
  destruct (walk_front l shares c Hall Hs)
    as [k [->|(o & rest & v & Hd & -> & Hv)]]; exists k.
  - split; [by rewrite fmap_drop|]. split.
    + intros j b Hkj Hb. apply list_elem_of_lookup. exists (j - k)%nat.
      rewrite lookup_drop. by replace (k + (j - k))%nat with j by lia.
    + intros b Hb. left. apply list_elem_of_lookup. exists 0%nat.
      by rewrite lookup_drop, Nat.add_0_r.
  - split; [|split].
    + rewrite <- fmap_drop, Hd. reflexivity.
    + intros j b Hkj Hb. apply list_elem_of_lookup. exists (j - k)%nat.
      replace j with (k + (j - k))%nat in Hb by lia.
      rewrite <- lookup_drop, Hd in Hb.
      destruct (j - k)%nat as [|m] eqn:E; [lia|]. exact Hb.
    + intros b Hb. right. exists v.
      rewrite <- (Nat.add_0_r k), <- lookup_drop, Hd in Hb.
      injection Hb as <-. done.
Qed.

(** C3. Orders at equal price leave in the order they came. From the empty
    book, after [add 10 5] and [add 10 3], whatever the generator: the first
    order is at rank 0; [buy 5] costs 50 and leaves only the second order,
    untouched; [buy 6] costs 60 and leaves exactly one order,
    [(price 10, quantity 2)] with the second order's sequence number, at
    rank 0. And on every book that [add], [removeByPosition] and [buy] can
    bring about: an [add] gives its order a sequence number above those of
    all resting orders; of two resting orders at the same price the one that
    came first (the lower sequence number) is the one at the lower rank; and
    when the quantities are valid, [buy] returns and either leaves the later
    of the two untouched, or has consumed the earlier one entirely: the
    later order is never touched while any of the earlier one remains. In
    every ordered tree, of two orders at the same price the one at the
    lower rank has the lower sequence number. *)
Theorem buy_fifo_at_equal_price {RandState}
        (rand : RandState -> Z * RandState) (srand : Z -> RandState)
        (fuel : nat) :
  (2 < fuel)%nat ->
  let ob := add rand (add rand (new_OrderBook srand) 10 5) 10 3 in
  (forall t (i j : nat) a b,
      ordered t -> (i < j)%nat ->
      inorder t !! i = Some a -> inorder t !! j = Some b ->
      o_price a = o_price b -> o_sequence a < o_sequence b) /\
  resting ob = [mkOrder 10 5 0; mkOrder 10 3 1] /\
  (exists ob5, buy fuel ob 5 = Some (ob5, 50) /\
               resting ob5 = [mkOrder 10 3 1]) /\
  (exists ob6, buy fuel ob 6 = Some (ob6, 60) /\
               resting ob6 = [mkOrder 10 2 1] /\
               book_size ob6 = 1 /\
               order_of (getByRank (root ob6) 0) = Some (mkOrder 10 2 1)) /\
  (forall bk, reachable rand srand bk ->
     (forall p q, globalInsertionCounter bk < INT_MAX ->
        Forall (fun o => o_sequence o < globalInsertionCounter bk)
               (resting bk) /\
        mkOrder p q (globalInsertionCounter bk) ∈ resting (add rand bk p q)) /\
     (forall (i j : nat) a b,
        resting bk !! i = Some a -> resting bk !! j = Some b ->
        o_price a = o_price b ->
        (o_sequence a < o_sequence b <-> (i < j)%nat)) /\
     (forall fuel' Q a b,
        Forall valid_quantity (resting bk) -> Q <= LLONG_MAX ->
        (length (resting bk) < fuel')%nat ->
        a ∈ resting bk -> b ∈ resting bk ->
        o_price a = o_price b -> o_sequence a < o_sequence b ->
        exists bk' cost,
          buy fuel' bk Q = Some (bk', cost) /\
          (b ∈ resting bk' \/
           Forall (fun o => o_sequence o <> o_sequence a) (resting bk')))).
Proof.
  intros Hfuel ob.
  destruct (book_inv_add rand (new_OrderBook srand) 10 5)
    as (Hinv1 & E1 & C1); [apply book_inv_new | compute_done |].
  destruct (book_inv_add rand (add rand (new_OrderBook srand) 10 5) 10 3)
    as (Hinv2 & E2 & C2); [done | rewrite C1; compute_done |].
  rewrite E1, C1 in E2. fold ob in Hinv2, E2.
  change (resting ob = [mkOrder 10 5 0; mkOrder 10 3 1]) in E2.
  destruct Hinv2 as ((_ & _ & Hok) & _ & _).
  split; [|split; [done|split; [|split]]].
  - intros t i j a b Hord Hij Ha Hb Hp.
    pose proof (StronglySorted_lookup_lt _ _ Hord i j a b Hij Ha Hb) as Hlt.
    unfold order_lt, key_lt in Hlt. lia.
  - destruct (buy_spec fuel ob 5 Hok) as (t' & Hb & Hi & Hs);
      [rewrite E2; simpl; lia|].
    rewrite E2 in Hb, Hi. eexists. split; [exact Hb|]. exact Hi.
  - destruct (buy_spec fuel ob 6 Hok) as (t' & Hb & Hi & Hs);
      [rewrite E2; simpl; lia|].
    rewrite E2 in Hb, Hi. eexists. split; [exact Hb|].
    unfold resting, book_size. cbn [root].
    split; [exact Hi|]. split.
    + rewrite (size_ok_count t' Hs), Hi. reflexivity.
    + rewrite getByRank_lookup by (done || compute_done). by rewrite Hi.
  - intros bk Hreach.
    pose proof (reachable_book_inv rand srand bk Hreach) as Hinv.
    pose proof (reachable_sequences_NoDup rand srand bk Hreach) as Hnd.
    pose proof Hinv as ((Hord & _ & Hokb) & Hseq & _).
    split; [|split].
    + intros p q Hcap.
      destruct (book_inv_add rand bk p q Hinv Hcap) as (_ & E & _).
      split.
      * eapply Forall_impl; [exact Hseq|]. simpl. intros o Ho. lia.
      * rewrite E, insert_order_perm. apply list_elem_of_here.
    + intros i j a b Ha Hb Hp. split.
      * intros Hlt. by apply (equal_price_rank (resting bk) i j a b).
      * intros Hij.
        pose proof (StronglySorted_lookup_lt _ _ Hord i j a b Hij Ha Hb)
          as Hlt.
        unfold order_lt, key_lt in Hlt. lia.
    + intros fuel' Q a b Hv HQ Hfuel' Hina Hinb Hp Hlt.
      destruct (buy_spec fuel' bk Q Hokb Hfuel') as (t' & Hb & Hi & _).
      exists (mkOrderBook t' (globalInsertionCounter bk) (rand_state bk)),
             (snd (walk (resting bk) Q 0)).
      split; [exact Hb|].
      change (resting (mkOrderBook t' (globalInsertionCounter bk)
                                   (rand_state bk))) with (inorder t').
      rewrite Hi.
      apply list_elem_of_lookup in Hina as [i Hi'].
      apply list_elem_of_lookup in Hinb as [j Hj'].
      pose proof (equal_price_rank (resting bk) i j a b Hord Hi' Hj' Hp Hlt)
        as Hij.
      destruct (walk_tail (resting bk) Q 0 Hv HQ) as (k & Hk & Hafter & Hat).
      assert (Hgone : (i < k)%nat ->
        Forall (fun o => o_sequence o <> o_sequence a)
               (fst (walk (resting bk) Q 0))).
      { intros Hik. apply Forall_forall. intros o Ho Heq.
        apply (list_elem_of_fmap_2 o_sequence) in Ho.
        rewrite Hk in Ho. apply list_elem_of_lookup in Ho as [m Hm].
        rewrite lookup_drop, Heq in Hm.
        assert (Hia : (o_sequence <$> resting bk) !! i = Some (o_sequence a))
          by (by rewrite list_lookup_fmap, Hi').
        pose proof (NoDup_lookup _ _ _ _ Hnd Hm Hia). lia. }
      destruct (lt_eq_lt_dec k j) as [[Hkj| ->]|Hjk].
      * left. by apply (Hafter j).
      * destruct (Hat b Hj') as [Hin|_]; [by left|].
        right. by apply Hgone.
      * right. apply Hgone. lia.
Qed.

Lemma buy_fifo_at_equal_price_witness :
  (2 < 3)%nat /\
  (exists ob6,
     buy 3 (lcg_add (lcg_add lcg_book 10 5) 10 3) 6 = Some (ob6, 60) /\
     resting ob6 = [mkOrder 10 2 1]) /\
  reachable lcg_rand lcg_srand example_book /\
  Forall valid_quantity (resting example_book) /\
  10 <= LLONG_MAX /\ (length (resting example_book) < 4)%nat /\
  mkOrder 10 5 0 ∈ resting example_book /\
  mkOrder 10 3 1 ∈ resting example_book /\
  buy 4 example_book 10 =
    Some (mkOrderBook (node 10 2 1 895712577 1 null null) 3 2003110913, 88) /\
  exists bk' cost,
    buy 4 example_book 10 = Some (bk', cost) /\
    (mkOrder 10 3 1 ∈ resting bk' \/
     Forall (fun o => o_sequence o <> 0) (resting bk')).
Proof.
  assert (Hfuel : (2 < 3)%nat) by lia.
  assert (Hr : reachable lcg_rand lcg_srand example_book).
  { unfold example_book, lcg_add, lcg_book.
    repeat (apply reach_add; [| compute_done | compute_done | compute_done]).
    apply reach_new. }
  assert (Hv : Forall valid_quantity (resting example_book)) by compute_done.
  assert (HQ : 10 <= LLONG_MAX) by compute_done.
  assert (Hfuel' : (length (resting example_book) < 4)%nat)
    by (vm_compute; lia).
  assert (Ha : mkOrder 10 5 0 ∈ resting example_book) by compute_done.
  assert (Hb : mkOrder 10 3 1 ∈ resting example_book) by compute_done.
  assert (Hp : o_price (mkOrder 10 5 0) = o_price (mkOrder 10 3 1))
    by reflexivity.
  assert (Hs : o_sequence (mkOrder 10 5 0) < o_sequence (mkOrder 10 3 1))
    by (simpl; lia).
  destruct (buy_fifo_at_equal_price lcg_rand lcg_srand 3 Hfuel)
    as (_ & _ & _ & H6 & Hgen).
  destruct H6 as (ob6 & Hb6 & Hr6 & _).
  destruct (Hgen example_book Hr) as (_ & _ & Hfifo).
  split; [exact Hfuel|]. split; [exists ob6; split; [exact Hb6 | exact Hr6]|].
  split; [exact Hr|]. split; [exact Hv|]. split; [exact HQ|].
  split; [exact Hfuel'|]. split; [exact Ha|]. split; [exact Hb|].
  split; [reflexivity|].
  exact (Hfifo 4%nat 10 (mkOrder 10 5 0) (mkOrder 10 3 1)
               Hv HQ Hfuel' Ha Hb Hp Hs).
Defined.
